(** * seo-tag-helper: the crawler, its recommendation rules and the job queue

    A shallow embedding of
      - [backend/src/scraper/LightweightScraper.ts]  (module [LightweightScraper])
      - [backend/src/queue/InMemoryQueue.ts]         (modules [InMemoryQueue], [Worker])
      - the status endpoint of [backend/src/server.ts] and the in-memory rate
        limiter of the earlier server kept in [unnamed/part_000]
        (module [Server])
    followed by the properties of the specification that concern them, and
    by further properties of the code.

    Conventions.  A JavaScript string is a [string]; one character of the
    model stands for one UTF-16 code unit (code units 0..255), so that
    [String.length] is [.length] and [substring 0 n] is [.slice(0, n)].
    Array lengths and the counters of the program, which start at zero and are
    only ever incremented, are [nat]; timestamps ([Date.getTime()]) are [Z]. *)

From Stdlib Require Import ZArith List String Ascii Bool Lia Arith.
From stdpp Require Import base list.
Import ListNotations.

Local Open Scope string_scope.
Local Open Scope nat_scope.

(** ** JavaScript string helpers *)

Module Js.

(** [s.slice(0, n)] for [0 <= n]. *)
Definition slice0 (n : nat) (s : string) : string := substring 0 n s.

(** Truthiness of a string: every string but the empty one. *)
Definition truthy (s : string) : bool :=
  match s with
  | EmptyString => false
  | String _ _ => true
  end.

(** [a || b] on strings. *)
Definition orElse (a b : string) : string := if truthy a then a else b.

(** [s.split(sep)] for a one-character separator: never the empty array. *)
Fixpoint split (sep : ascii) (s : string) : list string :=
  match s with
  | EmptyString => [EmptyString]
  | String c rest =>
      if Ascii.eqb c sep then EmptyString :: split sep rest
      else match split sep rest with
           | [] => [String c EmptyString]
           | piece :: pieces => String c piece :: pieces
           end
  end.

Definition mapString (f : ascii -> ascii) : string -> string :=
  fix go (s : string) : string :=
    match s with
    | EmptyString => EmptyString
    | String c rest => String (f c) (go rest)
    end.

(** [toLowerCase] on one code unit below 256: A-Z and the upper-case
    letters of Latin-1 (U+00C0..U+00DE but the multiplication sign). *)
Definition lowerUnit (c : ascii) : ascii :=
  let n := nat_of_ascii c in
  if ((65 <=? n) && (n <=? 90)) || ((192 <=? n) && (n <=? 222) && negb (n =? 215))
  then ascii_of_nat (n + 32) else c.

Definition toLowerCase : string -> string := mapString lowerUnit.

(** [s.replace(/[-_]/g, ' ')]. *)
Definition dashesToSpaces : string -> string :=
  mapString (fun c => if Ascii.eqb c "-" || Ascii.eqb c "_" then " "%char else c).

(** A thrown value: an [Error] object with its message, or anything else. *)
Inductive Thrown :=
  | ErrorObject (message : string)
  | OtherValue.

(** [error instanceof Error ? error.message : 'Unknown error']. *)
Definition messageOf (e : Thrown) : string :=
  match e with
  | ErrorObject m => m
  | OtherValue => "Unknown error"
  end.

(** How a call ends: it returns, or it throws. *)
Inductive Completion :=
  | Returned
  | Threw (e : Thrown).

End Js.

(** ** LightweightScraper: data *)

Module LightweightScraper.
Import Js.

Inductive Priority := high | medium | low.

Record Headings := mkHeadings {
  h1 : list string;
  h2 : list string;
  h3 : list string
}.

Record Image := mkImage {
  src : string;
  currentAlt : string
}.

(** What [page.evaluate] hands back for one page. *)
Record PageData := mkPageData {
  title : string;
  metaDescription : string;
  headings : Headings;
  images : list Image;
  wordCount : nat;
  hasContent : bool;
  internalLinks : list string
}.

Record Recommendations := mkRecommendations {
  rec_title : string;
  rec_metaDescription : string;
  rec_priority : Priority
}.

Record ScannedImage := mkScannedImage {
  si_src : string;
  si_currentAlt : string;
  si_recommendedAlt : string
}.

(** One element of [scanData.pages]: [{url, ...pageData, recommendations, images}]. *)
Record PageRecord := mkPageRecord {
  pr_url : string;
  pr_title : string;
  pr_metaDescription : string;
  pr_headings : Headings;
  pr_images : list ScannedImage;
  pr_wordCount : nat;
  pr_hasContent : bool;
  pr_internalLinks : list string;
  pr_recommendations : Recommendations
}.

Record ErrorEntry := mkErrorEntry {
  err_url : string;
  err_reason : string
}.

Record ScanData := mkScanData {
  pages : list PageRecord;
  totalPages : nat;
  pagesProcessed : nat;
  pagesSkipped : nat;
  errors : list ErrorEntry;
  completedAt : option string
}.

(** ** LightweightScraper: the recommendation rules *)

(** [pageData.headings.h1[0]]: [undefined] on an empty array. *)
Definition firstH1 (pageData : PageData) : option string := head (h1 (headings pageData)).

Definition optimizeTitle (current : string) (h1 : option string) : string :=
  if negb (truthy current) || (String.length current <? 30) then
    match h1 with
    | Some h =>
        if truthy h && (0 <? String.length h) then
          if 50 <? String.length h then slice0 50 h ++ "..."
          else h ++ " | Your Brand"
        else "Untitled Page | Your Brand"
    | None => "Untitled Page | Your Brand"
    end
  else if 60 <? String.length current then slice0 57 current ++ "..."
  else current.

Definition optimizeDescription (current title : string) (h1 : option string) : string :=
  if negb (truthy current) || (String.length current <? 120) then
    let baseText :=
      orElse (match h1 with Some h => h | None => "" end)
             (orElse title "Learn more about this page") in
    let description := baseText ++ ". Discover comprehensive information and insights." in
    if 160 <? String.length description then slice0 157 description ++ "..."
    else description
  else if 160 <? String.length current then slice0 157 current ++ "..."
  else current.

(** The running [score] of [calculatePriority], one [score += ...] per step. *)
Definition calculatePriority (pageData : PageData) : Priority :=
  let score := 0 in
  let score :=
    if negb (truthy (title pageData))
       || (String.length (title pageData) <? 30)
       || (60 <? String.length (title pageData))
    then score + 2 else score in
  let score :=
    if negb (truthy (metaDescription pageData))
       || (String.length (metaDescription pageData) <? 120)
       || (160 <? String.length (metaDescription pageData))
    then score + 2 else score in
  let score := if negb (hasContent pageData) then score + 3 else score in
  let score := if length (h1 (headings pageData)) =? 0 then score + 1 else score in
  let imagesWithoutAlt :=
    length (List.filter (fun img => negb (truthy (currentAlt img))) (images pageData)) in
  let score :=
    if 0 <? imagesWithoutAlt then score + Nat.min imagesWithoutAlt 2 else score in
  if 5 <=? score then high
  else if 2 <=? score then medium
  else low.

Definition generateRecommendations (pageData : PageData) : Recommendations :=
  let titleLength := String.length (title pageData) in
  let descLength := String.length (metaDescription pageData) in
  let optimizedTitle :=
    if (titleLength <? 30) || (60 <? titleLength)
    then optimizeTitle (title pageData) (firstH1 pageData)
    else title pageData in
  let optimizedDescription :=
    if (descLength <? 120) || (160 <? descLength)
    then optimizeDescription (metaDescription pageData) (title pageData) (firstH1 pageData)
    else metaDescription pageData in
  {| rec_title := optimizedTitle;
     rec_metaDescription := optimizedDescription;
     rec_priority := calculatePriority pageData |}.

(** [src.split('/').pop()?.split('.')[0] || 'image'], cleaned and joined to
    the page title.  Nothing in the [try] block can throw on strings, so the
    ['Image'] fallback of the [catch] is never taken. *)
Definition generateAltText (src : string) (pageData : PageData) : string :=
  let filename :=
    orElse (match head (split "." (List.last (split "/" src) "")) with
            | Some stem => stem
            | None => ""
            end) "image" in
  let cleaned := toLowerCase (dashesToSpaces filename) in
  let pageTitle := orElse (title pageData) "page" in
  slice0 100 (cleaned ++ " on " ++ pageTitle).

(** ** LightweightScraper: the rendering collaborator

    Everything the crawler learns about the outside world comes from the
    Puppeteer browser.  For one page the calls are, in this order:
    [browser.newPage()], which stands before the [try] block; the calls of the
    [try] block up to [page.evaluate] ([setRequestInterception],
    [setViewport], [goto] with its 30 s navigation timeout, [waitForTimeout],
    [evaluate]); and [page.close()] of the [finally] block. *)

Inductive VisitOutcome :=
  | NewPageThrows (e : Thrown)
      (* [browser.newPage()] rejects *)
  | VisitThrows (e : Thrown) (closing : Completion)
      (* a call of the [try] block rejects; then how [page.close()] ends *)
  | VisitOk (pageData : PageData) (closing : Completion).
      (* [page.evaluate] resolves; then how [page.close()] ends *)

(** The browser of one crawl: what happens to the tab opened as the [n]-th
    of the crawl (counting from 0) for [url]. *)
Definition Browser := nat -> string -> VisitOutcome.

(** ** LightweightScraper: the traversal *)

(** Ghost record of a crawl, kept beside the program state: the aggregate
    after each of its mutations, each partial aggregate handed to
    [updateSession], and each call [scanPage(link, depth + 1, ...)] of the
    [for] loop with the page and depth it is made from. *)
Inductive TraceEvent :=
  | Mutated (sd : ScanData)
  | Flushed (sd : ScanData)
  | Expanded (parent : string) (parentDepth : nat) (link : string) (linkDepth : nat).

Record Crawl := mkCrawl {
  scanData : ScanData;            (* the [scanData] object shared by all calls *)
  this_pagesProcessed : nat;      (* [this.pagesProcessed] *)
  visitedUrls : list string;      (* the [Set], in insertion order *)
  trace : list TraceEvent         (* ghost *)
}.

Definition maxPages : nat := 50.

Definition has (url : string) (visited : list string) : bool :=
  existsb (String.eqb url) visited.

(** [visitedUrls.add(url)] *)
Definition addVisited (url : string) (st : Crawl) : Crawl :=
  {| scanData := scanData st;
     this_pagesProcessed := this_pagesProcessed st;
     visitedUrls := if has url (visitedUrls st) then visitedUrls st
                    else visitedUrls st ++ [url];
     trace := trace st |}.

(** A mutation of [scanData], logged in the ghost trace. *)
Definition mutate (f : ScanData -> ScanData) (st : Crawl) : Crawl :=
  {| scanData := f (scanData st);
     this_pagesProcessed := this_pagesProcessed st;
     visitedUrls := visitedUrls st;
     trace := trace st ++ [Mutated (f (scanData st))] |}.

Definition logEvent (ev : TraceEvent) (st : Crawl) : Crawl :=
  {| scanData := scanData st;
     this_pagesProcessed := this_pagesProcessed st;
     visitedUrls := visitedUrls st;
     trace := trace st ++ [ev] |}.

Definition pageRecord (url : string) (pageData : PageData) : PageRecord :=
  {| pr_url := url;
     pr_title := title pageData;
     pr_metaDescription := metaDescription pageData;
     pr_headings := headings pageData;
     pr_images :=
       map (fun img => {| si_src := src img;
                          si_currentAlt := currentAlt img;
                          si_recommendedAlt := generateAltText (src img) pageData |})
           (images pageData);
     pr_wordCount := wordCount pageData;
     pr_hasContent := hasContent pageData;
     pr_internalLinks := internalLinks pageData;
     pr_recommendations := generateRecommendations pageData |}.

Definition pushPage (p : PageRecord) (sd : ScanData) : ScanData :=
  {| pages := pages sd ++ [p]; totalPages := totalPages sd;
     pagesProcessed := pagesProcessed sd; pagesSkipped := pagesSkipped sd;
     errors := errors sd; completedAt := completedAt sd |}.

Definition setPagesProcessed (n : nat) (sd : ScanData) : ScanData :=
  {| pages := pages sd; totalPages := totalPages sd;
     pagesProcessed := n; pagesSkipped := pagesSkipped sd;
     errors := errors sd; completedAt := completedAt sd |}.

Definition pushError (e : ErrorEntry) (sd : ScanData) : ScanData :=
  {| pages := pages sd; totalPages := totalPages sd;
     pagesProcessed := pagesProcessed sd; pagesSkipped := pagesSkipped sd;
     errors := errors sd ++ [e]; completedAt := completedAt sd |}.

Definition incrPagesSkipped (sd : ScanData) : ScanData :=
  {| pages := pages sd; totalPages := totalPages sd;
     pagesProcessed := pagesProcessed sd; pagesSkipped := pagesSkipped sd + 1;
     errors := errors sd; completedAt := completedAt sd |}.

(** [this.pagesProcessed++] *)
Definition incrCounter (st : Crawl) : Crawl :=
  {| scanData := scanData st;
     this_pagesProcessed := this_pagesProcessed st + 1;
     visitedUrls := visitedUrls st;
     trace := trace st |}.

(** The progress update of every third page.  [updateSession] catches its
    own failures and changes nothing of the crawl. *)
Definition flushProgress (st : Crawl) : Crawl :=
  if this_pagesProcessed st mod 3 =? 0 then logEvent (Flushed (scanData st)) st
  else st.

(** From [scanData.pages.push] to the progress update. *)
Definition recordPage (url : string) (pageData : PageData) (st : Crawl) : Crawl :=
  let st := mutate (pushPage (pageRecord url pageData)) st in
  let st := incrCounter st in
  let st := mutate (setPagesProcessed (this_pagesProcessed st)) st in
  flushProgress st.

(** The [catch] block. *)
Definition recordError (url : string) (e : Thrown) (st : Crawl) : Crawl :=
  let st := mutate (pushError {| err_url := url; err_reason := messageOf e |}) st in
  mutate incrPagesSkipped st.

(** The [for] loop over the links, [visit] being the recursive call.  A
    call that throws ends the loop. *)
Fixpoint scanLinks (visit : string -> Crawl -> option (Completion * Crawl))
    (parent : string) (depth : nat) (links : list string) (st : Crawl)
    : option (Completion * Crawl) :=
  match links with
  | [] => Some (Returned, st)
  | link :: rest =>
      if this_pagesProcessed st <? maxPages then
        match visit link (logEvent (Expanded parent depth link (depth + 1)) st) with
        | Some (Returned, st') => scanLinks visit parent depth rest st'
        | Some (Threw e, st') => Some (Threw e, st')
        | None => None
        end
      else scanLinks visit parent depth rest st
  end.

(** [scanPage], with [fuel] bounding the nesting of the recursive calls;
    [None] stands for fuel that ran out. *)
Fixpoint scanPage (fuel : nat) (browser : Browser) (url : string) (depth : nat)
    (st : Crawl) : option (Completion * Crawl) :=
  match fuel with
  | O => None
  | S fuel' =>
      if has url (visitedUrls st) || (3 <? depth)
         || (maxPages <=? this_pagesProcessed st)
      then Some (Returned, st)
      else
        let opened := length (visitedUrls st) in
        let st := addVisited url st in
        match browser opened url with
        | NewPageThrows e => Some (Threw e, st)
        | VisitThrows e closing =>
            let st := recordError url e st in
            match closing with
            | Returned => Some (Returned, st)
            | Threw e' => Some (Threw e', st)
            end
        | VisitOk pageData closing =>
            let st := recordPage url pageData st in
            let tried :=
              if (depth <? 2) && (0 <? length (internalLinks pageData)) then
                scanLinks (fun link st => scanPage fuel' browser link (depth + 1) st)
                          url depth (firstn 5 (internalLinks pageData)) st
              else Some (Returned, st) in
            match tried with
            | None => None
            | Some (completion, st) =>
                let st :=
                  match completion with
                  | Returned => st
                  | Threw e => recordError url e st
                  end in
                match closing with
                | Returned => Some (Returned, st)
                | Threw e' => Some (Threw e', st)
                end
            end
        end
  end.

(** ** LightweightScraper: one scan *)

Definition emptyScanData : ScanData :=
  {| pages := []; totalPages := 0; pagesProcessed := 0; pagesSkipped := 0;
     errors := []; completedAt := None |}.

(** The fresh aggregate, the counter reset to 0 and [new Set()]. *)
Definition freshCrawl : Crawl :=
  {| scanData := emptyScanData; this_pagesProcessed := 0;
     visitedUrls := []; trace := [] |}.

(** Three nested calls are all a crawl can make: links are followed only
    from depth 0 and depth 1. *)
Definition crawlFuel : nat := 3.

(** [await this.scanPage(url, 0, scanData, sessionId, new Set())] *)
Definition crawl (browser : Browser) (url : string) : option (Completion * Crawl) :=
  scanPage crawlFuel browser url 0 freshCrawl.

(** What [scanWebsite] hands to its last [updateSession] for the session. *)
Inductive SessionRecord :=
  | SessionCompleted (scan_data : ScanData)
  | SessionFailed (error : string) (scan_data : ScanData).

Record Puppeteer := mkPuppeteer {
  launch : Completion;          (* [puppeteer.launch] *)
  browser : Browser;
  browserClose : Completion;    (* [this.browser.close()] of the [finally] block *)
  isoNow : string               (* [new Date().toISOString()] at the end *)
}.

Definition finalize (now : string) (sd : ScanData) : ScanData :=
  {| pages := pages sd;
     totalPages := length (pages sd) + pagesSkipped sd;
     pagesProcessed := pagesProcessed sd;
     pagesSkipped := pagesSkipped sd;
     errors := errors sd;
     completedAt := Some now |}.

(** The [finally] block: when [this.browser] holds a browser it is closed,
    and set to [null] only if closing did not throw. *)
Definition finallyClose (env : Puppeteer) (held : bool) : Completion * bool :=
  if held then
    match browserClose env with
    | Returned => (Returned, false)
    | Threw e => (Threw e, true)
    end
  else (Returned, false).

(** [scanWebsite]: the session record it leaves, how the call ends, and
    whether [this.browser] holds a browser afterwards; [held] says whether it
    did before, which it does after a scan whose [browser.close()] threw. *)
Definition scanWebsite (env : Puppeteer) (held : bool) (url : string)
    : option (SessionRecord * (Completion * bool)) :=
  match launch env with
  | Threw e => Some (SessionFailed (messageOf e) emptyScanData, finallyClose env held)
  | Returned =>
      match crawl (browser env) url with
      | None => None
      | Some (Returned, st) =>
          Some (SessionCompleted (finalize (isoNow env) (scanData st)),
                finallyClose env true)
      | Some (Threw e, st) =>
          Some (SessionFailed (messageOf e) emptyScanData, finallyClose env true)
      end
  end.

End LightweightScraper.

(** ** InMemoryQueue

    The queue is a [Map] from job id to a job object, the objects being
    mutated in place by [processQueue] while the map, the timers and the
    callers hold references to them.  The model keeps the objects in a heap
    (a list, a reference being an index), the map as the list of its entries
    in insertion order, and every suspended [processQueue] call as a
    coroutine parked at one of its two [await]s.  JavaScript runs each piece
    of code between two [await]s without interruption, so one event of the
    model is one such piece. *)

Module InMemoryQueue.
Import Js.

Inductive Status := pending | processing | completed | failed.

Definition Status_eqb (a b : Status) : bool :=
  match a, b with
  | pending, pending | processing, processing
  | completed, completed | failed, failed => true
  | _, _ => false
  end.

Record ScanJob := mkScanJob {
  sessionId : string;
  url : string
}.

Record QueueJob := mkQueueJob {
  id : string;
  data : ScanJob;
  status : Status;
  createdAt : Z;       (* [createdAt.getTime()] *)
  attempts : nat
}.

(** Where a suspended call of [processQueue] waits, and for which job. *)
Inductive Coroutine :=
  | AwaitingExecute (job : nat)   (* [await this.executeJob(job)] *)
  | AwaitingDelay (job : nat).    (* [await this.delay(5000)] *)

Record State := mkState {
  heap : list QueueJob;              (* the job objects *)
  queue : list (string * nat);       (* [this.queue]: key, reference *)
  this_processing : bool;            (* [this.processing] *)
  coroutines : list Coroutine;       (* the suspended [processQueue] calls *)
  timers : list nat                  (* jobs captured by pending [setTimeout]s *)
}.

Definition initial : State :=
  {| heap := []; queue := []; this_processing := false;
     coroutines := []; timers := [] |}.

(** *** The [Map] *)

(** [map.set(key, ref)]: a present key keeps its place. *)
Fixpoint mapSet (key : string) (ref : nat) (m : list (string * nat)) : list (string * nat) :=
  match m with
  | [] => [(key, ref)]
  | (k, r) :: rest =>
      if String.eqb k key then (k, ref) :: rest
      else (k, r) :: mapSet key ref rest
  end.

(** [map.delete(key)] *)
Definition mapDelete (key : string) (m : list (string * nat)) : list (string * nat) :=
  List.filter (fun entry => negb (String.eqb (fst entry) key)) m.

(** [map.get(key)] *)
Definition mapGet (key : string) (m : list (string * nat)) : option nat :=
  snd <$> List.find (fun entry => String.eqb (fst entry) key) m.

(** The references of [this.queue.values()], in insertion order. *)
Definition refs (q : State) : list nat := map snd (queue q).

(** [Array.from(this.queue.values())] *)
Definition values (q : State) : list QueueJob :=
  omap (fun ref => heap q !! ref) (refs q).

(** *** Mutations of one job object *)

Definition setStatus (s : Status) (j : QueueJob) : QueueJob :=
  {| id := id j; data := data j; status := s;
     createdAt := createdAt j; attempts := attempts j |}.

Definition incrAttempts (j : QueueJob) : QueueJob :=
  {| id := id j; data := data j; status := status j;
     createdAt := createdAt j; attempts := attempts j + 1 |}.

Definition withHeap (h : list QueueJob) (q : State) : State :=
  {| heap := h; queue := queue q; this_processing := this_processing q;
     coroutines := coroutines q; timers := timers q |}.

Definition withQueue (m : list (string * nat)) (q : State) : State :=
  {| heap := heap q; queue := m; this_processing := this_processing q;
     coroutines := coroutines q; timers := timers q |}.

Definition withProcessing (b : bool) (q : State) : State :=
  {| heap := heap q; queue := queue q; this_processing := b;
     coroutines := coroutines q; timers := timers q |}.

Definition withCoroutines (cs : list Coroutine) (q : State) : State :=
  {| heap := heap q; queue := queue q; this_processing := this_processing q;
     coroutines := cs; timers := timers q |}.

Definition withTimers (ts : list nat) (q : State) : State :=
  {| heap := heap q; queue := queue q; this_processing := this_processing q;
     coroutines := coroutines q; timers := ts |}.

(** [job.f = ...] on the object behind [ref]. *)
Definition mutateJob (f : QueueJob -> QueueJob) (ref : nat) (q : State) : State :=
  withHeap (alter f ref (heap q)) q.

(** [setTimeout(() => this.queue.delete(job.id), 60 * 60 * 1000)] *)
Definition setCleanupTimer (ref : nat) (q : State) : State :=
  withTimers (timers q ++ [ref]) q.

(** *** [getJobStatus] and [getQueueStats] *)

Definition getJobStatus (jobId : string) (q : State) : option QueueJob :=
  mapGet jobId (queue q) ≫= fun ref => heap q !! ref.

Record QueueStats := mkQueueStats {
  stat_total : nat;
  stat_pending : nat;
  stat_processing : nat;
  stat_completed : nat;
  stat_failed : nat
}.

Definition countStatus (s : Status) (jobs : list QueueJob) : nat :=
  length (List.filter (fun job => Status_eqb (status job) s) jobs).

Definition getQueueStats (q : State) : QueueStats :=
  let jobs := values q in
  {| stat_total := length jobs;
     stat_pending := countStatus pending jobs;
     stat_processing := countStatus processing jobs;
     stat_completed := countStatus completed jobs;
     stat_failed := countStatus failed jobs |}.

(** *** [processQueue] *)

(** [Array.prototype.sort(compareFn)]: the stable sort, an element going
    before the first one it does not compare greater than. *)
Fixpoint sortInsert {A} (compareFn : A -> A -> Z) (x : A) (l : list A) : list A :=
  match l with
  | [] => [x]
  | y :: rest =>
      if (compareFn x y <=? 0)%Z then x :: y :: rest
      else y :: sortInsert compareFn x rest
  end.

Fixpoint sort {A} (compareFn : A -> A -> Z) (l : list A) : list A :=
  match l with
  | [] => []
  | x :: rest => sortInsert compareFn x (sort compareFn rest)
  end.

Definition statusOf (h : list QueueJob) (ref : nat) : option Status :=
  status <$> h !! ref.

Definition isPending (h : list QueueJob) (ref : nat) : bool :=
  match h !! ref with
  | Some job => Status_eqb (status job) pending
  | None => false
  end.

Definition createdAtOf (h : list QueueJob) (ref : nat) : Z :=
  match h !! ref with
  | Some job => createdAt job
  | None => 0%Z
  end.

(** [(a, b) => a.createdAt.getTime() - b.createdAt.getTime()] *)
Definition byCreatedAt (h : list QueueJob) (a b : nat) : Z :=
  (createdAtOf h a - createdAtOf h b)%Z.

(** The [pendingJobs] array, as references. *)
Definition pendingJobs (q : State) : list nat :=
  sort (byCreatedAt (heap q)) (List.filter (isPending (heap q)) (refs q)).

(** One pass of a [processQueue] call from the head of its [while] loop to
    where it stops: at [await this.executeJob(job)], or at its end. *)
Definition whileLoop (q : State) : State * option Coroutine :=
  if 0 <? length (queue q) then
    match pendingJobs q with
    | [] => (withProcessing false q, None)
    | job :: _ => (mutateJob (setStatus processing) job q, Some (AwaitingExecute job))
    end
  else (withProcessing false q, None).

(** After [await this.executeJob(job)]: the rest of the [try] block or the
    [catch] block, then on to the next [await] or the end. *)
Definition afterExecute (job : nat) (outcome : Completion) (q : State)
    : State * option Coroutine :=
  match outcome with
  | Returned =>
      let q := mutateJob (setStatus completed) job q in
      let q := setCleanupTimer job q in
      whileLoop q
  | Threw _ =>
      let q := mutateJob incrAttempts job q in
      if (match heap q !! job with Some j => attempts j <? 3 | None => false end) then
        let q := mutateJob (setStatus pending) job q in
        (q, Some (AwaitingDelay job))
      else
        let q := mutateJob (setStatus failed) job q in
        let q := setCleanupTimer job q in
        whileLoop q
  end.

(** A fresh call [this.processQueue()]: it runs to its first [await]. *)
Definition processQueue (q : State) : State :=
  match whileLoop (withProcessing true q) with
  | (q, Some c) => withCoroutines (coroutines q ++ [c]) q
  | (q, None) => q
  end.

(** The [k]-th suspended call, after it ran to its next stop. *)
Definition park (k : nat) (r : State * option Coroutine) : State :=
  match r with
  | (q, Some c) => withCoroutines (<[k := c]> (coroutines q)) q
  | (q, None) => withCoroutines (delete k (coroutines q)) q
  end.

(** *** [add] and [cleanup] *)

(** [add(jobData)], [crypto.randomUUID()] giving [jobId] and [new Date()]
    the time [now]. *)
Definition add (jobData : ScanJob) (jobId : string) (now : Z) (q : State) : string * State :=
  let ref := length (heap q) in
  let job := {| id := jobId; data := jobData; status := pending;
                createdAt := now; attempts := 0 |} in
  let q := withQueue (mapSet jobId ref (queue q)) (withHeap (heap q ++ [job]) q) in
  let q := if negb (this_processing q) then processQueue q else q in
  (jobId, q).

Definition isTerminal (s : Status) : bool :=
  Status_eqb s completed || Status_eqb s failed.

(** [cleanup()], [Date.now()] giving [now]. *)
Definition cleanup (now : Z) (q : State) : State :=
  let oneHourAgo := (now - 60 * 60 * 1000)%Z in
  fold_left
    (fun q entry =>
       match heap q !! snd entry with
       | Some job =>
           if isTerminal (status job) && (createdAt job <? oneHourAgo)%Z
           then withQueue (mapDelete (fst entry) (queue q)) q
           else q
       | None => q
       end)
    (queue q) q.

(** *** Events *)

Inductive Event :=
  | Add (jobData : ScanJob) (jobId : string) (now : Z)
      (* a call of [add] *)
  | ExecuteSettled (k : nat) (outcome : Completion)
      (* the [executeJob] promise awaited by the [k]-th coroutine settles *)
  | DelayElapsed (k : nat)
      (* the 5 s delay awaited by the [k]-th coroutine is over *)
  | TimerFired (n : nat)
      (* the [n]-th pending one-hour timer fires *)
  | Cleanup (now : Z).
      (* a call of [cleanup] *)

Definition step (q : State) (ev : Event) : State :=
  match ev with
  | Add jobData jobId now => snd (add jobData jobId now q)
  | ExecuteSettled k outcome =>
      match coroutines q !! k with
      | Some (AwaitingExecute job) => park k (afterExecute job outcome q)
      | _ => q
      end
  | DelayElapsed k =>
      match coroutines q !! k with
      | Some (AwaitingDelay job) => park k (whileLoop q)
      | _ => q
      end
  | TimerFired n =>
      match timers q !! n with
      | Some ref =>
          let q := withTimers (delete n (timers q)) q in
          match heap q !! ref with
          | Some job => withQueue (mapDelete (id job) (queue q)) q
          | None => q
          end
      | None => q
      end
  | Cleanup now => cleanup now q
  end.

(** The queue after a history of events, from [new InMemoryQueue()]. *)
Definition run (events : list Event) : State := fold_left step events initial.

End InMemoryQueue.


(** ** The queue's worker

    [executeJob] hands the job to the scraper; what settles the promise a
    [processQueue] call awaits is how [scanWebsite] ends. *)

Module Worker.
Import Js LightweightScraper InMemoryQueue.

(** [executeJob(job)], [held] saying whether the scraper's [this.browser]
    still holds a browser from an earlier job. *)
Definition executeJob (env : Puppeteer) (held : bool) (job : QueueJob)
    : option (SessionRecord * (Completion * bool)) :=
  scanWebsite env held (url (data job)).

End Worker.

(** ** The server

    The status endpoint, which reads back the aggregate the scraper stored,
    and the in-memory rate limiter of the earlier server ([unnamed/part_000];
    [backend/src/server.ts] has a library do this). *)

Module Server.
Import Js LightweightScraper.
Local Open Scope list_scope.

(** [a || b] on numbers: [0] is falsy. *)
Definition orNum (a b : nat) : nat := if a =? 0 then b else a.

Record ScanStatusResponse := mkScanStatusResponse {
  resp_pagesProcessed : nat;
  resp_totalPages : nat;
  resp_errors : nat
}.

(** The counts in the response of [GET /api/scan/:id/status] for the stored
    [scan_data], [None] being a session that has none yet. *)
Definition statusResponse (scan_data : option ScanData) : ScanStatusResponse :=
  match scan_data with
  | Some scanData =>
      {| resp_pagesProcessed := orNum (pagesProcessed scanData) 0;
         resp_totalPages := orNum (totalPages scanData) (orNum (pagesProcessed scanData) 0);
         resp_errors := orNum (length (errors scanData)) 0 |}
  | None =>
      {| resp_pagesProcessed := 0; resp_totalPages := 0; resp_errors := 0 |}
  end.

(** *** The rate limiter *)

(** What [parseInt] gives for the two settings: an integer, or [None] for
    [NaN]. *)
Record Limits := mkLimits {
  windowMs : option Z;
  maxRequests : option Z
}.

(** [a < b] and [a >= b] with a [b] that may be [NaN]. *)
Definition ltNum (a : Z) (b : option Z) : bool :=
  match b with
  | Some b => (a <? b)%Z
  | None => false
  end.

Definition geNum (a : Z) (b : option Z) : bool :=
  match b with
  | Some b => (b <=? a)%Z
  | None => false
  end.

(** [requestCounts]: the entries of the [Map], by address. *)
Definition RequestCounts := list (string * list Z).

(** [requestCounts.get(ip) || []] *)
Fixpoint getRequests (ip : string) (requestCounts : RequestCounts) : list Z :=
  match requestCounts with
  | [] => []
  | (k, requests) :: rest =>
      if String.eqb k ip then requests else getRequests ip rest
  end.

(** [requestCounts.set(ip, requests)] *)
Fixpoint setRequests (ip : string) (requests : list Z) (requestCounts : RequestCounts)
    : RequestCounts :=
  match requestCounts with
  | [] => [(ip, requests)]
  | (k, old) :: rest =>
      if String.eqb k ip then (k, requests) :: rest
      else (k, old) :: setRequests ip requests rest
  end.

(** [rateLimiter] for a request of [ip] at [Date.now() = now]: whether
    [next()] is called (otherwise the response is 429), and the map
    afterwards. *)
Definition rateLimiter (limits : Limits) (ip : string) (now : Z)
    (requestCounts : RequestCounts) : bool * RequestCounts :=
  let requests := getRequests ip requestCounts in
  let recentRequests :=
    List.filter (fun time => ltNum (now - time) (windowMs limits)) requests in
  if geNum (Z.of_nat (length recentRequests)) (maxRequests limits) then
    (false, requestCounts)
  else
    (true, setRequests ip (recentRequests ++ [now]) requestCounts).

(** The requests of a history that were let through, and the map after
    it. *)
Fixpoint serve (limits : Limits) (reqs : list (string * Z)) (requestCounts : RequestCounts)
    : list (string * Z) * RequestCounts :=
  match reqs with
  | [] => ([], requestCounts)
  | (ip, now) :: rest =>
      let (passed, requestCounts) := rateLimiter limits ip now requestCounts in
      let (admitted, requestCounts) := serve limits rest requestCounts in
      ((if passed then [(ip, now)] else []) ++ admitted, requestCounts)
  end.

End Server.

(** * The rules of the specification, in its own words *)

Module Spec.
Import Js LightweightScraper.

(** A text is out of its window when it is absent or its length is not in
    [[lo, hi]]. *)
Definition outOfWindow (lo hi : nat) (text : string) : bool :=
  String.eqb text "" || negb ((lo <=? String.length text) && (String.length text <=? hi)).

Definition missingAlt (img : Image) : bool := String.eqb (currentAlt img) "".

(** The score of the priority rule: the weighted defects, added up. *)
Definition score (p : PageData) : nat :=
  (if outOfWindow 30 60 (title p) then 2 else 0)
  + (if outOfWindow 120 160 (metaDescription p) then 2 else 0)
  + (if hasContent p then 0 else 3)
  + (match h1 (headings p) with [] => 1 | _ :: _ => 0 end)
  + Nat.min (length (List.filter missingAlt (images p))) 2.

Definition priorityOfScore (n : nat) : Priority :=
  if 5 <=? n then high else if 2 <=? n then medium else low.

Definition brandSuffix : string := " | Your Brand".
Definition genericTitle : string := "Untitled Page | Your Brand".
Definition ellipsis : string := "...".

(** The title rule as the specification words it: a short title is
    replaced by the first H1 cut to 50 characters with the brand suffix. *)
Definition optimizedTitle (p : PageData) : string :=
  let n := String.length (title p) in
  if (30 <=? n) && (n <=? 60) then title p
  else if n <? 30 then
    match h1 (headings p) with
    | first :: _ => slice0 50 first ++ brandSuffix
    | [] => genericTitle
    end
  else slice0 57 (title p) ++ ellipsis.

(** The title rule the code follows: an H1 of at most 50 characters gets
    the brand suffix; a longer one is cut to 50 characters and gets the
    ellipsis, not the suffix; an empty first H1 counts as none. *)
Definition optimizedTitleAmended (p : PageData) : string :=
  let n := String.length (title p) in
  if (30 <=? n) && (n <=? 60) then title p
  else if n <? 30 then
    match h1 (headings p) with
    | first :: _ =>
        if String.eqb first "" then genericTitle
        else if String.length first <=? 50 then first ++ brandSuffix
        else slice0 50 first ++ ellipsis
    | [] => genericTitle
    end
  else slice0 57 (title p) ++ ellipsis.

End Spec.

(** * The crawler: predicates of its properties *)

Module CrawlSpec.
Import Js LightweightScraper.
Local Open Scope list_scope.

(** The records of an aggregate: its pages and its errors. *)
Definition records (sd : ScanData) : nat := length (pages sd) + length (errors sd).

(** An aggregate within [limit]: by its records and by its counters. *)
Definition Within (limit : nat) (sd : ScanData) : Prop :=
  length (pages sd) + length (errors sd) <= limit
  /\ pagesProcessed sd + pagesSkipped sd <= limit.

(** Every aggregate a trace has seen is within [limit]. *)
Definition TraceWithin (limit : nat) (tr : list TraceEvent) : Prop :=
  Forall (fun ev => match ev with
                    | Mutated sd | Flushed sd => Within limit sd
                    | Expanded _ _ _ _ => True
                    end) tr.

(** The distinct URLs of a list. *)
Definition distinct (urls : list string) : nat := length (nodup string_dec urls).

(** The calls [scanPage(link, ...)] a trace has seen made from [parent]. *)
Definition expansionsOf (parent : string) (tr : list TraceEvent) : nat :=
  length (List.filter (fun ev => match ev with
                                 | Expanded p _ _ _ => String.eqb p parent
                                 | _ => false
                                 end) tr).

(** The guard of [scanPage]: already visited, too deep, or at the page
    limit. *)
Definition skips (url : string) (depth : nat) (st : Crawl) : bool :=
  has url (visitedUrls st) || (3 <? depth) || (maxPages <=? this_pagesProcessed st).

(** The guard of the loop over the links. *)
Definition expands (depth : nat) (pageData : PageData) : bool :=
  (depth <? 2) && (0 <? length (internalLinks pageData)).

(** One call of [scanPage] that does not run out of fuel, by the path it
    takes; [visit] is the recursive call its loop makes. *)
Inductive Frame (visit : string -> Crawl -> option (Completion * Crawl))
    (browser : Browser) (url : string) (depth : nat) (st : Crawl)
    : Completion -> Crawl -> Prop :=
  | frame_skip :
      skips url depth st = true ->
      Frame visit browser url depth st Returned st
  | frame_newPage e :
      skips url depth st = false ->
      browser (length (visitedUrls st)) url = NewPageThrows e ->
      Frame visit browser url depth st (Threw e) (addVisited url st)
  | frame_throws e closing :
      skips url depth st = false ->
      browser (length (visitedUrls st)) url = VisitThrows e closing ->
      Frame visit browser url depth st closing (recordError url e (addVisited url st))
  | frame_leaf pageData closing :
      skips url depth st = false ->
      browser (length (visitedUrls st)) url = VisitOk pageData closing ->
      expands depth pageData = false ->
      Frame visit browser url depth st closing
            (recordPage url pageData (addVisited url st))
  | frame_links pageData closing st' :
      skips url depth st = false ->
      browser (length (visitedUrls st)) url = VisitOk pageData closing ->
      expands depth pageData = true ->
      scanLinks visit url depth (firstn 5 (internalLinks pageData))
                (recordPage url pageData (addVisited url st)) = Some (Returned, st') ->
      Frame visit browser url depth st closing st'
  | frame_links_threw pageData closing e st' :
      skips url depth st = false ->
      browser (length (visitedUrls st)) url = VisitOk pageData closing ->
      expands depth pageData = true ->
      scanLinks visit url depth (firstn 5 (internalLinks pageData))
                (recordPage url pageData (addVisited url st)) = Some (Threw e, st') ->
      Frame visit browser url depth st closing (recordError url e st').

(** The counters of a crawl agree with its aggregate, as they do between
    two calls of [scanPage]. *)
Definition Sync (st : Crawl) : Prop :=
  this_pagesProcessed st = length (pages (scanData st))
  /\ pagesProcessed (scanData st) = length (pages (scanData st))
  /\ pagesSkipped (scanData st) = length (errors (scanData st)).

(** From [st] to [st'] the aggregate gained at most [n] records, and every
    aggregate seen on the way was within that. *)
Definition Grew (n : nat) (st st' : Crawl) : Prop :=
  Sync st'
  /\ records (scanData st) <= records (scanData st')
  /\ records (scanData st') <= records (scanData st) + n
  /\ exists new, trace st' = trace st ++ new
                 /\ TraceWithin (records (scanData st) + n) new.

(** The records one call of [scanPage] at [depth] can add: itself, and
    from depth 0 and 1 up to five calls one level down and the error a
    throwing one of them leaves. *)
Definition growth (depth : nat) : nat :=
  match depth with
  | 0 => 37
  | 1 => 7
  | _ => 1
  end.

(** The traversal in the words of the specification: the visit of [url]
    at [depth], from the state [st] to how it ends.  A page that is skipped,
    whose tab does not open or whose visit throws enqueues nothing.  A page
    that renders, in the tab opened for it, enqueues the first five of its
    internal links if [depth] is below 2 and it has any, and nothing
    otherwise.

    A page visited at [depth] enqueues links one call after the other: each
    call is a visit of the link at [depth + 1], logged as it is made; a link
    reached at the page limit is passed over; a call that throws ends the
    loop. *)
Inductive Visits (browser : Browser)
    : string -> nat -> Crawl -> Completion -> Crawl -> Prop :=
  | visits_skip url depth st :
      skips url depth st = true ->
      Visits browser url depth st Returned st
  | visits_newPage url depth st e :
      skips url depth st = false ->
      browser (length (visitedUrls st)) url = NewPageThrows e ->
      Visits browser url depth st (Threw e) (addVisited url st)
  | visits_throws url depth st e closing :
      skips url depth st = false ->
      browser (length (visitedUrls st)) url = VisitThrows e closing ->
      Visits browser url depth st closing (recordError url e (addVisited url st))
  | visits_leaf url depth st pageData closing :
      skips url depth st = false ->
      browser (length (visitedUrls st)) url = VisitOk pageData closing ->
      2 <= depth \/ internalLinks pageData = [] ->
      Visits browser url depth st closing (recordPage url pageData (addVisited url st))
  | visits_links url depth st pageData closing st' :
      skips url depth st = false ->
      browser (length (visitedUrls st)) url = VisitOk pageData closing ->
      depth < 2 ->
      internalLinks pageData <> [] ->
      Enqueues browser url depth (firstn 5 (internalLinks pageData))
               (recordPage url pageData (addVisited url st)) Returned st' ->
      Visits browser url depth st closing st'
  | visits_links_threw url depth st pageData closing e st' :
      skips url depth st = false ->
      browser (length (visitedUrls st)) url = VisitOk pageData closing ->
      depth < 2 ->
      internalLinks pageData <> [] ->
      Enqueues browser url depth (firstn 5 (internalLinks pageData))
               (recordPage url pageData (addVisited url st)) (Threw e) st' ->
      Visits browser url depth st closing (recordError url e st')
with Enqueues (browser : Browser)
    : string -> nat -> list string -> Crawl -> Completion -> Crawl -> Prop :=
  | enqueues_none parent depth st :
      Enqueues browser parent depth [] st Returned st
  | enqueues_full parent depth link rest st out st' :
      maxPages <= this_pagesProcessed st ->
      Enqueues browser parent depth rest st out st' ->
      Enqueues browser parent depth (link :: rest) st out st'
  | enqueues_visit parent depth link rest st st1 out st' :
      this_pagesProcessed st < maxPages ->
      Visits browser link (depth + 1)
             (logEvent (Expanded parent depth link (depth + 1)) st) Returned st1 ->
      Enqueues browser parent depth rest st1 out st' ->
      Enqueues browser parent depth (link :: rest) st out st'
  | enqueues_threw parent depth link rest st e st1 :
      this_pagesProcessed st < maxPages ->
      Visits browser link (depth + 1)
             (logEvent (Expanded parent depth link (depth + 1)) st) (Threw e) st1 ->
      Enqueues browser parent depth (link :: rest) st (Threw e) st1.

Definition isExpanded (ev : TraceEvent) : bool :=
  match ev with
  | Expanded _ _ _ _ => true
  | _ => false
  end.

(** What the calls logged from [st] to [st'] in [new] are to the page [p]:
    at most five, none if [p] had been visited before, and if any then [p]
    is visited by the end. *)
Definition FanOut (p : string) (new : list TraceEvent) (st st' : Crawl) : Prop :=
  expansionsOf p new <= 5
  /\ (has p (visitedUrls st) = true -> expansionsOf p new = 0)
  /\ (0 < expansionsOf p new -> has p (visitedUrls st') = true).

Definition VisitedGrows (st st' : Crawl) : Prop :=
  forall u, has u (visitedUrls st) = true -> has u (visitedUrls st') = true.

(** From [st] to [st'], as one call of [scanPage] leaves it. *)
Definition Links (browser : Browser) (st st' : Crawl) : Prop :=
  exists new,
    trace st' = trace st ++ new
    /\ VisitedGrows st st'
    /\ forall p, FanOut p new st st'.

(** From [st] to [st'], as a part of the loop of the page [parent] leaves
    it after at most [n] calls. *)
Definition LinksFrom (browser : Browser) (parent : string) (n : nat)
    (st st' : Crawl) : Prop :=
  exists new,
    trace st' = trace st ++ new
    /\ VisitedGrows st st'
    /\ expansionsOf parent new <= n
    /\ forall p, p <> parent -> FanOut p new st st'.

(** An aggregate under the page ceiling, in the three ways of counting:
    its counters, the distinct URLs of its pages and errors, its records. *)
Definition UnderCeiling (sd : ScanData) : Prop :=
  pagesProcessed sd + pagesSkipped sd <= maxPages
  /\ distinct (map pr_url (pages sd)) + distinct (map err_url (errors sd)) <= maxPages
  /\ length (pages sd) + length (errors sd) <= maxPages.

(** Every aggregate a trace has seen, mutated or handed to the session
    store, is under the page ceiling. *)
Definition AlwaysUnderCeiling (tr : list TraceEvent) : Prop :=
  Forall (fun ev => match ev with
                    | Mutated sd | Flushed sd => UnderCeiling sd
                    | Expanded _ _ _ _ => True
                    end) tr.

(** The aggregate of a session record. *)
Definition scanDataOf (record : SessionRecord) : ScanData :=
  match record with
  | SessionCompleted sd => sd
  | SessionFailed _ sd => sd
  end.

(** No URL twice among the pages, none twice among the errors, and every
    URL with a record has been visited. *)
Definition Dedup (st : Crawl) : Prop :=
  NoDup (map pr_url (pages (scanData st)))
  /\ NoDup (map err_url (errors (scanData st)))
  /\ (forall u, In u (map pr_url (pages (scanData st))) -> has u (visitedUrls st) = true)
  /\ (forall u, In u (map err_url (errors (scanData st))) -> has u (visitedUrls st) = true).

(** From [st] to [st'] the records stay without duplicates, and the errors
    gained are for pages that had not been visited. *)
Definition StaysDedup (st st' : Crawl) : Prop :=
  Dedup st'
  /\ VisitedGrows st st'
  /\ (forall u, In u (map err_url (errors (scanData st'))) ->
                In u (map err_url (errors (scanData st))) \/ has u (visitedUrls st) = false).

(** Tabs open and close: the browser throws only inside the [try] block of
    a visit. *)
Definition TabsWork (browser : Browser) : Prop :=
  forall n url,
    match browser n url with
    | NewPageThrows _ => False
    | VisitThrows _ closing => closing = Returned
    | VisitOk _ closing => closing = Returned
    end.

(** No URL has two records in [pages] and [errors] together, and every URL
    with a record has been visited. *)
Definition OneRecord (st : Crawl) : Prop :=
  NoDup (map pr_url (pages (scanData st)) ++ map err_url (errors (scanData st)))
  /\ forall u, In u (map pr_url (pages (scanData st)) ++ map err_url (errors (scanData st))) ->
               has u (visitedUrls st) = true.

End CrawlSpec.

(** * The scheduler: predicates of its properties *)

Module QueueSpec.
Import Js InMemoryQueue.
Local Open Scope list_scope.

Section Sort.
Context {A : Type} (key : A -> Z).

Definition byKey (a b : A) : Z := (key a - key b)%Z.

(** [first] is the earliest of [l]: it is in [l], nothing before it has a
    key as small, nothing after it has a smaller key. *)
Definition Earliest (first : A) (l : list A) : Prop :=
  exists before after,
    l = before ++ first :: after
    /\ Forall (fun x => (key first < key x)%Z) before
    /\ Forall (fun x => (key first <= key x)%Z) after.

End Sort.

(** The job object behind [job] has status pending; of the job objects
    the map holds before it, in insertion order, those with status pending
    were created later, and of those it holds after it, those with status
    pending were not created earlier. *)
Definition EarliestPending (q : State) (job : nat) : Prop :=
  exists picked before after,
    heap q !! job = Some picked
    /\ status picked = pending
    /\ map snd (queue q) = before ++ job :: after
    /\ Forall (fun r => forall other,
                  heap q !! r = Some other -> status other = pending ->
                  (createdAt picked < createdAt other)%Z) before
    /\ Forall (fun r => forall other,
                  heap q !! r = Some other -> status other = pending ->
                  (createdAt picked <= createdAt other)%Z) after.

(** Retry bookkeeping of every job object. *)
Definition HeapOk (h : list QueueJob) : Prop :=
  forall r j, h !! r = Some j ->
    attempts j <= 3 /\ (status j = failed <-> attempts j = 3).

(** No job object is being processed. *)
Definition Quiet (h : list QueueJob) : Prop :=
  forall r j, h !! r = Some j -> status j <> processing.

(** The entries of the map hold distinct job objects of the heap. *)
Definition RefsOk (h : list QueueJob) (m : list (string * nat)) : Prop :=
  NoDup (map snd m) /\ forall r, r ∈ map snd m -> r < length h.

(** The invariant of the scheduler: at most one [processQueue] call is
    suspended, and [this.processing] is set exactly while one is; a job
    object is [processing] only while that call awaits [executeJob] for
    it. *)
Record Inv (q : State) : Prop := mkInv {
  inv_heap : HeapOk (heap q);
  inv_refs : RefsOk (heap q) (queue q);
  inv_flag : (coroutines q = [] /\ this_processing q = false)
             \/ (exists c, coroutines q = [c] /\ this_processing q = true);
  inv_processing : forall r j,
      heap q !! r = Some j -> status j = processing ->
      coroutines q = [AwaitingExecute r];
  inv_executing : forall r,
      coroutines q = [AwaitingExecute r] -> statusOf (heap q) r = Some processing
}.

(** Job objects stay, and their [attempts] do not decrease. *)
Definition Grows (h h' : list QueueJob) : Prop :=
  forall r j, h !! r = Some j ->
    exists j', h' !! r = Some j' /\ attempts j <= attempts j'.

End QueueSpec.


(** * Further predicates *)

(** ** Of the recommendation rules *)

Module TextSpec.
Import Js LightweightScraper.

(** The order of the priorities. *)
Definition rank (p : Priority) : nat :=
  match p with
  | low => 0
  | medium => 1
  | high => 2
  end.

(** The page with one more image. *)
Definition withImage (img : Image) (p : PageData) : PageData :=
  {| title := title p; metaDescription := metaDescription p;
     headings := headings p; images := img :: images p;
     wordCount := wordCount p; hasContent := hasContent p;
     internalLinks := internalLinks p |}.

(** A page whose text has none of the four defects of the priority rule. *)
Definition textInOrder (p : PageData) : bool :=
  (30 <=? String.length (title p)) && (String.length (title p) <=? 60)
  && (120 <=? String.length (metaDescription p))
  && (String.length (metaDescription p) <=? 160)
  && hasContent p
  && (0 <? length (h1 (headings p))).

End TextSpec.

(** ** Of the traversal *)

Module TraversalSpec.
Import Js LightweightScraper CrawlSpec.
Local Open Scope list_scope.

(** The aggregate only grows at its end: [pages] and [errors] of [st] are
    prefixes of those of [st']. *)
Definition Appends (st st' : Crawl) : Prop :=
  (exists ps, pages (scanData st') = pages (scanData st) ++ ps)
  /\ (exists es, errors (scanData st') = errors (scanData st) ++ es).

(** The tabs one call of [scanPage] at [depth] can open: its own, and from
    depth 0 and 1 those of up to five calls one level down. *)
Definition tabs (depth : nat) : nat :=
  match depth with
  | 0 => 31
  | 1 => 6
  | _ => 1
  end.

(** From [st] to [st'] at most [n] URLs were added to the visited set. *)
Definition Opened (n : nat) (st st' : Crawl) : Prop :=
  length (visitedUrls st') <= length (visitedUrls st) + n.

(** The visited set stays a set. *)
Definition KeepsSet (st st' : Crawl) : Prop :=
  NoDup (visitedUrls st) -> NoDup (visitedUrls st').

(** What the outcome of the seed's tab makes of a crawl. *)
Definition SeedOutcome (browser : Browser) (url : string) (out : Completion)
    (st : Crawl) : Prop :=
  match browser 0 url with
  | NewPageThrows e =>
      out = Threw e /\ pages (scanData st) = [] /\ errors (scanData st) = []
  | VisitThrows e closing =>
      out = closing /\ pages (scanData st) = []
      /\ errors (scanData st) = [{| err_url := url; err_reason := messageOf e |}]
  | VisitOk pageData closing =>
      out = closing
      /\ exists rest, pages (scanData st) = pageRecord url pageData :: rest
  end.

(** The aggregate of a crawl under way: counters in step, [totalPages] and
    [completedAt] not yet set. *)
Definition Underway (st : Crawl) : Prop :=
  Sync st
  /\ totalPages (scanData st) = 0
  /\ completedAt (scanData st) = None.

Definition isFlushed (ev : TraceEvent) : bool :=
  match ev with
  | Flushed _ => true
  | _ => false
  end.

(** A progress update in order: it hands over as many pages as were
    processed, a positive multiple of three, in an aggregate not yet
    finalized. *)
Definition FlushOk (ev : TraceEvent) : Prop :=
  match ev with
  | Flushed sd =>
      pagesProcessed sd = length (pages sd)
      /\ 0 < pagesProcessed sd
      /\ pagesProcessed sd mod 3 = 0
      /\ totalPages sd = 0
      /\ completedAt sd = None
  | _ => True
  end.

(** From [st] to [st'] the progress updates are in order and there is one
    for every third page processed. *)
Definition Progress (st st' : Crawl) : Prop :=
  Underway st ->
  Underway st'
  /\ exists new,
       trace st' = trace st ++ new
       /\ Forall FlushOk new
       /\ this_pagesProcessed st / 3 + length (List.filter isFlushed new)
          = this_pagesProcessed st' / 3.

End TraversalSpec.

(** ** Of the queue's bookkeeping *)

Module BookkeepingSpec.
Import Js InMemoryQueue.
Local Open Scope list_scope.

(** What [add] gives a job object and nothing changes afterwards. *)
Definition fields (job : QueueJob) : string * ScanJob * Z :=
  (id job, data job, createdAt job).

(** The calls of [add] in a history, as the fields of the jobs they made. *)
Definition added (events : list Event) : list (string * ScanJob * Z) :=
  omap (fun ev => match ev with
                  | Add jobData jobId now => Some (jobId, jobData, now)
                  | _ => None
                  end) events.

(** The map holds each key once, and under a key a job object of that
    id. *)
Definition KeysOk (q : State) : Prop :=
  NoDup (map fst (queue q))
  /\ forall key ref, (key, ref) ∈ queue q -> id <$> heap q !! ref = Some key.

(** No call of [processQueue] under way, no pending job in the map. *)
Definition NoneWaiting (q : State) : Prop :=
  this_processing q = false ->
  Forall (fun ref => isPending (heap q) ref = false) (refs q).

(** An entry to remove at [now]: its job is completed or failed, and was
    created more than an hour, 3 600 000 milliseconds, before. *)
Definition expired (now : Z) (h : list QueueJob) (entry : string * nat) : bool :=
  match h !! snd entry with
  | Some job =>
      match status job with
      | completed | failed => (createdAt job <? now - 3600000)%Z
      | pending | processing => false
      end
  | None => false
  end.

(** Job objects that are completed or failed are the same in [h']. *)
Definition Settled (h h' : list QueueJob) : Prop :=
  forall ref job, h !! ref = Some job -> isTerminal (status job) = true ->
                  h' !! ref = Some job.

End BookkeepingSpec.

(** ** Of the rate limiter *)

Module ServerSpec.
Import Js LightweightScraper Server.
Local Open Scope list_scope.

(** The clock does not run backwards: from [last] on, the times of the
    requests do not decrease. *)
Fixpoint chronological (last : Z) (reqs : list (string * Z)) : bool :=
  match reqs with
  | [] => true
  | (_, now) :: rest => (last <=? now)%Z && chronological now rest
  end.

(** The requests of [ip] among [admitted] that are less than [window]
    milliseconds before [now]. *)
Definition inWindow (window : Z) (ip : string) (now : Z) (admitted : list (string * Z))
    : list (string * Z) :=
  List.filter (fun r => String.eqb (fst r) ip && (now - snd r <? window)%Z) admitted.

(** The map agrees with the requests let through so far: from [last] on,
    what the filter keeps of the array of an address are the admitted
    requests of that address in the window. *)
Definition Agree (window : Z) (requestCounts : RequestCounts)
    (admitted : list (string * Z)) (last : Z) : Prop :=
  forall ip now, (last <= now)%Z ->
    List.filter (fun time => (now - time <? window)%Z) (getRequests ip requestCounts)
    = map snd (inWindow window ip now admitted).

End ServerSpec.

(** * Concrete inputs *)

Module Examples.
Import Js LightweightScraper InMemoryQueue.
Local Open Scope list_scope.

(** A page whose title is empty and whose only H1 has 51 characters. *)
Definition longHeadingPage : PageData :=
  {| title := "";
     metaDescription := "";
     headings := {| h1 := ["An introduction to search engine optimisation today"];
                    h2 := []; h3 := [] |};
     images := [];
     wordCount := 120;
     hasContent := true;
     internalLinks := [] |}.

Definition seedUrl : string := "https://shop.example/".

(** The home page of a small shop, with one internal link. *)
Definition homePage : PageData :=
  {| title := "Shop";
     metaDescription := "";
     headings := {| h1 := ["Welcome"%string]; h2 := []; h3 := [] |};
     images := [];
     wordCount := 80;
     hasContent := true;
     internalLinks := ["https://shop.example/about"%string] |}.

(** A browser that renders the seed and then cannot open another tab. *)
Definition crashingTabs : Browser :=
  fun _ url =>
    if String.eqb url seedUrl then VisitOk homePage Returned
    else NewPageThrows (ErrorObject "Protocol error (Target.createTarget): Target closed").

Definition crashingEnv : Puppeteer :=
  {| launch := Returned; browser := crashingTabs; browserClose := Returned;
     isoNow := "2024-05-01T12:00:00.000Z" |}.

(** A browser whose every navigation times out. *)
Definition navigationTimeout : Thrown :=
  ErrorObject "Navigation timeout of 30000 ms exceeded".

Definition timeoutBrowser : Browser :=
  fun _ _ => VisitThrows navigationTimeout Returned.

(** A browser that disconnects: navigation fails, and so does closing the
    tab afterwards. *)
Definition disconnected : Thrown :=
  ErrorObject "Navigation failed because browser has disconnected!".

Definition connectionClosed : Thrown :=
  ErrorObject "Protocol error: Connection closed. Most likely the page has been closed.".

Definition disconnectingBrowser : Browser :=
  fun _ _ => VisitThrows disconnected (Threw connectionClosed).

Definition disconnectingEnv : Puppeteer :=
  {| launch := Returned; browser := disconnectingBrowser; browserClose := Returned;
     isoNow := "2024-05-01T12:00:00.000Z" |}.

(** A site on which every page has six fresh links, and a browser that
    renders every page but fails to close the tab of each fifth link. *)
Definition sixLinks (url : string) : list string :=
  map (fun suffix => (url ++ suffix)%string)
      ["a"%string; "b"%string; "c"%string; "d"%string; "e"%string; "f"%string].

Definition isFifthLink (url : string) : bool :=
  match String.get (String.length url - 1) url with
  | Some c => Ascii.eqb c "e"
  | None => false
  end.

Definition fanOutPage (url : string) : PageData :=
  {| title := "Catalogue"; metaDescription := "";
     headings := {| h1 := []; h2 := []; h3 := [] |};
     images := []; wordCount := 0; hasContent := false;
     internalLinks := sixLinks url |}.

Definition fanOutBrowser : Browser :=
  fun _ url =>
    VisitOk (fanOutPage url) (if isFifthLink url then Threw OtherValue else Returned).

(** A job that fails three times, and what happens afterwards. *)
Definition shopScan : ScanJob := {| sessionId := "session-1"; url := seedUrl |}.

Definition retryHistory : list Event :=
  [ Add shopScan "job-1" 1000;
    ExecuteSettled 0 (Threw OtherValue); DelayElapsed 0;
    ExecuteSettled 0 (Threw OtherValue); DelayElapsed 0;
    ExecuteSettled 0 (Threw OtherValue) ].

Definition laterHistory : list Event :=
  [ Add shopScan "job-2" 2000; ExecuteSettled 0 Returned; Cleanup 9000000 ].

Definition failedJob : QueueJob :=
  {| id := "job-1"; data := shopScan; status := failed;
     createdAt := 1000; attempts := 3 |}.

(** A completed job, the first created and the first inserted, and three
    pending jobs, the last two created at the same instant. *)
Definition tiedQueue : State :=
  {| heap := [ {| id := "job-done"; data := shopScan; status := completed;
                  createdAt := 10; attempts := 0 |};
               {| id := "job-a"; data := shopScan; status := pending;
                  createdAt := 100; attempts := 1 |};
               {| id := "job-b"; data := shopScan; status := pending;
                  createdAt := 50; attempts := 0 |};
               {| id := "job-c"; data := shopScan; status := pending;
                  createdAt := 50; attempts := 0 |} ];
     queue := [("job-done"%string, 0); ("job-a"%string, 1);
               ("job-b"%string, 2); ("job-c"%string, 3)];
     this_processing := true;
     coroutines := [AwaitingDelay 1];
     timers := [0] |}.

End Examples.


(** ** Further inputs *)

Module MoreExamples.
Import Js LightweightScraper InMemoryQueue Server Examples.
Local Open Scope list_scope.

(** A page whose text is in order and two of whose three images have no
    alt text. *)
Definition tidyPage : PageData :=
  {| title := "Handmade ceramics and tableware from Lisbon";
     metaDescription := "Plates, bowls and cups thrown by hand in our Lisbon studio, glazed in small batches and shipped across Europe within a week.";
     headings := {| h1 := ["Handmade ceramics"%string]; h2 := []; h3 := [] |};
     images := [ {| src := "/img/plates.jpg"; currentAlt := "" |};
                 {| src := "/img/bowls.jpg"; currentAlt := "Stoneware bowls" |};
                 {| src := "/img/cups.jpg"; currentAlt := "" |} ];
     wordCount := 640;
     hasContent := true;
     internalLinks := [] |}.

(** A browser whose every navigation times out, closing without fault. *)
Definition timeoutEnv : Puppeteer :=
  {| launch := Returned; browser := timeoutBrowser; browserClose := Returned;
     isoNow := "2024-05-01T12:00:00.000Z" |}.

(** One job added to a new queue, the job object while it is executed, and
    the session record of a scan that lost its browser. *)
Definition firstAdd : list Event := [Add shopScan "job-1" 1000].

Definition startedJob : QueueJob :=
  {| id := "job-1"; data := shopScan; status := processing;
     createdAt := 1000; attempts := 0 |}.

Definition lostSession : SessionRecord :=
  SessionFailed "Protocol error: Connection closed. Most likely the page has been closed."
                emptyScanData.

(** Two requests a minute from each address; three requests of one address
    and one of another within three seconds. *)
Definition twoAMinute : Limits :=
  {| windowMs := Some 60000%Z; maxRequests := Some 2%Z |}.

Definition burst : list (string * Z) :=
  [ ("203.0.113.7"%string, 1714564800000%Z);
    ("203.0.113.7"%string, 1714564801000%Z);
    ("198.51.100.2"%string, 1714564802000%Z) ].

(** [RATE_LIMIT_MAX_REQUESTS=unlimited]: [parseInt] gives [NaN]. *)
Definition unparsedLimit : Limits :=
  {| windowMs := Some 60000%Z; maxRequests := None |}.

End MoreExamples.

(** Comparisons of [nat] that were decided, as propositions for [lia]. *)
Ltac nat_bools :=
  repeat match goal with
  | H : (_ <? _) = true |- _ => apply Nat.ltb_lt in H
  | H : (_ <? _) = false |- _ => apply Nat.ltb_ge in H
  | H : (_ <=? _) = true |- _ => apply Nat.leb_le in H
  | H : (_ <=? _) = false |- _ => apply Nat.leb_gt in H
  | H : (_ =? _) = true |- _ => apply Nat.eqb_eq in H
  | H : (_ =? _) = false |- _ => apply Nat.eqb_neq in H
  end.

(** * Properties of the recommendation rules *)

Module RecommendationProps.
Import Js LightweightScraper Examples.

Lemma truthy_eqb_empty (s : string) : truthy s = negb (String.eqb s "").
Proof. by destruct s. Qed.

Lemma truthy_length (s : string) : truthy s = (0 <? String.length s).
Proof. by destruct s. Qed.

Lemma issue_outOfWindow (lo hi : nat) (s : string) :
  negb (truthy s) || (String.length s <? lo) || (hi <? String.length s)
  = Spec.outOfWindow lo hi s.
Proof.
  unfold Spec.outOfWindow. rewrite truthy_eqb_empty, negb_involutive.
  destruct (String.eqb s ""); simpl; [done|].
  destruct (String.length s <? lo) eqn:E1, (hi <? String.length s) eqn:E2,
           (lo <=? String.length s) eqn:E3, (String.length s <=? hi) eqn:E4;
    simpl; try done; nat_bools; lia.
Qed.

Lemma filter_missingAlt (imgs : list Image) :
  List.filter (fun img => negb (truthy (currentAlt img))) imgs
  = List.filter Spec.missingAlt imgs.
Proof.
  apply List.filter_ext. intros img. unfold Spec.missingAlt.
  by rewrite truthy_eqb_empty, negb_involutive.
Qed.

(** C6.  For every page, [calculatePriority] is the priority of the
    accumulated score: +2 for a title absent or of length outside [30,60],
    +2 for a meta description absent or of length outside [120,160], +3
    without substantial content, +1 without an H1, +1 per image without alt
    text up to +2; [high] from 5, [medium] from 2, [low] below. *)
Theorem calculatePriority_score (p : PageData) :
  calculatePriority p = Spec.priorityOfScore (Spec.score p).
Proof.
  unfold calculatePriority, Spec.priorityOfScore, Spec.score.
  rewrite !issue_outOfWindow, filter_missingAlt.
  set (n := length (List.filter Spec.missingAlt (images p))).
  assert (Himg : forall s, (if 0 <? n then s + Nat.min n 2 else s) = s + Nat.min n 2).
  { intros s. destruct (Nat.ltb_spec 0 n); lia. }
  rewrite Himg.
  assert (Hh1 : forall s, (if length (h1 (headings p)) =? 0 then s + 1 else s)
                     = s + match h1 (headings p) with [] => 1 | _ :: _ => 0 end).
  { intros s. destruct (h1 (headings p)); simpl; lia. }
  rewrite Hh1.
  assert (Hc : forall s, (if negb (hasContent p) then s + 3 else s)
                    = s + (if hasContent p then 0 else 3)).
  { intros s. destruct (hasContent p); simpl; lia. }
  rewrite Hc.
  destruct (Spec.outOfWindow 30 60 (title p)),
           (Spec.outOfWindow 120 160 (metaDescription p)); reflexivity.
Qed.

(** C7, as stated, fails: for a short title and an H1 of 51 characters the
    code answers the first 50 characters of the H1 followed by the ellipsis,
    not followed by the brand suffix. *)
Lemma optimizedTitle_long_h1_no_brand :
  String.length "An introduction to search engine optimisation today" = 51
  /\ rec_title (generateRecommendations longHeadingPage)
     = "An introduction to search engine optimisation toda..."
  /\ Spec.optimizedTitle longHeadingPage
     = "An introduction to search engine optimisation toda | Your Brand"
  /\ rec_title (generateRecommendations longHeadingPage)
     <> Spec.optimizedTitle longHeadingPage.
Proof. repeat split; try reflexivity. discriminate. Qed.

(** C7, amended.  For every page the optimized title is: the title itself
    when its length is within [30,60]; for a title shorter than 30 (or
    empty), the first H1 followed by the brand suffix when that H1 has at
    most 50 characters, the first 50 characters of the H1 followed by the
    ellipsis when it is longer, and the generic fallback when there is no
    (or an empty) first H1; for a title longer than 60, its first 57
    characters followed by the ellipsis. *)
Theorem optimizedTitle_amended (p : PageData) :
  rec_title (generateRecommendations p) = Spec.optimizedTitleAmended p.
Proof.
  unfold generateRecommendations, Spec.optimizedTitleAmended, optimizeTitle, firstH1.
  cbn [rec_title]. rewrite truthy_length.
  set (n := String.length (title p)).
  destruct (h1 (headings p)) as [|first rest]; cbn [head].
  - destruct (n <? 30) eqn:E1, (60 <? n) eqn:E2, (30 <=? n) eqn:E3, (n <=? 60) eqn:E4,
      (0 <? n) eqn:E5; cbn [orb andb negb]; try reflexivity; nat_bools; lia.
  - rewrite truthy_eqb_empty.
    destruct (String.eqb_spec first "") as [->|Hne].
    + destruct (n <? 30) eqn:E1, (60 <? n) eqn:E2, (30 <=? n) eqn:E3, (n <=? 60) eqn:E4,
      (0 <? n) eqn:E5; cbn [orb andb negb]; try reflexivity; nat_bools; lia.
    + assert (0 < String.length first) by (destruct first; simpl; [done|lia]).
      destruct (n <? 30) eqn:E1, (60 <? n) eqn:E2, (30 <=? n) eqn:E3, (n <=? 60) eqn:E4,
      (0 <? n) eqn:E5, (0 <? String.length first) eqn:E6,
      (50 <? String.length first) eqn:E7, (String.length first <=? 50) eqn:E8;
      cbn [orb andb negb]; try reflexivity; nat_bools; lia.
Qed.

End RecommendationProps.

(** * Properties of the crawler *)

Module CrawlProps.
Import Js LightweightScraper CrawlSpec Examples.
Local Open Scope list_scope.

(** *** A page that is visited *)

Lemma scanPage_skips (fuel : nat) (browser : Browser) (url : string) (depth : nat)
    (st : Crawl) :
  skips url depth st = true ->
  scanPage (S fuel) browser url depth st = Some (Returned, st).
Proof. unfold skips. intros H. cbn [scanPage]. by rewrite H. Qed.

Lemma scanPage_visit_throws (fuel : nat) (browser : Browser) (url : string)
    (depth : nat) (st : Crawl) (e : Thrown) (closing : Completion) :
  skips url depth st = false ->
  browser (length (visitedUrls st)) url = VisitThrows e closing ->
  scanPage (S fuel) browser url depth st
  = Some (closing, recordError url e (addVisited url st)).
Proof. unfold skips. intros Hg Hb. cbn [scanPage]. rewrite Hg, Hb. by destruct closing. Qed.


Lemma scanPage_Frame (fuel : nat) (browser : Browser) (url : string) (depth : nat)
    (st : Crawl) (out : Completion) (st' : Crawl) :
  scanPage (S fuel) browser url depth st = Some (out, st') ->
  Frame (fun link st => scanPage fuel browser link (depth + 1) st)
        browser url depth st out st'.
Proof.
  cbn [scanPage]. fold (skips url depth st).
  destruct (skips url depth st) eqn:Hskip.
  { intros [= <- <-]. by constructor. }
  destruct (browser (length (visitedUrls st)) url) as [e|e closing|pageData closing] eqn:Hb.
  - intros [= <- <-]. by constructor.
  - destruct closing; intros [= <- <-]; by econstructor.
  - fold (expands depth pageData). destruct (expands depth pageData) eqn:Hexp.
    + match goal with |- context [scanLinks ?v ?p ?d ?l ?s] =>
        destruct (scanLinks v p d l s) as [[[|e] st3]|] eqn:Hloop end; [| |done].
      * destruct closing; intros [= <- <-]; by eapply frame_links.
      * destruct closing; intros [= <- <-]; by eapply frame_links_threw.
    + destruct closing; intros [= <- <-]; by eapply frame_leaf.
Qed.

(** *** Termination *)

Lemma scanLinks_returns (visit : string -> Crawl -> option (Completion * Crawl))
    (parent : string) (depth : nat) (links : list string) (st : Crawl) :
  (forall link st, is_Some (visit link st)) ->
  is_Some (scanLinks visit parent depth links st).
Proof.
  intros Hvisit. revert st. induction links as [|link rest IH]; intros st; cbn [scanLinks].
  - eauto.
  - destruct (this_pagesProcessed st <? maxPages); [|apply IH].
    destruct (Hvisit link (logEvent (Expanded parent depth link (depth + 1)) st))
      as [[[|e] st'] ->]; [apply IH|eauto].
Qed.

Lemma scanPage_returns (browser : Browser) (fuel : nat) :
  forall url depth st, 1 <= fuel -> 3 <= fuel + depth ->
    is_Some (scanPage fuel browser url depth st).
Proof.
  induction fuel as [|fuel IH]; intros url depth st Hfuel Hsum; [lia|].
  cbn [scanPage].
  destruct (_ || _); [eauto|].
  destruct (browser _ url) as [e|e closing|pageData closing]; [eauto| |].
  - destruct closing; eauto.
  - destruct ((depth <? 2) && _) eqn:Hexp.
    + apply andb_true_iff in Hexp as [Hd _]. nat_bools.
      match goal with |- context [scanLinks ?v ?p ?d ?l ?s] =>
        destruct (scanLinks_returns v p d l s) as [[c st3] ->] end.
      { intros link st0. apply IH; lia. }
      destruct closing; eauto.
    + destruct closing; eauto.
Qed.

Lemma crawl_returns (browser : Browser) (url : string) :
  exists out st, crawl browser url = Some (out, st).
Proof.
  destruct (scanPage_returns browser crawlFuel url 0 freshCrawl) as [[out st] H];
    [unfold crawlFuel; lia..|]. eauto.
Qed.


Lemma scanLinks_ext (visit visit' : string -> Crawl -> option (Completion * Crawl))
    (parent : string) (depth : nat) :
  (forall link st r, visit link st = Some r -> visit' link st = Some r) ->
  forall links st r,
    scanLinks visit parent depth links st = Some r ->
    scanLinks visit' parent depth links st = Some r.
Proof.
  intros Hext. induction links as [|link rest IH]; intros st r; cbn [scanLinks]; [done|].
  destruct (this_pagesProcessed st <? maxPages); [|apply IH].
  destruct (visit link _) as [[[|e] st1]|] eqn:Hv; [| |done];
    rewrite (Hext _ _ _ Hv); [apply IH|done].
Qed.

(** Fuel that suffices gives the result of any larger fuel: the bound cuts
    nothing off. *)
Lemma scanPage_more_fuel (browser : Browser) (fuel : nat) :
  forall fuel' url depth st r,
    fuel <= fuel' ->
    scanPage fuel browser url depth st = Some r ->
    scanPage fuel' browser url depth st = Some r.
Proof.
  induction fuel as [|fuel IH]; intros fuel' url depth st r Hle; [done|].
  destruct fuel' as [|fuel']; [lia|]. cbn [scanPage].
  destruct (_ || _); [done|].
  destruct (browser _ url) as [e|e closing|pageData closing]; [done|done|].
  destruct ((depth <? 2) && _); [|done].
  match goal with |- context [scanLinks ?v ?p ?d ?l ?s] =>
    destruct (scanLinks v p d l s) as [r3|] eqn:Hloop end; [|done].
  eapply scanLinks_ext in Hloop.
  - rewrite Hloop. done.
  - intros link st0 r0. apply IH. lia.
Qed.

Lemma crawl_any_fuel (browser : Browser) (url : string) (fuel : nat) :
  crawlFuel <= fuel -> scanPage fuel browser url 0 freshCrawl = crawl browser url.
Proof.
  intros Hle. destruct (crawl_returns browser url) as (out & st & Hcrawl).
  rewrite Hcrawl. by apply (scanPage_more_fuel browser crawlFuel).
Qed.

(** *** The page ceiling *)

Lemma TraceWithin_mono (n m : nat) (tr : list TraceEvent) :
  n <= m -> TraceWithin n tr -> TraceWithin m tr.
Proof.
  intros Hnm Htr. unfold TraceWithin. eapply Forall_impl; [exact Htr|].
  intros [sd|sd|? ? ? ?]; unfold Within; try done; lia.
Qed.

Lemma Grew_refl (st : Crawl) : Sync st -> Grew 0 st st.
Proof.
  intros Hs. split; [done|]. split; [lia|]. split; [lia|].
  exists []. split; [by rewrite app_nil_r|constructor].
Qed.

Lemma Grew_trans (n m : nat) (st st1 st2 : Crawl) :
  Grew n st st1 -> Grew m st1 st2 -> Grew (n + m) st st2.
Proof.
  intros (_ & Hlo1 & Hhi1 & new1 & Ht1 & Hw1) (Hs & Hlo2 & Hhi2 & new2 & Ht2 & Hw2).
  split; [done|]. split; [lia|]. split; [lia|].
  exists (new1 ++ new2). split; [by rewrite Ht2, Ht1, app_assoc|].
  apply Forall_app. split; (eapply TraceWithin_mono; [|eassumption]); lia.
Qed.

Lemma Grew_mono (n m : nat) (st st' : Crawl) : n <= m -> Grew n st st' -> Grew m st st'.
Proof.
  intros Hnm (Hs & Hlo & Hhi & new & Ht & Hw).
  split; [done|]. split; [lia|]. split; [lia|].
  exists new. split; [done|]. eapply TraceWithin_mono; [|eassumption]. lia.
Qed.

Lemma Grew_addVisited (url : string) (st : Crawl) :
  Sync st -> Grew 0 st (addVisited url st).
Proof.
  intros Hs. split; [exact Hs|]. split; [simpl; lia|]. split; [simpl; lia|].
  exists []. split; [by rewrite app_nil_r|constructor].
Qed.

Lemma Grew_expanded (parent : string) (depth : nat) (link : string) (d : nat) (st : Crawl) :
  Sync st -> Grew 0 st (logEvent (Expanded parent depth link d) st).
Proof.
  intros Hs. split; [exact Hs|]. split; [simpl; lia|]. split; [simpl; lia|].
  eexists. split; [done|]. by repeat constructor.
Qed.

Lemma Grew_recordPage (url : string) (pageData : PageData) (st : Crawl) :
  Sync st -> Grew 1 st (recordPage url pageData st).
Proof.
  intros (Hc & Hp & Hk). unfold recordPage, flushProgress, Grew, Sync, records.
  destruct (_ =? 0); simpl; rewrite ?length_app; simpl;
    (split; [lia|]; split; [lia|]; split; [lia|]);
    eexists; (split; [by rewrite <- !app_assoc|]);
    repeat constructor; simpl; rewrite ?length_app; simpl; lia.
Qed.

Lemma Grew_recordError (url : string) (e : Thrown) (st : Crawl) :
  Sync st -> Grew 1 st (recordError url e st).
Proof.
  intros (Hc & Hp & Hk). unfold recordError, Grew, Sync, records.
  simpl; rewrite ?length_app; simpl.
  split; [lia|]; split; [lia|]; split; [lia|].
  eexists; (split; [by rewrite <- !app_assoc|]).
  repeat constructor; simpl; rewrite ?length_app; simpl; lia.
Qed.

Lemma Grew_Sync (n : nat) (st st' : Crawl) : Grew n st st' -> Sync st'.
Proof. by intros [? _]. Qed.

Lemma scanLinks_Grew (visit : string -> Crawl -> option (Completion * Crawl))
    (parent : string) (depth b : nat) :
  (forall link st out st', visit link st = Some (out, st') -> Sync st -> Grew b st st') ->
  forall links st out st',
    scanLinks visit parent depth links st = Some (out, st') ->
    Sync st -> Grew (length links * b) st st'.
Proof.
  intros Hvisit. induction links as [|link rest IH]; intros st out st'; cbn [scanLinks].
  - intros [= <- <-] Hs. by apply Grew_refl.
  - destruct (this_pagesProcessed st <? maxPages).
    + destruct (visit link _) as [[[|e] st1]|] eqn:Hv; [| |done]; intros H Hs.
      * pose proof (Grew_expanded parent depth link (depth + 1) st Hs) as H0.
        pose proof (Hvisit _ _ _ _ Hv (Grew_Sync _ _ _ H0)) as H1.
        pose proof (IH _ _ _ H (Grew_Sync _ _ _ H1)) as H2.
        eapply Grew_mono; [|exact (Grew_trans _ _ _ _ _ (Grew_trans _ _ _ _ _ H0 H1) H2)].
        simpl. lia.
      * injection H as <- <-.
        pose proof (Grew_expanded parent depth link (depth + 1) st Hs) as H0.
        pose proof (Hvisit _ _ _ _ Hv (Grew_Sync _ _ _ H0)) as H1.
        eapply Grew_mono; [|exact (Grew_trans _ _ _ _ _ H0 H1)].
        simpl. lia.
    + intros H Hs. eapply Grew_mono; [|by eapply IH]. simpl. lia.
Qed.

Lemma growth_step (depth : nat) : depth < 2 -> 2 + 5 * growth (depth + 1) <= growth depth.
Proof. destruct depth as [|[|depth]]; simpl; lia. Qed.

Lemma growth_positive (depth : nat) : 1 <= growth depth.
Proof. destruct depth as [|[|depth]]; simpl; lia. Qed.

Lemma scanPage_Grew (browser : Browser) (fuel : nat) :
  forall url depth st out st',
    scanPage fuel browser url depth st = Some (out, st') ->
    Sync st -> Grew (growth depth) st st'.
Proof.
  induction fuel as [|fuel IH]; intros url depth st out st' H Hs; [done|].
  pose proof (growth_positive depth) as Hpos.
  pose proof (Grew_addVisited url st Hs) as Hadd.
  apply scanPage_Frame in H.
  destruct H as [Hskip|e Hskip Hb|e closing Hskip Hb|pageData closing Hskip Hb Hexp
                 |pageData closing st3 Hskip Hb Hexp Hloop
                 |pageData closing e st3 Hskip Hb Hexp Hloop].
  - eapply Grew_mono; [|by apply Grew_refl]. lia.
  - eapply Grew_mono; [|exact Hadd]. lia.
  - eapply Grew_mono; [|exact (Grew_trans _ _ _ _ _ Hadd
                                 (Grew_recordError url e _ (Grew_Sync _ _ _ Hadd)))]. lia.
  - eapply Grew_mono; [|exact (Grew_trans _ _ _ _ _ Hadd
                                 (Grew_recordPage url pageData _ (Grew_Sync _ _ _ Hadd)))]. lia.
  - pose proof (Grew_trans _ _ _ _ _ Hadd
                  (Grew_recordPage url pageData _ (Grew_Sync _ _ _ Hadd))) as Hpage.
    pose proof (scanLinks_Grew _ url depth _ (fun link st0 out0 st0' => IH link (depth + 1) st0 out0 st0')
                  _ _ _ _ Hloop (Grew_Sync _ _ _ Hpage)) as Hlinks.
    apply andb_true_iff in Hexp as [Hd _]. nat_bools.
    pose proof (growth_step depth Hd).
    pose proof (firstn_le_length 5 (internalLinks pageData)).
    eapply Grew_mono; [|exact (Grew_trans _ _ _ _ _ Hpage Hlinks)]. nia.
  - pose proof (Grew_trans _ _ _ _ _ Hadd
                  (Grew_recordPage url pageData _ (Grew_Sync _ _ _ Hadd))) as Hpage.
    pose proof (scanLinks_Grew _ url depth _ (fun link st0 out0 st0' => IH link (depth + 1) st0 out0 st0')
                  _ _ _ _ Hloop (Grew_Sync _ _ _ Hpage)) as Hlinks.
    pose proof (Grew_recordError url e _ (Grew_Sync _ _ _ Hlinks)) as Herr.
    apply andb_true_iff in Hexp as [Hd _]. nat_bools.
    pose proof (growth_step depth Hd).
    pose proof (firstn_le_length 5 (internalLinks pageData)).
    eapply Grew_mono; [|exact (Grew_trans _ _ _ _ _ (Grew_trans _ _ _ _ _ Hpage Hlinks) Herr)].
    nia.
Qed.

Lemma Sync_fresh : Sync freshCrawl.
Proof. by repeat split. Qed.


(** *** Link expansion *)

Lemma expansionsOf_app (p : string) (a b : list TraceEvent) :
  expansionsOf p (a ++ b) = expansionsOf p a + expansionsOf p b.
Proof. unfold expansionsOf. by rewrite List.filter_app, length_app. Qed.

Lemma expansionsOf_quiet (p : string) (evs : list TraceEvent) :
  forallb (fun ev => negb (isExpanded ev)) evs = true -> expansionsOf p evs = 0.
Proof.
  unfold expansionsOf. induction evs as [|ev evs IH]; simpl; [done|].
  intros [Hev Hevs]%andb_true_iff. by destruct ev; [apply IH..|].
Qed.

Lemma has_app (u : string) (a b : list string) : has u (a ++ b) = has u a || has u b.
Proof. unfold has. apply existsb_app. Qed.

Lemma has_addVisited (url : string) (st : Crawl) :
  has url (visitedUrls (addVisited url st)) = true.
Proof.
  simpl. destruct (has url (visitedUrls st)) eqn:H; [done|].
  rewrite has_app. simpl. by rewrite String.eqb_refl, orb_true_r.
Qed.

Lemma VisitedGrows_addVisited (url : string) (st : Crawl) :
  VisitedGrows st (addVisited url st).
Proof.
  intros u Hu. simpl. destruct (has url (visitedUrls st)); [done|].
  by rewrite has_app, Hu.
Qed.

Lemma VisitedGrows_refl (st : Crawl) : VisitedGrows st st.
Proof. by intros u. Qed.

Lemma VisitedGrows_trans (st st1 st2 : Crawl) :
  VisitedGrows st st1 -> VisitedGrows st1 st2 -> VisitedGrows st st2.
Proof. intros H1 H2 u Hu. auto. Qed.

(** A step that logs no call of the loop. *)
Lemma Links_quiet (browser : Browser) (st st' : Crawl) (evs : list TraceEvent) :
  trace st' = trace st ++ evs ->
  forallb (fun ev => negb (isExpanded ev)) evs = true ->
  VisitedGrows st st' ->
  Links browser st st'.
Proof.
  intros Ht Hq Hv. exists evs. split; [done|].
  split; [done|]. intros p. unfold FanOut. rewrite (expansionsOf_quiet p evs Hq).
  split; [lia|]. split; [done|lia].
Qed.

Lemma Links_refl (browser : Browser) (st : Crawl) : Links browser st st.
Proof. eapply (Links_quiet _ _ _ []); [by rewrite app_nil_r|done|apply VisitedGrows_refl]. Qed.

Lemma recordPage_trace (url : string) (pageData : PageData) (st : Crawl) :
  exists evs, trace (recordPage url pageData st) = trace st ++ evs
              /\ forallb (fun ev => negb (isExpanded ev)) evs = true.
Proof.
  unfold recordPage, flushProgress. destruct (_ =? 0); simpl;
    rewrite <- ?app_assoc; eexists; (split; [done|done]).
Qed.

Lemma recordPage_visitedUrls (url : string) (pageData : PageData) (st : Crawl) :
  visitedUrls (recordPage url pageData st) = visitedUrls st.
Proof. unfold recordPage, flushProgress. by destruct (_ =? 0). Qed.

Lemma Links_recordPage (browser : Browser) (url : string) (pageData : PageData) (st : Crawl) :
  Links browser st (recordPage url pageData st).
Proof.
  destruct (recordPage_trace url pageData st) as (evs & Ht & Hq).
  eapply Links_quiet; [done|done|]. intros u. by rewrite recordPage_visitedUrls.
Qed.

Lemma Links_recordError (browser : Browser) (url : string) (e : Thrown) (st : Crawl) :
  Links browser st (recordError url e st).
Proof.
  eapply (Links_quiet _ _ _ [_; _]); [simpl; by rewrite <- app_assoc|done|by intros u].
Qed.

Lemma Links_addVisited (browser : Browser) (url : string) (st : Crawl) :
  Links browser st (addVisited url st).
Proof.
  eapply (Links_quiet _ _ _ []); [by rewrite app_nil_r|done|apply VisitedGrows_addVisited].
Qed.

Lemma FanOut_app (p : string) (new1 new2 : list TraceEvent) (st st1 st2 : Crawl) :
  VisitedGrows st st1 -> VisitedGrows st1 st2 ->
  FanOut p new1 st st1 -> FanOut p new2 st1 st2 -> FanOut p (new1 ++ new2) st st2.
Proof.
  intros Hv1 Hv2 (Hle1 & Hz1 & Hp1) (Hle2 & Hz2 & Hp2).
  unfold FanOut. rewrite expansionsOf_app.
  destruct (expansionsOf p new1) as [|c1] eqn:Hc1.
  - split; [lia|]. split; [intros Hu; rewrite Hz2; auto|].
    intros Hpos. apply Hp2. lia.
  - assert (has p (visitedUrls st1) = true) as H1 by (apply Hp1; lia).
    rewrite (Hz2 H1). split; [lia|]. split; [intros Hu; specialize (Hz1 Hu); lia|].
    intros _. auto.
Qed.

Lemma Links_trans (browser : Browser) (st st1 st2 : Crawl) :
  Links browser st st1 -> Links browser st1 st2 -> Links browser st st2.
Proof.
  intros (new1 & Ht1 & Hv1 & Hf1) (new2 & Ht2 & Hv2 & Hf2).
  exists (new1 ++ new2). split; [by rewrite Ht2, Ht1, app_assoc|].
  split; [by eapply VisitedGrows_trans|].
  intros p. by eapply FanOut_app.
Qed.

Lemma LinksFrom_of_Links (browser : Browser) (parent : string) (st st' : Crawl) :
  has parent (visitedUrls st) = true ->
  Links browser st st' -> LinksFrom browser parent 0 st st'.
Proof.
  intros Hp (new & Ht & Hv & Hf). exists new.
  split; [done|]. split; [done|].
  split; [|by intros p _]. destruct (Hf parent) as (_ & Hz & _). by rewrite Hz.
Qed.

Lemma LinksFrom_own (browser : Browser) (parent : string) (depth : nat) (link : string)
    (d : nat) (st : Crawl) :
  LinksFrom browser parent 1 st (logEvent (Expanded parent depth link d) st).
Proof.
  exists [Expanded parent depth link d]. split; [done|].
  split; [by intros u|].
  unfold expansionsOf. simpl. rewrite String.eqb_refl. split; [simpl; lia|].
  intros p Hne. unfold FanOut, expansionsOf. simpl.
  destruct (String.eqb_spec parent p); [congruence|]. simpl.
  split; [lia|]. split; [done|lia].
Qed.

Lemma LinksFrom_trans (browser : Browser) (parent : string) (n m : nat)
    (st st1 st2 : Crawl) :
  LinksFrom browser parent n st st1 -> LinksFrom browser parent m st1 st2 ->
  LinksFrom browser parent (n + m) st st2.
Proof.
  intros (new1 & Ht1 & Hv1 & Hle1 & Hf1) (new2 & Ht2 & Hv2 & Hle2 & Hf2).
  exists (new1 ++ new2). split; [by rewrite Ht2, Ht1, app_assoc|].
  split; [by eapply VisitedGrows_trans|].
  split; [rewrite expansionsOf_app; lia|].
  intros p Hne. eapply FanOut_app; eauto.
Qed.

Lemma LinksFrom_mono (browser : Browser) (parent : string) (n m : nat) (st st' : Crawl) :
  n <= m -> LinksFrom browser parent n st st' -> LinksFrom browser parent m st st'.
Proof.
  intros Hnm (new & Ht & Hv & Hle & Hf). exists new.
  split; [done|]. split; [done|]. split; [lia|done].
Qed.

(** The whole of a page's visit, from before it is marked visited. *)
Lemma Links_of_LinksFrom (browser : Browser) (parent : string) (n : nat) (st st' : Crawl) :
  n <= 5 ->
  has parent (visitedUrls st) = false ->
  has parent (visitedUrls st') = true ->
  LinksFrom browser parent n st st' -> Links browser st st'.
Proof.
  intros Hn Hbefore Hafter (new & Ht & Hv & Hle & Hf). exists new.
  split; [done|]. split; [done|].
  intros p. destruct (String.eqb_spec p parent) as [->|Hne]; [|by apply Hf].
  split; [lia|]. split; [congruence|done].
Qed.

Lemma scanLinks_Links (browser : Browser)
    (visit : string -> Crawl -> option (Completion * Crawl))
    (parent : string) (depth : nat) :
  (forall link st out st', visit link st = Some (out, st') -> Links browser st st') ->
  forall links st out st',
    has parent (visitedUrls st) = true ->
    scanLinks visit parent depth links st = Some (out, st') ->
    LinksFrom browser parent (length links) st st'.
Proof.
  intros Hvisit. induction links as [|link rest IH]; intros st out st' Hp; cbn [scanLinks].
  - intros [= <- <-]. apply LinksFrom_of_Links; [done|apply Links_refl].
  - destruct (this_pagesProcessed st <? maxPages).
    + pose proof (LinksFrom_own browser parent depth link (depth + 1) st) as Hown.
      destruct (visit link _) as [[[|e] st1]|] eqn:Hv; [| |done]; intros H.
      * pose proof (LinksFrom_of_Links browser parent (logEvent _ st) _ Hp
                      (Hvisit _ _ _ _ Hv)) as Hchild.
        pose proof (LinksFrom_trans _ _ _ _ _ _ _ Hown Hchild) as Hhead.
        assert (Hp1 : has parent (visitedUrls st1) = true).
        { destruct Hhead as (_ & _ & Hg & _). by apply Hg. }
        pose proof (IH _ _ _ Hp1 H) as Htail.
        eapply LinksFrom_mono; [|exact (LinksFrom_trans _ _ _ _ _ _ _ Hhead Htail)].
        simpl. lia.
      * injection H as <- <-.
        pose proof (LinksFrom_of_Links browser parent (logEvent _ st) _ Hp
                      (Hvisit _ _ _ _ Hv)) as Hchild.
        eapply LinksFrom_mono; [|exact (LinksFrom_trans _ _ _ _ _ _ _ Hown Hchild)].
        simpl. lia.
    + intros H. eapply LinksFrom_mono; [|by eapply IH]. simpl. lia.
Qed.

Lemma skips_not_visited (url : string) (depth : nat) (st : Crawl) :
  skips url depth st = false -> has url (visitedUrls st) = false.
Proof. unfold skips. by intros [[? _]%orb_false_iff _]%orb_false_iff. Qed.

Lemma LinksFrom_quiet (browser : Browser) (parent : string) (st st' : Crawl)
    (evs : list TraceEvent) :
  trace st' = trace st ++ evs ->
  forallb (fun ev => negb (isExpanded ev)) evs = true ->
  VisitedGrows st st' ->
  LinksFrom browser parent 0 st st'.
Proof.
  intros Ht Hq Hv. destruct (Links_quiet browser st st' evs Ht Hq Hv)
    as (new & Ht' & _ & Hf).
  assert (new = evs) as -> by (rewrite Ht in Ht'; by apply app_inv_head in Ht').
  exists evs. split; [done|]. split; [done|].
  split; [by rewrite expansionsOf_quiet|]. by intros p _.
Qed.

(** The loop of a page that expands, from before the page is marked
    visited to the end of the loop. *)
Lemma expansion_Links (browser : Browser)
    (visit : string -> Crawl -> option (Completion * Crawl))
    (url : string) (depth : nat) (pageData : PageData) (closing : Completion)
    (st : Crawl) (out : Completion) (st' : Crawl) :
  (forall link st out st', visit link st = Some (out, st') -> Links browser st st') ->
  skips url depth st = false ->
  browser (length (visitedUrls st)) url = VisitOk pageData closing ->
  expands depth pageData = true ->
  scanLinks visit url depth (firstn 5 (internalLinks pageData))
            (recordPage url pageData (addVisited url st)) = Some (out, st') ->
  Links browser st st'.
Proof.
  intros Hvisit Hskip Hb Hexp Hloop.
  apply andb_true_iff in Hexp as [Hd _]. nat_bools.
  destruct (recordPage_trace url pageData (addVisited url st)) as (evs & Ht & Hq).
  assert (Hpage : LinksFrom browser url 0 st (recordPage url pageData (addVisited url st))).
  { eapply LinksFrom_quiet; [exact Ht|done|].
    intros u Hu. rewrite recordPage_visitedUrls. by apply VisitedGrows_addVisited. }
  assert (Hin : has url (visitedUrls (recordPage url pageData (addVisited url st))) = true).
  { rewrite recordPage_visitedUrls. apply has_addVisited. }
  pose proof (scanLinks_Links browser visit url depth Hvisit _ _ _ _ Hin Hloop) as Hlinks.
  pose proof (firstn_le_length 5 (internalLinks pageData)).
  eapply (Links_of_LinksFrom browser url); [| |
    |exact (LinksFrom_trans _ _ _ _ _ _ _ Hpage Hlinks)].
  - simpl. lia.
  - by eapply skips_not_visited.
  - destruct Hlinks as (_ & _ & Hg & _). by apply Hg.
Qed.

Lemma scanPage_Links (browser : Browser) (fuel : nat) :
  forall url depth st out st',
    scanPage fuel browser url depth st = Some (out, st') -> Links browser st st'.
Proof.
  induction fuel as [|fuel IH]; intros url depth st out st' H; [done|].
  apply scanPage_Frame in H.
  destruct H as [Hskip|e Hskip Hb|e closing Hskip Hb|pageData closing Hskip Hb Hexp
                 |pageData closing st3 Hskip Hb Hexp Hloop
                 |pageData closing e st3 Hskip Hb Hexp Hloop].
  - apply Links_refl.
  - apply Links_addVisited.
  - eapply Links_trans; [apply Links_addVisited|apply Links_recordError].
  - eapply Links_trans; [apply Links_addVisited|apply Links_recordPage].
  - eapply expansion_Links; [|done|done|done|exact Hloop].
    intros link st0 out0 st0'. apply IH.
  - eapply Links_trans; [|apply Links_recordError].
    eapply expansion_Links; [|done|done|done|exact Hloop].
    intros link st0 out0 st0'. apply IH.
Qed.

(** A call at depth 2 or more logs no call of the loop. *)
Lemma scanPage_deep (browser : Browser) (fuel : nat) (url : string) (depth : nat)
    (st : Crawl) (out : Completion) (st' : Crawl) :
  2 <= depth ->
  scanPage fuel browser url depth st = Some (out, st') ->
  exists new, trace st' = trace st ++ new
              /\ forallb (fun ev => negb (isExpanded ev)) new = true.
Proof.
  intros Hd H. destruct fuel as [|fuel]; [done|].
  apply scanPage_Frame in H.
  destruct H as [Hskip|e Hskip Hb|e closing Hskip Hb|pageData closing Hskip Hb Hexp
                 |pageData closing st3 Hskip Hb Hexp Hloop
                 |pageData closing e st3 Hskip Hb Hexp Hloop].
  - exists []. by rewrite app_nil_r.
  - exists []. by rewrite app_nil_r.
  - eexists [_; _]. simpl. by rewrite <- app_assoc.
  - apply (recordPage_trace url pageData (addVisited url st)).
  - apply andb_true_iff in Hexp as [Hlt _]. nat_bools. lia.
  - apply andb_true_iff in Hexp as [Hlt _]. nat_bools. lia.
Qed.


(** *** The visited set *)

Lemma NoDup_snoc (urls : list string) (u : string) :
  NoDup urls -> ~ In u urls -> NoDup (urls ++ [u]).
Proof.
  intros Hnd Hu. apply NoDup_app. split; [done|]. split; [|apply NoDup_singleton].
  intros x Hx ->%list_elem_of_singleton. by apply Hu, list_elem_of_In.
Qed.

Lemma scanData_recordPage (url : string) (pageData : PageData) (st : Crawl) :
  pages (scanData (recordPage url pageData st))
  = pages (scanData st) ++ [pageRecord url pageData]
  /\ errors (scanData (recordPage url pageData st)) = errors (scanData st).
Proof. unfold recordPage, flushProgress. by destruct (_ =? 0). Qed.

Lemma Dedup_addVisited (url : string) (st : Crawl) : Dedup st -> Dedup (addVisited url st).
Proof.
  intros (Hp & He & Hpv & Hev). split; [done|]. split; [done|].
  split; intros u Hu; apply VisitedGrows_addVisited; auto.
Qed.

Lemma StaysDedup_refl (st : Crawl) : Dedup st -> StaysDedup st st.
Proof. intros Hd. split; [done|]. split; [apply VisitedGrows_refl|]. by left. Qed.

Lemma StaysDedup_trans (st st1 st2 : Crawl) :
  StaysDedup st st1 -> StaysDedup st1 st2 -> StaysDedup st st2.
Proof.
  intros (_ & Hv1 & He1) (Hd & Hv2 & He2). split; [done|].
  split; [by eapply VisitedGrows_trans|].
  intros u [Hu|Hu]%He2; [by apply He1|]. right.
  destruct (has u (visitedUrls st)) eqn:H; [|done]. apply Hv1 in H. congruence.
Qed.

(** The page's own record, pushed by a page that had not been visited. *)
Lemma StaysDedup_recordPage (url : string) (pageData : PageData) (st : Crawl) :
  Dedup st -> has url (visitedUrls st) = false ->
  StaysDedup st (recordPage url pageData (addVisited url st)).
Proof.
  intros (Hp & He & Hpv & Hev) Hnew.
  destruct (scanData_recordPage url pageData (addVisited url st)) as [Hpages Herrors].
  assert (Hgrow : VisitedGrows st (recordPage url pageData (addVisited url st))).
  { intros u Hu. rewrite recordPage_visitedUrls. by apply VisitedGrows_addVisited. }
  split; [|split; [done|]].
  - unfold Dedup. rewrite Hpages, Herrors, map_app. simpl.
    split; [|split; [done|split]].
    + apply NoDup_snoc; [done|]. intros Hin%Hpv. congruence.
    + intros u [Hu|[<-|[]]]%in_app_or; [by apply Hgrow, Hpv|].
      rewrite recordPage_visitedUrls. apply has_addVisited.
    + intros u Hu. by apply Hgrow, Hev.
  - intros u. rewrite Herrors. by left.
Qed.

(** The [catch] block of a page, after anything that left the errors
    without an entry for it. *)
Lemma StaysDedup_recordError (url : string) (e : Thrown) (st : Crawl) :
  Dedup st -> has url (visitedUrls st) = true ->
  ~ In url (map err_url (errors (scanData st))) ->
  Dedup (recordError url e st).
Proof.
  intros (Hp & He & Hpv & Hev) Hin Hfresh. unfold Dedup. simpl. rewrite map_app. simpl.
  split; [done|]. split; [by apply NoDup_snoc|]. split; [done|].
  intros u [Hu|[<-|[]]]%in_app_or; auto.
Qed.

Lemma scanLinks_StaysDedup (visit : string -> Crawl -> option (Completion * Crawl))
    (parent : string) (depth : nat) :
  (forall link st out st', visit link st = Some (out, st') -> Dedup st -> StaysDedup st st') ->
  forall links st out st',
    scanLinks visit parent depth links st = Some (out, st') ->
    Dedup st -> StaysDedup st st'.
Proof.
  intros Hvisit. induction links as [|link rest IH]; intros st out st'; cbn [scanLinks].
  - intros [= <- <-]. apply StaysDedup_refl.
  - destruct (this_pagesProcessed st <? maxPages); [|apply IH].
    destruct (visit link _) as [[[|e] st1]|] eqn:Hv; [| |done]; intros H Hd.
    + pose proof (Hvisit _ _ _ _ Hv Hd) as H1.
      eapply (StaysDedup_trans st st1 st'); [exact H1|].
      eapply IH; [exact H|]. by destruct H1.
    + injection H as <- <-. exact (Hvisit _ _ _ _ Hv Hd).
Qed.

Lemma scanPage_StaysDedup (browser : Browser) (fuel : nat) :
  forall url depth st out st',
    scanPage fuel browser url depth st = Some (out, st') ->
    Dedup st -> StaysDedup st st'.
Proof.
  induction fuel as [|fuel IH]; intros url depth st out st' H Hd; [done|].
  apply scanPage_Frame in H.
  assert (Hcatch : forall e st3, skips url depth st = false ->
            StaysDedup st st3 -> has url (visitedUrls st3) = true ->
            (forall u, In u (map err_url (errors (scanData st3))) ->
                       In u (map err_url (errors (scanData st)))
                       \/ (u <> url /\ has u (visitedUrls st) = false)) ->
            StaysDedup st (recordError url e st3)).
  { intros e st3 Hskip%skips_not_visited (Hd3 & Hv3 & He3) Hin Hnew.
    destruct Hd as (_ & _ & _ & Hev).
    split; [|split; [done|]].
    - apply StaysDedup_recordError; [done|done|].
      intros [Hu|[Hu _]]%Hnew; [apply Hev in Hu; congruence|done].
    - simpl. rewrite map_app. simpl.
      intros u [Hu|[<-|[]]]%in_app_or; [by apply He3|by right]. }
  destruct H as [Hskip|e Hskip Hb|e closing Hskip Hb|pageData closing Hskip Hb Hexp
                 |pageData closing st3 Hskip Hb Hexp Hloop
                 |pageData closing e st3 Hskip Hb Hexp Hloop].
  - by apply StaysDedup_refl.
  - split; [by apply Dedup_addVisited|]. split; [apply VisitedGrows_addVisited|by left].
  - apply Hcatch; [done| |apply has_addVisited|by left].
    split; [by apply Dedup_addVisited|]. split; [apply VisitedGrows_addVisited|by left].
  - apply StaysDedup_recordPage; [done|by eapply skips_not_visited].
  - pose proof (StaysDedup_recordPage url pageData st Hd (skips_not_visited _ _ _ Hskip))
      as Hpage.
    eapply StaysDedup_trans; [exact Hpage|].
    eapply scanLinks_StaysDedup; [|exact Hloop|by destruct Hpage].
    intros link st0 out0 st0'. apply IH.
  - pose proof (StaysDedup_recordPage url pageData st Hd (skips_not_visited _ _ _ Hskip))
      as Hpage.
    assert (Hlinks : StaysDedup (recordPage url pageData (addVisited url st)) st3).
    { eapply scanLinks_StaysDedup; [|exact Hloop|by destruct Hpage].
      intros link st0 out0 st0'. apply IH. }
    assert (Hin : has url (visitedUrls (recordPage url pageData (addVisited url st))) = true).
    { rewrite recordPage_visitedUrls. apply has_addVisited. }
    apply Hcatch; [done|by eapply StaysDedup_trans| |].
    + destruct Hlinks as (_ & Hg & _). by apply Hg.
    + destruct Hlinks as (_ & _ & He3). intros u [Hu|Hu]%He3.
      * left. by rewrite (proj2 (scanData_recordPage url pageData (addVisited url st))) in Hu.
      * right. split; [intros ->; congruence|].
        destruct (has u (visitedUrls st)) eqn:Hus; [|done].
        destruct Hpage as (_ & Hg & _). apply Hg in Hus. congruence.
Qed.

Lemma Dedup_fresh : Dedup freshCrawl.
Proof. split; [constructor|]. split; [constructor|]. by split. Qed.

(** In every crawl no URL has two records in [pages] and none has two in
    [errors], whatever the browser does. *)
Lemma crawl_no_duplicates (browser : Browser) (url : string) (out : Completion)
    (st : Crawl) :
  crawl browser url = Some (out, st) ->
  NoDup (map pr_url (pages (scanData st)))
  /\ NoDup (map err_url (errors (scanData st))).
Proof.
  intros H. destruct (scanPage_StaysDedup _ _ _ _ _ _ _ H Dedup_fresh)
    as ((Hp & He & _) & _). done.
Qed.

(** *** When tabs open and close *)

Lemma scanLinks_Returned (visit : string -> Crawl -> option (Completion * Crawl))
    (parent : string) (depth : nat) :
  (forall link st out st', visit link st = Some (out, st') -> out = Returned) ->
  forall links st out st',
    scanLinks visit parent depth links st = Some (out, st') -> out = Returned.
Proof.
  intros Hvisit. induction links as [|link rest IH]; intros st out st'; cbn [scanLinks].
  - by intros [= <- _].
  - destruct (this_pagesProcessed st <? maxPages); [|apply IH].
    destruct (visit link _) as [[[|e] st1]|] eqn:Hv; [apply IH| |done].
    by apply Hvisit in Hv.
Qed.

Lemma scanPage_Returned (browser : Browser) (fuel : nat) :
  TabsWork browser ->
  forall url depth st out st',
    scanPage fuel browser url depth st = Some (out, st') -> out = Returned.
Proof.
  intros Htabs. induction fuel as [|fuel IH]; intros url depth st out st' H; [done|].
  apply scanPage_Frame in H.
  destruct H as [Hskip|e Hskip Hb|e closing Hskip Hb|pageData closing Hskip Hb Hexp
                 |pageData closing st3 Hskip Hb Hexp Hloop
                 |pageData closing e st3 Hskip Hb Hexp Hloop];
    try done; specialize (Htabs (length (visitedUrls st)) url); by rewrite Hb in Htabs.
Qed.

Lemma OneRecord_push (st st' : Crawl) (url : string) :
  OneRecord st -> has url (visitedUrls st) = false ->
  VisitedGrows st st' -> has url (visitedUrls st') = true ->
  Permutation (map pr_url (pages (scanData st')) ++ map err_url (errors (scanData st')))
              (url :: map pr_url (pages (scanData st)) ++ map err_url (errors (scanData st))) ->
  OneRecord st'.
Proof.
  intros [Hnd Hv] Hnew Hgrow Hin Hperm. split.
  - rewrite Hperm. apply NoDup_cons. split; [|done].
    intros Hu%list_elem_of_In%Hv. congruence.
  - intros u Hu%list_elem_of_In. rewrite Hperm in Hu.
    apply elem_of_cons in Hu as [->|Hu%list_elem_of_In]; auto.
Qed.

Lemma scanLinks_OneRecord (visit : string -> Crawl -> option (Completion * Crawl))
    (parent : string) (depth : nat) :
  (forall link st out st', visit link st = Some (out, st') ->
     OneRecord st -> OneRecord st' /\ VisitedGrows st st') ->
  forall links st out st',
    scanLinks visit parent depth links st = Some (out, st') ->
    OneRecord st -> OneRecord st' /\ VisitedGrows st st'.
Proof.
  intros Hvisit. induction links as [|link rest IH]; intros st out st'; cbn [scanLinks].
  - intros [= <- <-] Ho. split; [done|apply VisitedGrows_refl].
  - destruct (this_pagesProcessed st <? maxPages); [|apply IH].
    destruct (visit link _) as [[[|e] st1]|] eqn:Hv; [| |done]; intros H Ho.
    + destruct (Hvisit _ _ _ _ Hv Ho) as [Ho1 Hg1].
      destruct (IH _ _ _ H Ho1) as [Ho2 Hg2].
      split; [done|]. intros u Hu. by apply Hg2, Hg1.
    + injection H as <- <-. exact (Hvisit _ _ _ _ Hv Ho).
Qed.

Lemma scanPage_OneRecord (browser : Browser) (fuel : nat) :
  TabsWork browser ->
  forall url depth st out st',
    scanPage fuel browser url depth st = Some (out, st') ->
    OneRecord st -> OneRecord st' /\ VisitedGrows st st'.
Proof.
  intros Htabs. induction fuel as [|fuel IH]; intros url depth st out st' H Ho; [done|].
  apply scanPage_Frame in H.
  assert (Hpage : forall pageData, skips url depth st = false ->
            OneRecord (recordPage url pageData (addVisited url st))
            /\ VisitedGrows st (recordPage url pageData (addVisited url st))).
  { intros pageData Hskip%skips_not_visited.
    assert (Hg : VisitedGrows st (recordPage url pageData (addVisited url st))).
    { intros u Hu. rewrite recordPage_visitedUrls. by apply VisitedGrows_addVisited. }
    split; [|done]. eapply (OneRecord_push st); [done|done|done| |].
    - rewrite recordPage_visitedUrls. apply has_addVisited.
    - destruct (scanData_recordPage url pageData (addVisited url st)) as [-> ->].
      simpl. rewrite map_app. simpl. rewrite <- app_assoc. simpl.
      symmetry. apply Permutation_middle. }
  destruct H as [Hskip|e Hskip Hb|e closing Hskip Hb|pageData closing Hskip Hb Hexp
                 |pageData closing st3 Hskip Hb Hexp Hloop
                 |pageData closing e st3 Hskip Hb Hexp Hloop].
  - split; [done|apply VisitedGrows_refl].
  - specialize (Htabs (length (visitedUrls st)) url). by rewrite Hb in Htabs.
  - split; [|apply VisitedGrows_addVisited].
    eapply (OneRecord_push st); [done|by eapply skips_not_visited
                                |apply VisitedGrows_addVisited|apply has_addVisited|].
    simpl. rewrite map_app. simpl. rewrite app_assoc.
    symmetry. apply Permutation_cons_append.
  - by apply Hpage.
  - destruct (Hpage pageData Hskip) as [Ho2 Hg2].
    destruct (scanLinks_OneRecord _ url depth
                (fun link st0 out0 st0' => IH link (depth + 1) st0 out0 st0')
                _ _ _ _ Hloop Ho2) as [Ho3 Hg3].
    split; [done|]. intros u Hu. by apply Hg3, Hg2.
  - apply (scanLinks_Returned _ url depth
             (fun link st0 out0 st0' => scanPage_Returned browser fuel Htabs
                                          link (depth + 1) st0 out0 st0')) in Hloop.
    done.
Qed.

(** When tabs open and close, a crawl returns and each URL has at most one
    record in [pages] and [errors] together. *)
Lemma crawl_one_record_per_url (browser : Browser) (url : string) :
  TabsWork browser ->
  exists st,
    crawl browser url = Some (Returned, st)
    /\ NoDup (map pr_url (pages (scanData st)) ++ map err_url (errors (scanData st))).
Proof.
  intros Htabs. destruct (crawl_returns browser url) as (out & st & Hcrawl).
  pose proof (scanPage_Returned browser _ Htabs _ _ _ _ _ Hcrawl) as ->.
  exists st. split; [done|].
  destruct (scanPage_OneRecord browser _ Htabs _ _ _ _ _ Hcrawl) as [[Hnd _] _]; [|done].
  split; [constructor|]. by intros u [].
Qed.

(** *** The properties of a crawl *)

Lemma distinct_le_length (urls : list string) : distinct urls <= length urls.
Proof.
  unfold distinct. induction urls as [|u urls IH]; simpl; [done|].
  destruct (in_dec string_dec u urls); simpl; lia.
Qed.

Lemma Within_UnderCeiling (n : nat) (sd : ScanData) :
  n <= maxPages -> Within n sd -> UnderCeiling sd.
Proof.
  intros Hn [Hrec Hcnt]. split; [lia|]. split; [|lia].
  pose proof (distinct_le_length (map pr_url (pages sd))).
  pose proof (distinct_le_length (map err_url (errors sd))).
  rewrite !length_map in *. lia.
Qed.

Lemma crawl_Grew (browser : Browser) (url : string) (out : Completion) (st : Crawl) :
  crawl browser url = Some (out, st) -> Grew (growth 0) freshCrawl st.
Proof. intros H. eapply scanPage_Grew; [exact H|apply Sync_fresh]. Qed.

Lemma crawl_UnderCeiling (browser : Browser) (url : string) (out : Completion) (st : Crawl) :
  crawl browser url = Some (out, st) ->
  AlwaysUnderCeiling (trace st) /\ UnderCeiling (scanData st).
Proof.
  intros (Hs & _ & Hhi & new & Ht & Hw)%crawl_Grew. simpl in *. subst new. split.
  - unfold AlwaysUnderCeiling. eapply Forall_impl; [exact Hw|].
    intros [sd|sd|? ? ? ?]; try done;
      apply Within_UnderCeiling; unfold maxPages, records; simpl; lia.
  - apply (Within_UnderCeiling 37); [unfold maxPages; lia|].
    destruct Hs as (_ & Hp & Hk). unfold records in Hhi. unfold Within.
    rewrite Hp, Hk. simpl in Hhi. lia.
Qed.

(** C3.  In every crawl, whatever the browser does, every aggregate the
    traversal goes through and hands to the session store, and the
    aggregate it ends with, has pagesProcessed + pagesSkipped at most 50, and
    at most 50 distinct URLs (indeed records) in [pages] and [errors]
    together; so has the aggregate [scanWebsite] leaves in the session. *)
Theorem page_ceiling (env : Puppeteer) (held : bool) (url : string) :
  (exists out st,
     crawl (browser env) url = Some (out, st)
     /\ AlwaysUnderCeiling (trace st)
     /\ UnderCeiling (scanData st))
  /\ (exists record ending,
        scanWebsite env held url = Some (record, ending)
        /\ UnderCeiling (scanDataOf record)).
Proof.
  destruct (crawl_returns (browser env) url) as (out & st & Hcrawl).
  destruct (crawl_UnderCeiling _ _ _ _ Hcrawl) as [Htrace Hfinal].
  assert (Hempty : UnderCeiling emptyScanData).
  { unfold UnderCeiling, distinct, maxPages. simpl. lia. }
  split; [by exists out, st|].
  unfold scanWebsite. rewrite Hcrawl.
  destruct (launch env); [|by eexists _, _].
  destruct out; eexists _, _; (split; [done|]); [|done].
  destruct Hfinal as (H1 & H2 & H3). by repeat split.
Qed.

(** The fan-out is what bounds a crawl, and its bound is reached: 31 pages
    visited and processed, 6 of them recorded as errors as well. *)
Lemma crawl_of_37_records :
  exists st,
    crawl fanOutBrowser "s" = Some (Returned, st)
    /\ length (visitedUrls st) = 31
    /\ pagesProcessed (scanData st) = 31
    /\ pagesSkipped (scanData st) = 6
    /\ length (pages (scanData st)) + length (errors (scanData st)) = 37.
Proof. eexists. split; [vm_compute; reflexivity|]. by vm_compute. Qed.

(** *** The calls of the loop *)

Lemma scanLinks_Enqueues (browser : Browser)
    (visit : string -> Crawl -> option (Completion * Crawl))
    (parent : string) (depth : nat) :
  (forall link st out st',
     visit link st = Some (out, st') -> Visits browser link (depth + 1) st out st') ->
  forall links st out st',
    scanLinks visit parent depth links st = Some (out, st') ->
    Enqueues browser parent depth links st out st'.
Proof.
  intros Hvisit. induction links as [|link rest IH]; intros st out st'; cbn [scanLinks].
  - intros [= <- <-]. constructor.
  - destruct (this_pagesProcessed st <? maxPages) eqn:Hlimit; nat_bools.
    + destruct (visit link _) as [[[|e] st1]|] eqn:Hv; [| |done]; intros H.
      * eapply enqueues_visit; [done|by apply Hvisit|by apply IH].
      * injection H as <- <-. apply enqueues_threw; [done|by apply Hvisit].
    + intros H. apply enqueues_full; [done|by apply IH].
Qed.

Lemma scanPage_Visits (browser : Browser) (fuel : nat) :
  forall url depth st out st',
    scanPage fuel browser url depth st = Some (out, st') ->
    Visits browser url depth st out st'.
Proof.
  induction fuel as [|fuel IH]; intros url depth st out st' H; [done|].
  apply scanPage_Frame in H.
  assert (Hexpands : forall pageData, expands depth pageData = true ->
            depth < 2 /\ internalLinks pageData <> []).
  { intros pageData [Hd Hl]%andb_true_iff. nat_bools. split; [done|].
    intros Hnil. rewrite Hnil in Hl. simpl in Hl. lia. }
  destruct H as [Hskip|e Hskip Hb|e closing Hskip Hb|pageData closing Hskip Hb Hexp
                 |pageData closing st3 Hskip Hb Hexp Hloop
                 |pageData closing e st3 Hskip Hb Hexp Hloop].
  - by constructor.
  - by constructor.
  - by constructor.
  - apply visits_leaf; [done|done|].
    apply andb_false_iff in Hexp as [Hd|Hl]; nat_bools; [by left|right].
    destruct (internalLinks pageData); [done|simpl in Hl; lia].
  - destruct (Hexpands _ Hexp) as [Hd Hl].
    eapply visits_links; [done|done|done|done|].
    eapply scanLinks_Enqueues; [|exact Hloop]. intros link st0 out0 st0'. apply IH.
  - destruct (Hexpands _ Hexp) as [Hd Hl].
    eapply visits_links_threw; [done|done|done|done|].
    eapply scanLinks_Enqueues; [|exact Hloop]. intros link st0 out0 st0'. apply IH.
Qed.

(** C9.  Every call of [scanPage], and so every crawl, is a visit as the
    specification words it: a page enqueues links only when it rendered, in
    the tab opened for it, at a depth below 2, and then the first five of
    its internal links, each for a visit at its own depth plus one.  In
    every crawl no page has more than five calls of the loop made from it;
    and a call of [scanPage] at depth 2 or more, wherever it is made, makes
    none. *)
Theorem link_expansion_bounded (browser : Browser) (url : string) :
  (exists out st,
     crawl browser url = Some (out, st)
     /\ Visits browser url 0 freshCrawl out st
     /\ forall page, expansionsOf page (trace st) <= 5)
  /\ (forall fuel page depth st out st',
        scanPage fuel browser page depth st = Some (out, st') ->
        Visits browser page depth st out st')
  /\ (forall fuel page depth st out st',
        2 <= depth ->
        scanPage fuel browser page depth st = Some (out, st') ->
        forall parent, expansionsOf parent (trace st') = expansionsOf parent (trace st)).
Proof.
  split; [|split].
  - destruct (crawl_returns browser url) as (out & st & Hcrawl).
    exists out, st. split; [done|]. split; [by eapply scanPage_Visits|].
    destruct (scanPage_Links _ _ _ _ _ _ _ Hcrawl) as (new & Ht & _ & Hf).
    simpl in Ht. subst new. intros page. apply (Hf page).
  - intros fuel. apply scanPage_Visits.
  - intros fuel page depth st out st' Hd H parent.
    destruct (scanPage_deep _ _ _ _ _ _ _ Hd H) as (new & -> & Hq).
    rewrite expansionsOf_app, (expansionsOf_quiet parent new Hq). lia.
Qed.

(** C5, as stated, fails: the navigation of the seed fails and closing its
    tab fails too.  The [catch] block records the page, but [page.close()]
    throws out of the [finally] block: the call of [scanPage] throws, the
    traversal does not go on, and [scanWebsite] leaves a failed session
    without the error entry. *)
Lemma page_failure_with_failing_close_aborts :
  skips seedUrl 0 freshCrawl = false
  /\ disconnectingBrowser (length (visitedUrls freshCrawl)) seedUrl
     = VisitThrows disconnected (Threw connectionClosed)
  /\ (forall st', crawl disconnectingBrowser seedUrl <> Some (Returned, st'))
  /\ scanWebsite disconnectingEnv false seedUrl
     = Some (SessionFailed
               "Protocol error: Connection closed. Most likely the page has been closed."
               emptyScanData,
             (Returned, false))
  /\ errors emptyScanData = [].
Proof.
  split; [reflexivity|]. split; [reflexivity|]. split; [|split; reflexivity].
  intros st'. vm_compute. discriminate.
Qed.

(** C5, amended.  When the visit of a page throws in its [try] block
    (navigation timeout, render error) and the tab then closes, the call of
    [scanPage] returns to its caller with one entry {url, reason} appended to
    [errors], [pagesSkipped] one higher, and [pages] and the processed
    counters as they were; the loop of the calling page goes on with its next
    link; and when the page is the seed, [scanWebsite] completes the session
    all the same. *)
Theorem page_failure_is_skipped (browser : Browser) (fuel : nat) (url : string)
    (depth : nat) (st : Crawl) (e : Thrown) :
  skips url depth st = false ->
  browser (length (visitedUrls st)) url = VisitThrows e Returned ->
  exists st',
    scanPage (S fuel) browser url depth st = Some (Returned, st')
    /\ errors (scanData st')
       = errors (scanData st) ++ [{| err_url := url; err_reason := messageOf e |}]
    /\ pagesSkipped (scanData st') = pagesSkipped (scanData st) + 1
    /\ pages (scanData st') = pages (scanData st)
    /\ pagesProcessed (scanData st') = pagesProcessed (scanData st)
    /\ this_pagesProcessed st' = this_pagesProcessed st
    /\ (forall parent d rest st0,
          depth = d + 1 ->
          st = logEvent (Expanded parent d url (d + 1)) st0 ->
          this_pagesProcessed st0 < maxPages ->
          scanLinks (fun link s => scanPage (S fuel) browser link (d + 1) s)
                    parent d (url :: rest) st0
          = scanLinks (fun link s => scanPage (S fuel) browser link (d + 1) s)
                      parent d rest st')
    /\ (forall env held,
          LightweightScraper.browser env = browser -> launch env = Returned ->
          depth = 0 -> st = freshCrawl ->
          scanWebsite env held url
          = Some (SessionCompleted (finalize (isoNow env) (scanData st')),
                  finallyClose env true)).
Proof.
  intros Hskip Hb. exists (recordError url e (addVisited url st)).
  pose proof (fun fuel => scanPage_visit_throws fuel browser url depth st e Returned Hskip Hb)
    as Hcall.
  split; [apply Hcall|]. do 5 (split; [done|]). split.
  - intros parent d rest st0 -> -> Hlt. cbn [scanLinks].
    replace (this_pagesProcessed st0 <? maxPages) with true
      by (symmetry; by apply Nat.ltb_lt).
    by rewrite Hcall.
  - intros env held <- Hlaunch -> ->. unfold scanWebsite, crawl, crawlFuel.
    by rewrite Hlaunch, Hcall.
Qed.

(** A navigation timeout at the seed. *)
Lemma page_failure_is_skipped_witness :
  skips seedUrl 0 freshCrawl = false
  /\ timeoutBrowser (length (visitedUrls freshCrawl)) seedUrl
     = VisitThrows navigationTimeout Returned
  /\ exists st',
       scanPage 3 timeoutBrowser seedUrl 0 freshCrawl = Some (Returned, st')
       /\ errors (scanData st')
          = [{| err_url := seedUrl;
                err_reason := "Navigation timeout of 30000 ms exceeded" |}]
       /\ pagesSkipped (scanData st') = 1
       /\ pages (scanData st') = [].
Proof.
  split; [reflexivity|]. split; [reflexivity|].
  destruct (page_failure_is_skipped timeoutBrowser 2 seedUrl 0 freshCrawl
              navigationTimeout eq_refl eq_refl)
    as (st' & Hcall & Herrors & Hskipped & Hpages & _).
  exists st'. split; [exact Hcall|]. split; [exact Herrors|].
  split; [exact Hskipped|exact Hpages].
Defined.

(** C2, at the failing input: the seed renders with one internal link and
    the tab for that link cannot be opened.  The exception of the nested
    call is caught by the [catch] block of the seed, so the session completes
    with the seed both in [pages] and in [errors]: its URL appears twice
    across the two. *)
Theorem seed_recorded_twice :
  exists sd,
    scanWebsite crashingEnv false seedUrl
    = Some (SessionCompleted sd, (Returned, false))
    /\ map pr_url (pages sd) = [seedUrl]
    /\ map err_url (errors sd) = [seedUrl]
    /\ pagesProcessed sd = 1 /\ pagesSkipped sd = 1 /\ totalPages sd = 2
    /\ ~ NoDup (map pr_url (pages sd) ++ map err_url (errors sd)).
Proof.
  eexists. split; [vm_compute; reflexivity|]. simpl.
  do 5 (split; [reflexivity|]).
  intros Hnd. apply NoDup_cons in Hnd as [Hnotin _]. apply Hnotin. by left.
Qed.

End CrawlProps.

(** * Properties of the scheduler *)

Module QueueProps.
Import Js InMemoryQueue QueueSpec Examples.
Local Open Scope list_scope.

(** *** Counting by status *)

Lemma Status_eqb_eq (a b : Status) : Status_eqb a b = true <-> a = b.
Proof. destruct a, b; simpl; split; congruence. Qed.

Lemma countStatus_cons (s : Status) (job : QueueJob) (jobs : list QueueJob) :
  countStatus s (job :: jobs)
  = (if Status_eqb (status job) s then 1 else 0) + countStatus s jobs.
Proof. unfold countStatus. simpl. by destruct (Status_eqb (status job) s). Qed.

Lemma countStatus_partition (jobs : list QueueJob) :
  length jobs = countStatus pending jobs + countStatus processing jobs
                + countStatus completed jobs + countStatus failed jobs.
Proof.
  induction jobs as [|job jobs IH]; [done|].
  rewrite !countStatus_cons. simpl length. rewrite IH.
  destruct (status job); simpl; lia.
Qed.

(** C10.  In every state of the queue each job has exactly one of the four
    statuses, and the snapshot of [getQueueStats] has
    total = pending + processing + completed + failed. *)
Theorem getQueueStats_total (q : State) :
  Forall (fun job => status job = pending \/ status job = processing
                     \/ status job = completed \/ status job = failed) (values q)
  /\ stat_total (getQueueStats q)
     = stat_pending (getQueueStats q) + stat_processing (getQueueStats q)
       + stat_completed (getQueueStats q) + stat_failed (getQueueStats q).
Proof.
  split.
  - apply Forall_forall. intros job _. destruct (status job); tauto.
  - apply countStatus_partition.
Qed.

(** *** The stable sort and its first element *)

Section Sort.
Context {A : Type} (key : A -> Z).
Local Abbreviation byKey := (QueueSpec.byKey key).
Local Abbreviation Earliest := (QueueSpec.Earliest key).

Lemma head_sortInsert (x : A) (l : list A) :
  head (sortInsert byKey x l)
  = match head l with
    | Some y => if (key x <=? key y)%Z then Some x else Some y
    | None => Some x
    end.
Proof.
  destruct l as [|y rest]; simpl; [done|]. unfold byKey.
  destruct (Z.leb_spec (key x - key y) 0), (Z.leb_spec (key x) (key y)); try lia; done.
Qed.

Lemma head_sort_Earliest (l : list A) (first : A) :
  head (sort byKey l) = Some first -> Earliest first l.
Proof.
  revert first. induction l as [|x rest IH]; intros first; simpl; [done|].
  rewrite head_sortInsert.
  destruct (head (sort byKey rest)) as [y|] eqn:Hy.
  - destruct (IH y eq_refl) as (before & after & -> & Hb & Ha).
    destruct (Z.leb_spec (key x) (key y)); intros [= <-].
    + exists [], (before ++ y :: after). repeat split; [constructor|].
      apply Forall_app. split.
      * eapply Forall_impl; [exact Hb|]. simpl. intros; lia.
      * constructor; [lia|]. eapply Forall_impl; [exact Ha|]. simpl. intros; lia.
    + exists (x :: before), after. repeat split; [|done].
      constructor; [lia|done].
  - intros [= <-]. destruct rest as [|y rest'].
    + exists [], []. repeat split; constructor.
    + simpl in Hy. destruct (sort byKey rest'); simpl in Hy; [done|].
      by destruct (_ <=? _)%Z.
Qed.

Lemma head_sort_None (l : list A) : head (sort byKey l) = None -> l = [].
Proof.
  destruct l as [|x rest]; [done|]. simpl. rewrite head_sortInsert.
  destruct (head (sort byKey rest)); [|done]. by destruct (_ <=? _)%Z.
Qed.

End Sort.

Lemma filter_split {A} (P : A -> bool) (l : list A) (x : A) (before after : list A) :
  List.filter P l = before ++ x :: after ->
  exists before' after',
    l = before' ++ x :: after' /\ P x = true
    /\ List.filter P before' = before /\ List.filter P after' = after.
Proof.
  revert before. induction l as [|y l IH]; intros before; simpl.
  - by destruct before.
  - destruct (P y) eqn:Hy.
    + destruct before as [|b before]; simpl; intros [= -> H].
      * exists [], l. by rewrite Hy.
      * destruct (IH _ H) as (b' & a' & -> & Hx & Hb & Ha).
        exists (b :: b'), a'. simpl. rewrite Hy. by subst.
    + intros H. destruct (IH _ H) as (b' & a' & -> & Hx & Hb & Ha).
      exists (y :: b'), a'. simpl. by rewrite Hy.
Qed.

Lemma Forall_filter_bool {A} (P : A -> bool) (Q : A -> Prop) (l : list A) :
  Forall Q (List.filter P l) -> Forall (fun x => P x = true -> Q x) l.
Proof.
  induction l as [|y l IH]; simpl; [constructor|].
  destruct (P y) eqn:Hy.
  - intros H. apply Forall_cons in H as [H1 H2]. constructor; auto.
  - intros H. constructor; [congruence|auto].
Qed.

Lemma pendingJobs_head (q : State) (job : nat) :
  head (pendingJobs q) = Some job ->
  isPending (heap q) job = true /\ EarliestPending q job.
Proof.
  unfold pendingJobs. intros H.
  apply (head_sort_Earliest (createdAtOf (heap q))) in H
    as (before & after & Hf & Hb & Ha).
  apply filter_split in Hf as (before' & after' & Hr & Hp & <- & <-).
  split; [done|].
  apply Forall_filter_bool in Hb, Ha.
  unfold isPending in Hp. destruct (heap q !! job) as [picked|] eqn:Hj; [|done].
  apply Status_eqb_eq in Hp.
  exists picked, before', after'. split; [done|]. split; [done|]. split; [done|].
  split; (eapply Forall_impl; [eassumption|]); intros r Hlt other Ho Hs;
    unfold isPending, createdAtOf in Hlt; rewrite Ho, Hj, Hs in Hlt; by apply Hlt.
Qed.

Lemma pendingJobs_nil (q : State) :
  pendingJobs q = [] -> Forall (fun r => isPending (heap q) r = false) (refs q).
Proof.
  unfold pendingJobs. intros H.
  assert (Hf : List.filter (isPending (heap q)) (refs q) = []).
  { apply (head_sort_None (createdAtOf (heap q))).
    change (byKey (createdAtOf (heap q))) with (byCreatedAt (heap q)). by rewrite H. }
  revert Hf. generalize (refs q). induction l as [|r l IH]; simpl; [constructor|].
  destruct (isPending (heap q) r) eqn:Hr; [done|]. constructor; auto.
Qed.

(** *** The [Map] and its references *)

Lemma refs_mapSet (key : string) (ref : nat) (m : list (string * nat)) :
  exists before after,
    (map snd m = before ++ after \/ exists old, map snd m = before ++ old :: after)
    /\ map snd (mapSet key ref m) = before ++ ref :: after.
Proof.
  induction m as [|[k r] m (before & after & Hm & IH)]; simpl.
  - exists [], []. split; [by left|done].
  - destruct (String.eqb k key); simpl.
    + exists [], (map snd m). split; [right; by exists r|done].
    + exists (r :: before), after. rewrite IH. split; [|done].
      destruct Hm as [->|[old ->]]; [by left|right; by exists old].
Qed.

Lemma NoDup_mapSet (key : string) (ref : nat) (m : list (string * nat)) :
  NoDup (map snd m) -> ref ∉ map snd m -> NoDup (map snd (mapSet key ref m)).
Proof.
  intros Hnd Hfresh.
  destruct (refs_mapSet key ref m) as (before & after & Hm & ->).
  destruct Hm as [Hm|[old Hm]]; rewrite Hm in Hnd, Hfresh.
  - apply NoDup_app in Hnd as (Hb & Hba & Ha).
    apply NoDup_app. split; [done|]. split.
    + intros x Hx [->|Hx']%elem_of_cons; [|by eapply Hba].
      apply Hfresh, elem_of_app. by left.
    + apply NoDup_cons. split; [|done].
      intros Hx. apply Hfresh, elem_of_app. by right.
  - apply NoDup_app in Hnd as (Hb & Hba & Ha).
    apply NoDup_cons in Ha as [Hold Ha].
    apply NoDup_app. split; [done|]. split.
    + intros x Hx [->|Hx']%elem_of_cons.
      * apply Hfresh, elem_of_app. by left.
      * eapply Hba; [done|]. by right.
    + apply NoDup_cons. split; [|done].
      intros Hx. apply Hfresh, elem_of_app. right. by right.
Qed.

Lemma elem_of_refs_mapSet (key : string) (ref x : nat) (m : list (string * nat)) :
  x ∈ map snd (mapSet key ref m) -> x = ref \/ x ∈ map snd m.
Proof.
  destruct (refs_mapSet key ref m) as (before & after & Hm & ->).
  intros [Hx|[->|Hx]%elem_of_cons]%elem_of_app; [|by left|];
    right; destruct Hm as [->|[old ->]]; rewrite elem_of_app; try tauto.
  right. by right.
Qed.

Lemma refs_mapDelete (key : string) (m : list (string * nat)) :
  sublist (map snd (mapDelete key m)) (map snd m).
Proof.
  induction m as [|[k r] m IH]; simpl; [done|].
  destruct (negb (String.eqb k key)); simpl.
  - by apply sublist_skip.
  - by apply sublist_cons.
Qed.

(** *** The invariant of the scheduler *)

Lemma lookup_alter_cases (f : QueueJob -> QueueJob) (r r' : nat) (h : list QueueJob)
    (j' : QueueJob) :
  alter f r h !! r' = Some j' ->
  (r' = r /\ exists j, h !! r = Some j /\ j' = f j) \/ (r' <> r /\ h !! r' = Some j').
Proof.
  destruct (decide (r' = r)) as [->|Hne].
  - rewrite list_lookup_alter_eq. destruct (h !! r) as [j|]; intros; simplify_eq/=.
    left. eauto.
  - rewrite list_lookup_alter_ne by done. auto.
Qed.

Lemma HeapOk_setStatus (s : Status) (r : nat) (h : list QueueJob) :
  HeapOk h -> s <> failed ->
  (forall j, h !! r = Some j -> status j <> failed) ->
  HeapOk (alter (setStatus s) r h).
Proof.
  intros Hh Hs Hr r' j' [[-> (j & Hj & ->)]|[_ Hj]]%lookup_alter_cases; [|by eapply Hh].
  destruct (Hh _ _ Hj) as [Hle Hiff]. simpl. split; [done|].
  split; [done|]. intros H3. exfalso. eapply Hr; [done|]. by apply Hiff.
Qed.

Lemma Quiet_inv (q : State) (c : Coroutine) :
  Inv q -> coroutines q = [c] -> (forall r, c <> AwaitingExecute r) -> Quiet (heap q).
Proof.
  intros HI Hc Hne r j Hj Hp.
  pose proof (inv_processing q HI r j Hj Hp) as H. rewrite Hc in H.
  injection H as ->. by eapply Hne.
Qed.

Lemma Quiet_idle (q : State) : Inv q -> coroutines q = [] -> Quiet (heap q).
Proof.
  intros HI Hc r j Hj Hp.
  pose proof (inv_processing q HI r j Hj Hp) as H. by rewrite Hc in H.
Qed.

(** What one pass of the loop does. *)
Lemma whileLoop_cases (q : State) :
  (exists job, whileLoop q
               = (mutateJob (setStatus processing) job q, Some (AwaitingExecute job))
               /\ isPending (heap q) job = true
               /\ EarliestPending q job)
  \/ (whileLoop q = (withProcessing false q, None)
      /\ Forall (fun r => isPending (heap q) r = false) (refs q)).
Proof.
  unfold whileLoop.
  destruct (0 <? length (queue q)) eqn:Hsize.
  - destruct (pendingJobs q) as [|job rest] eqn:Hp.
    + right. split; [done|]. by apply pendingJobs_nil.
    + left. exists job. split; [done|]. apply pendingJobs_head. by rewrite Hp.
  - right. split; [done|]. nat_bools. unfold refs.
    destruct (queue q); simpl in *; [constructor|lia].
Qed.

Lemma isPending_lookup (h : list QueueJob) (r : nat) :
  isPending h r = true -> exists j, h !! r = Some j /\ status j = pending.
Proof.
  unfold isPending. destruct (h !! r) as [j|]; [|done].
  intros H%Status_eqb_eq. eauto.
Qed.

(** A state in which the loop just took [job]. *)
Lemma Inv_picked (h : list QueueJob) (m : list (string * nat)) (ts : list nat)
    (job : nat) (j : QueueJob) :
  HeapOk h -> RefsOk h m -> Quiet h ->
  h !! job = Some j -> status j = pending ->
  Inv {| heap := alter (setStatus processing) job h; queue := m;
         this_processing := true; coroutines := [AwaitingExecute job];
         timers := ts |}.
Proof.
  intros Hh [Hnd Hval] Hq Hj Hp. constructor; simpl.
  - apply HeapOk_setStatus; [done|done|]. intros j0 Hj0. congruence.
  - split; [done|]. intros r Hr. rewrite length_alter. auto.
  - right. eauto.
  - intros r j' [[-> _]|[_ Hj']]%lookup_alter_cases Hs; [done|].
    by destruct (Hq _ _ Hj').
  - intros r [= <-]. unfold statusOf. by rewrite list_lookup_alter_eq, Hj.
Qed.

(** A state in which no loop runs. *)
Lemma Inv_idle (h : list QueueJob) (m : list (string * nat)) (ts : list nat) :
  HeapOk h -> RefsOk h m -> Quiet h ->
  Inv {| heap := h; queue := m; this_processing := false;
         coroutines := []; timers := ts |}.
Proof.
  intros Hh Hr Hq. constructor; simpl; try done.
  - by left.
  - intros r j Hj Hs. by destruct (Hq _ _ Hj).
Qed.

(** A state in which the loop waits for the retry delay. *)
Lemma Inv_delayed (h : list QueueJob) (m : list (string * nat)) (ts : list nat)
    (job : nat) :
  HeapOk h -> RefsOk h m -> Quiet h ->
  Inv {| heap := h; queue := m; this_processing := true;
         coroutines := [AwaitingDelay job]; timers := ts |}.
Proof.
  intros Hh Hr Hq. constructor; simpl; try done.
  - right. eauto.
  - intros r j Hj Hs. by destruct (Hq _ _ Hj).
Qed.

Lemma Inv_park_whileLoop (h : list QueueJob) (m : list (string * nat))
    (c : Coroutine) (ts : list nat) :
  HeapOk h -> RefsOk h m -> Quiet h ->
  Inv (park 0 (whileLoop {| heap := h; queue := m; this_processing := true;
                            coroutines := [c]; timers := ts |})).
Proof.
  intros Hh Hr Hq.
  destruct (whileLoop_cases {| heap := h; queue := m; this_processing := true;
                               coroutines := [c]; timers := ts |})
    as [(job & -> & Hp & _)|[-> _]]; simpl.
  - apply isPending_lookup in Hp as (j & Hj & Hs). simpl in Hj.
    unfold withCoroutines, mutateJob, withHeap. simpl. by eapply Inv_picked.
  - unfold withCoroutines. simpl. by apply Inv_idle.
Qed.

Lemma Inv_processQueue (h : list QueueJob) (m : list (string * nat))
    (b : bool) (ts : list nat) :
  HeapOk h -> RefsOk h m -> Quiet h ->
  Inv (processQueue {| heap := h; queue := m; this_processing := b;
                       coroutines := []; timers := ts |}).
Proof.
  intros Hh Hr Hq. unfold processQueue, withProcessing. simpl.
  destruct (whileLoop_cases {| heap := h; queue := m; this_processing := true;
                               coroutines := []; timers := ts |})
    as [(job & -> & Hp & _)|[-> _]]; simpl.
  - apply isPending_lookup in Hp as (j & Hj & Hs). simpl in Hj.
    unfold withCoroutines, mutateJob, withHeap. simpl. by eapply Inv_picked.
  - by apply Inv_idle.
Qed.

Lemma HeapOk_alter (f : QueueJob -> QueueJob) (r : nat) (h : list QueueJob) :
  HeapOk h ->
  (forall j, h !! r = Some j ->
     attempts (f j) <= 3 /\ (status (f j) = failed <-> attempts (f j) = 3)) ->
  HeapOk (alter f r h).
Proof.
  intros Hh Hf r' j' [[-> (j & Hj & ->)]|[_ Hj]]%lookup_alter_cases; eauto.
Qed.

Lemma Quiet_alter (f : QueueJob -> QueueJob) (r : nat) (h : list QueueJob) :
  (forall r' j', h !! r' = Some j' -> status j' = processing -> r' = r) ->
  (forall j, h !! r = Some j -> status (f j) <> processing) ->
  Quiet (alter f r h).
Proof.
  intros Hone Hf r' j' [[-> (j & Hj & ->)]|[Hne Hj]]%lookup_alter_cases Hs.
  - by eapply Hf.
  - apply Hne. by eapply Hone.
Qed.

Lemma RefsOk_alter (f : QueueJob -> QueueJob) (r : nat) (h : list QueueJob)
    (m : list (string * nat)) :
  RefsOk h m -> RefsOk (alter f r h) m.
Proof. intros [Hnd Hval]. split; [done|]. intros x Hx. rewrite length_alter. auto. Qed.

Lemma RefsOk_sublist (h : list QueueJob) (m m' : list (string * nat)) :
  RefsOk h m -> sublist (map snd m') (map snd m) -> RefsOk h m'.
Proof.
  intros [Hnd Hval] Hsub. split.
  - by eapply sublist_NoDup.
  - intros r Hr. apply Hval. by eapply elem_of_sublist.
Qed.

(** Changing the map to fewer entries and the timers keeps the invariant. *)
Lemma Inv_fewer_entries (q : State) (m' : list (string * nat)) (ts' : list nat) :
  Inv q -> sublist (map snd m') (map snd (queue q)) ->
  Inv {| heap := heap q; queue := m'; this_processing := this_processing q;
         coroutines := coroutines q; timers := ts' |}.
Proof.
  intros [Hh Hr Hf Hp He] Hsub. constructor; simpl; try done.
  by eapply RefsOk_sublist.
Qed.

Lemma Inv_add (jobData : ScanJob) (jobId : string) (now : Z) (q : State) :
  Inv q -> Inv (snd (add jobData jobId now q)).
Proof.
  intros HI. destruct HI as [Hh [Hnd Hval] Hf Hp He].
  destruct q as [h m b cs ts]. simpl in *.
  set (job := {| id := jobId; data := jobData; status := pending;
                 createdAt := now; attempts := 0 |}).
  assert (Hh' : HeapOk (h ++ [job])).
  { intros r j [Hj|[_ Hj]]%lookup_app_Some; [by eapply Hh|].
    destruct (r - length h); simpl in Hj; [|done].
    injection Hj as <-. simpl. split; [lia|]. split; [done|lia]. }
  assert (Hr' : RefsOk (h ++ [job]) (mapSet jobId (length h) m)).
  { split.
    - apply NoDup_mapSet; [done|]. intros Hin%Hval. lia.
    - intros r [->|Hin%Hval]%elem_of_refs_mapSet; rewrite length_app; simpl; lia. }
  assert (Hnew : forall r j, (h ++ [job]) !! r = Some j -> status j = processing ->
                  h !! r = Some j).
  { intros r j [Hj|[_ Hj]]%lookup_app_Some Hs; [done|].
    destruct (r - length h); simpl in Hj; [|done]. by injection Hj as <-. }
  unfold withQueue, withHeap. simpl.
  destruct Hf as [[-> ->]|(c & -> & ->)]; simpl.
  - apply Inv_processQueue; [done|done|].
    intros r j Hj Hs. specialize (Hp r j (Hnew _ _ Hj Hs) Hs). done.
  - constructor; simpl; try done.
    + right. eauto.
    + intros r j Hj Hs. eauto.
    + intros r Hc. specialize (He r Hc). unfold statusOf in *.
      destruct (h !! r) as [j|] eqn:Hj; [|done].
      by rewrite (lookup_app_l_Some _ _ _ _ Hj).
Qed.

Lemma Inv_executeSettled (job : nat) (outcome : Completion) (q : State) :
  Inv q -> coroutines q = [AwaitingExecute job] ->
  Inv (park 0 (afterExecute job outcome q)).
Proof.
  intros HI Hc. destruct HI as [Hh Hr Hf Hp He].
  destruct q as [h m b cs ts]. simpl in *. subst cs.
  destruct Hf as [[? _]|(c & _ & ->)]; [done|].
  specialize (He job eq_refl). unfold statusOf in He.
  destruct (h !! job) as [j|] eqn:Hj; [|done]. injection He as Hs.
  assert (Hone : forall r' j', h !! r' = Some j' -> status j' = processing -> r' = job).
  { intros r' j' Hj' Hs'. specialize (Hp _ _ Hj' Hs'). congruence. }
  destruct (Hh _ _ Hj) as [Hle Hiff].
  assert (Hlt : attempts j < 3).
  { destruct (decide (attempts j = 3)) as [H3|]; [|lia].
    apply Hiff in H3. congruence. }
  destruct outcome as [|e]; simpl.
  - unfold setCleanupTimer, mutateJob, withTimers, withHeap. simpl.
    apply Inv_park_whileLoop.
    + apply HeapOk_setStatus; [done|done|]. intros j0 Hj0. congruence.
    + by apply RefsOk_alter.
    + apply Quiet_alter; [done|]. done.
  - unfold mutateJob, withHeap. simpl.
    rewrite list_lookup_alter_eq, Hj. simpl.
    destruct (attempts j + 1 <? 3) eqn:Hretry; nat_bools.
    + unfold park, withCoroutines. simpl. rewrite list_alter_alter_eq.
      apply Inv_delayed.
      * apply HeapOk_alter; [done|]. intros j0 Hj0. simpl.
        assert (j0 = j) as -> by congruence. split; [lia|]. split; [done|lia].
      * by apply RefsOk_alter.
      * apply Quiet_alter; [done|]. done.
    + unfold setCleanupTimer, withTimers. simpl. rewrite list_alter_alter_eq.
      apply Inv_park_whileLoop.
      * apply HeapOk_alter; [done|]. intros j0 Hj0. simpl.
        assert (j0 = j) as -> by congruence. split; [lia|]. split; [lia|done].
      * by apply RefsOk_alter.
      * apply Quiet_alter; [done|]. done.
Qed.

Lemma Inv_delayElapsed (job : nat) (q : State) :
  Inv q -> coroutines q = [AwaitingDelay job] -> Inv (park 0 (whileLoop q)).
Proof.
  intros HI Hc. pose proof (Quiet_inv q _ HI Hc) as Hq.
  destruct HI as [Hh Hr Hf Hp He].
  destruct q as [h m b cs ts]. simpl in *. subst cs.
  destruct Hf as [[? _]|(c & _ & ->)]; [done|].
  apply Inv_park_whileLoop; [done|done|]. by apply Hq.
Qed.

Lemma Inv_cleanup (now : Z) (q : State) : Inv q -> Inv (cleanup now q).
Proof.
  unfold cleanup. generalize (queue q) at 1. intros entries. revert q.
  induction entries as [|entry entries IH]; intros q HI; simpl; [done|].
  apply IH. destruct (heap q !! entry.2) as [job|]; [|done].
  destruct (_ && _); [|done].
  destruct q as [h m b cs ts]. apply (Inv_fewer_entries _ _ ts HI).
  apply refs_mapDelete.
Qed.

Lemma Inv_initial : Inv initial.
Proof. apply Inv_idle; [by intros [|?] ? | | by intros [|?] ?]. split; [constructor|]. by intros r ?%elem_of_nil. Qed.

Lemma Inv_step (q : State) (ev : Event) : Inv q -> Inv (step q ev).
Proof.
  intros HI. destruct ev as [jobData jobId now|k outcome|k|n|now]; simpl.
  - by apply Inv_add.
  - destruct (coroutines q !! k) as [[job|job]|] eqn:Hk; try done.
    destruct (inv_flag q HI) as [[Hc _]|(c & Hc & _)]; rewrite Hc in Hk; [done|].
    destruct k; simpl in Hk; [|done]. injection Hk as ->.
    by apply Inv_executeSettled.
  - destruct (coroutines q !! k) as [[job|job]|] eqn:Hk; try done.
    destruct (inv_flag q HI) as [[Hc _]|(c & Hc & _)]; rewrite Hc in Hk; [done|].
    destruct k; simpl in Hk; [|done]. injection Hk as ->.
    by eapply Inv_delayElapsed.
  - destruct (timers q !! n) as [ref|]; [|done]. simpl.
    destruct (heap q !! ref) as [job|].
    + apply (Inv_fewer_entries q); [done|]. apply refs_mapDelete.
    + by apply (Inv_fewer_entries q).
  - by apply Inv_cleanup.
Qed.

Lemma run_snoc (events : list Event) (ev : Event) :
  run (events ++ [ev]) = step (run events) ev.
Proof. unfold run. by rewrite fold_left_app. Qed.

Lemma run_app (events more : list Event) :
  run (events ++ more) = fold_left step more (run events).
Proof. unfold run. by rewrite fold_left_app. Qed.

Lemma Inv_run (events : list Event) : Inv (run events).
Proof.
  induction events as [|ev events IH] using rev_ind; [apply Inv_initial|].
  rewrite run_snoc. by apply Inv_step.
Qed.

(** Every entry of the map holds a job object: the total of
    [getQueueStats] is the size of the map. *)
Lemma stat_total_size (events : list Event) :
  stat_total (getQueueStats (run events)) = length (queue (run events)).
Proof.
  destruct (inv_refs _ (Inv_run events)) as [_ Hval]. simpl.
  unfold values, refs in *. revert Hval.
  generalize (heap (run events)). intros h.
  induction (queue (run events)) as [|[k r] m IH]; intros Hval; simpl; [done|].
  destruct (lookup_lt_is_Some_2 h r) as [j ->]; [apply Hval; by left|].
  simpl. f_equal. apply IH. intros x Hx. apply Hval. by right.
Qed.

(** *** Single flight *)

Lemma countStatus_none (s : Status) (h : list QueueJob) (l : list nat) :
  (forall r j, r ∈ l -> h !! r = Some j -> status j <> s) ->
  countStatus s (omap (fun r => h !! r) l) = 0.
Proof.
  induction l as [|r l IH]; intros Hno; [done|]. simpl.
  destruct (h !! r) as [j|] eqn:Hj.
  - rewrite countStatus_cons.
    destruct (Status_eqb (status j) s) eqn:Hs.
    + apply Status_eqb_eq in Hs. destruct (Hno r j); [by left|done|done].
    + simpl. apply IH. intros r' j' Hr'. apply Hno. by right.
  - apply IH. intros r' j' Hr'. apply Hno. by right.
Qed.

Lemma countStatus_at_most_one (s : Status) (h : list QueueJob) (l : list nat) :
  NoDup l ->
  (forall r r' j j', h !! r = Some j -> h !! r' = Some j' ->
     status j = s -> status j' = s -> r = r') ->
  countStatus s (omap (fun r => h !! r) l) <= 1.
Proof.
  intros Hnd Hone. induction Hnd as [|r l Hr Hnd IH]; simpl; [unfold countStatus; simpl; lia|].
  destruct (h !! r) as [j|] eqn:Hj; [|done].
  rewrite countStatus_cons.
  destruct (Status_eqb (status j) s) eqn:Hs. 2:{ exact IH. }
  apply Status_eqb_eq in Hs.
  rewrite countStatus_none; [lia|].
  intros r' j' Hr' Hj' Hs'. apply Hr.
  by rewrite (Hone r r' j j' Hj Hj' Hs Hs').
Qed.

Lemma Inv_one_processing (q : State) (r r' : nat) (j j' : QueueJob) :
  Inv q -> heap q !! r = Some j -> heap q !! r' = Some j' ->
  status j = processing -> status j' = processing -> r = r'.
Proof.
  intros HI Hj Hj' Hs Hs'.
  pose proof (inv_processing q HI _ _ Hj Hs) as H1.
  pose proof (inv_processing q HI _ _ Hj' Hs') as H2. congruence.
Qed.

(** C1.  After every history of [add] calls, settled crawls, elapsed
    delays, fired timers and [cleanup] calls, at most one job of the queue
    has status [processing]: the processing count of [getQueueStats] is 0
    or 1. *)
Theorem single_flight (events : list Event) :
  (forall r r', r ∈ refs (run events) -> r' ∈ refs (run events) ->
     statusOf (heap (run events)) r = Some processing ->
     statusOf (heap (run events)) r' = Some processing -> r = r')
  /\ (stat_processing (getQueueStats (run events)) = 0
      \/ stat_processing (getQueueStats (run events)) = 1).
Proof.
  pose proof (Inv_run events) as HI. split.
  - intros r r' _ _. unfold statusOf.
    destruct (heap (run events) !! r) as [j|] eqn:Hj; [|done].
    destruct (heap (run events) !! r') as [j'|] eqn:Hj'; [|done].
    simpl. intros [= Hs] [= Hs']. by eapply Inv_one_processing.
  - assert (stat_processing (getQueueStats (run events)) <= 1); [|lia].
    simpl. unfold values. apply countStatus_at_most_one.
    + apply (inv_refs _ HI).
    + intros r r' j j'. by apply Inv_one_processing.
Qed.

(** *** Retries *)

Lemma Grows_refl (h : list QueueJob) : Grows h h.
Proof. intros r j Hj. eauto. Qed.

Lemma Grows_trans (h1 h2 h3 : list QueueJob) : Grows h1 h2 -> Grows h2 h3 -> Grows h1 h3.
Proof.
  intros H12 H23 r j Hj. destruct (H12 _ _ Hj) as (j2 & Hj2 & Hle).
  destruct (H23 _ _ Hj2) as (j3 & Hj3 & Hle'). exists j3. split; [done|lia].
Qed.

Lemma Grows_alter (f : QueueJob -> QueueJob) (r : nat) (h : list QueueJob) :
  (forall j, attempts j <= attempts (f j)) -> Grows h (alter f r h).
Proof.
  intros Hf r' j Hj. destruct (decide (r' = r)) as [->|Hne].
  - exists (f j). by rewrite list_lookup_alter_eq, Hj.
  - exists j. by rewrite list_lookup_alter_ne.
Qed.

Lemma Grows_app (h extra : list QueueJob) : Grows h (h ++ extra).
Proof. intros r j Hj. exists j. split; [by apply lookup_app_l_Some|done]. Qed.

Lemma Grows_whileLoop (q : State) : Grows (heap q) (heap (whileLoop q).1).
Proof.
  destruct (whileLoop_cases q) as [(job & -> & _)|[-> _]]; simpl.
  - by apply Grows_alter.
  - apply Grows_refl.
Qed.

Lemma heap_park (k : nat) (r : State * option Coroutine) : heap (park k r) = heap r.1.
Proof. by destruct r as [q [c|]]. Qed.

Lemma Grows_afterExecute (job : nat) (outcome : Completion) (q : State) :
  Grows (heap q) (heap (afterExecute job outcome q).1).
Proof.
  destruct outcome as [|e]; simpl.
  - eapply Grows_trans; [|apply Grows_whileLoop]. simpl. by apply Grows_alter.
  - match goal with |- context [if ?b then _ else _] => destruct b end; simpl.
    + eapply Grows_trans; [|by apply Grows_alter]. apply Grows_alter. simpl. lia.
    + eapply Grows_trans; [|apply Grows_whileLoop]. simpl.
      eapply Grows_trans; [|by apply Grows_alter]. apply Grows_alter. simpl. lia.
Qed.

Lemma heap_cleanup (now : Z) (q : State) : heap (cleanup now q) = heap q.
Proof.
  unfold cleanup. generalize (queue q) at 1. intros entries. revert q.
  induction entries as [|entry entries IH]; intros q; simpl; [done|].
  rewrite IH. destruct (heap q !! entry.2) as [job|]; [|done].
  by destruct (_ && _).
Qed.

Lemma Grows_step (q : State) (ev : Event) : Grows (heap q) (heap (step q ev)).
Proof.
  destruct ev as [jobData jobId now|k outcome|k|n|now]; simpl.
  - destruct (negb _); simpl; [|apply Grows_app].
    unfold processQueue.
    match goal with |- context [whileLoop ?q0] =>
      pose proof (Grows_whileLoop q0) as H; destruct (whileLoop q0) as [q1 [c|]] end;
      simpl in *; (eapply Grows_trans; [apply Grows_app|exact H]).
  - destruct (coroutines q !! k) as [[job|job]|]; try apply Grows_refl.
    rewrite heap_park. apply Grows_afterExecute.
  - destruct (coroutines q !! k) as [[job|job]|]; try apply Grows_refl.
    rewrite heap_park. apply Grows_whileLoop.
  - destruct (timers q !! n) as [ref|]; [|apply Grows_refl]. simpl.
    destruct (heap q !! ref); apply Grows_refl.
  - rewrite heap_cleanup. apply Grows_refl.
Qed.

Lemma Grows_run (events more : list Event) :
  Grows (heap (run events)) (heap (run (events ++ more))).
Proof.
  induction more as [|ev more IH] using rev_ind.
  - rewrite app_nil_r. apply Grows_refl.
  - rewrite app_assoc, run_snoc. eapply Grows_trans; [exact IH|apply Grows_step].
Qed.

(** C4.  Along every history, a job object stays, its [attempts] never
    decrease and never exceed 3, it has status [failed] exactly when its
    [attempts] are 3, and once they are 3 it stays [failed] with 3
    attempts whatever happens later. *)
Theorem attempts_bounded (events more : list Event) (ref : nat) (job : QueueJob) :
  heap (run events) !! ref = Some job ->
  exists job',
    heap (run (events ++ more)) !! ref = Some job'
    /\ attempts job <= attempts job'
    /\ attempts job' <= 3
    /\ (status job' = failed <-> attempts job' = 3)
    /\ (attempts job = 3 -> status job' = failed /\ attempts job' = 3).
Proof.
  intros Hjob. destruct (Grows_run events more _ _ Hjob) as (job' & Hjob' & Hle).
  exists job'. destruct (inv_heap _ (Inv_run (events ++ more)) _ _ Hjob') as [H3 Hiff].
  split; [done|]. split; [done|]. split; [done|]. split; [done|].
  intros Hthree. assert (attempts job' = 3) as Heq by lia.
  split; [by apply Hiff|done].
Qed.

(** C8.  Whenever a pass of the loop takes a job, that job had status
    pending, no job of the queue with status pending was created earlier,
    every job with status pending created at the same instant comes after it
    in the insertion order of the map, and the job is marked [processing] in
    the state in which the loop then awaits [executeJob]; no other job
    object is touched. *)
Theorem whileLoop_takes_earliest_pending (q q' : State) (job : nat) :
  whileLoop q = (q', Some (AwaitingExecute job)) ->
  EarliestPending q job
  /\ statusOf (heap q') job = Some processing
  /\ (forall r, r <> job -> heap q' !! r = heap q !! r).
Proof.
  destruct (whileLoop_cases q) as [(job0 & -> & _ & Hp)|[-> _]]; [|done].
  intros [= <- <-]. split; [done|].
  destruct Hp as (j & _ & _ & Hj & _). simpl. split.
  - unfold statusOf. by rewrite list_lookup_alter_eq, Hj.
  - intros r Hne. by rewrite list_lookup_alter_ne.
Qed.

(** When a pass of the loop takes no job, no job of the queue is pending. *)
Lemma whileLoop_stops_without_pending (q q' : State) :
  whileLoop q = (q', None) ->
  q' = withProcessing false q
  /\ Forall (fun r => isPending (heap q) r = false) (refs q).
Proof.
  destruct (whileLoop_cases q) as [(job0 & -> & Hp)|[-> H]]; [done|].
  by intros [= <-].
Qed.

(** A job that failed three times, then a second job and a [cleanup]. *)
Lemma attempts_bounded_witness :
  heap (run retryHistory) !! 0 = Some failedJob
  /\ exists job',
       heap (run (retryHistory ++ laterHistory)) !! 0 = Some job'
       /\ attempts failedJob <= attempts job'
       /\ attempts job' <= 3
       /\ (status job' = failed <-> attempts job' = 3)
       /\ (attempts failedJob = 3 -> status job' = failed /\ attempts job' = 3).
Proof.
  split; [reflexivity|].
  apply (attempts_bounded retryHistory laterHistory 0 failedJob). reflexivity.
Defined.

(** Of two pending jobs created at the same instant the first inserted is
    taken; the pending job created later, though inserted before them,
    waits, and the completed job, created and inserted before them all, is
    not taken. *)
Lemma whileLoop_takes_earliest_pending_witness :
  whileLoop tiedQueue = ((whileLoop tiedQueue).1, Some (AwaitingExecute 2))
  /\ EarliestPending tiedQueue 2
  /\ statusOf (heap (whileLoop tiedQueue).1) 2 = Some processing
  /\ (forall r, r <> 2 -> heap (whileLoop tiedQueue).1 !! r = heap tiedQueue !! r).
Proof.
  split; [reflexivity|].
  apply (whileLoop_takes_earliest_pending tiedQueue (whileLoop tiedQueue).1 2).
  reflexivity.
Defined.

End QueueProps.

(** * Further properties of the recommendation rules *)

Module TextProps.
Import Js LightweightScraper TextSpec MoreExamples RecommendationProps.

Lemma length_append (a b : string) :
  String.length (a ++ b) = String.length a + String.length b.
Proof. induction a as [|c a IH]; simpl; [done|]. by rewrite IH. Qed.

Lemma length_slice0 (n : nat) (s : string) :
  String.length (slice0 n s) = Nat.min n (String.length s).
Proof.
  unfold slice0. revert n. induction s as [|c s IH]; intros [|n]; simpl; try done.
  by rewrite IH.
Qed.

Lemma length_mapString (f : ascii -> ascii) (s : string) :
  String.length (mapString f s) = String.length s.
Proof. induction s as [|c s IH]; simpl; [done|]. by rewrite IH. Qed.

Lemma length_orElse (a b : string) :
  1 <= String.length b -> 1 <= String.length (orElse a b).
Proof. unfold orElse. destruct a; simpl; [done|lia]. Qed.

Lemma truthy_pos (s : string) : truthy s = true -> 1 <= String.length s.
Proof. destruct s; simpl; [done|lia]. Qed.

(** X1.  The meta description [generateRecommendations] proposes is never
    empty and never longer than 160 characters.  A description of 120 to 160
    characters is kept as it is; one of more than 160 characters is cut to
    its first 157 characters followed by [...], 160 characters in all. *)
Theorem optimizedDescription_fits (p : PageData) :
  1 <= String.length (rec_metaDescription (generateRecommendations p)) <= 160
  /\ (120 <= String.length (metaDescription p) <= 160 ->
      rec_metaDescription (generateRecommendations p) = metaDescription p)
  /\ (160 < String.length (metaDescription p) ->
      rec_metaDescription (generateRecommendations p)
      = slice0 157 (metaDescription p) ++ "..."
      /\ String.length (rec_metaDescription (generateRecommendations p)) = 160).
Proof.
  unfold generateRecommendations, optimizeDescription. cbn [rec_metaDescription].
  set (d := metaDescription p).
  set (base := orElse _ _).
  assert (Hbase : 1 <= String.length base).
  { unfold base, orElse. destruct (firstH1 p) as [[|c h]|]; simpl; try lia;
      destruct (title p); simpl; lia. }
  rewrite truthy_length.
  destruct (String.length d <? 120) eqn:E1, (160 <? String.length d) eqn:E2,
           (0 <? String.length d) eqn:E3; cbn [orb negb]; nat_bools; try lia.
  - split; [|split; intros; lia].
    destruct (160 <? _) eqn:E4; nat_bools;
      rewrite ?length_append, ?length_slice0 in *;
      change (String.length "...") with 3;
      change (String.length ". Discover comprehensive information and insights.")
        with 50 in *; lia.
  - split; [|split; intros; lia].
    destruct (160 <? _) eqn:E4; nat_bools;
      rewrite ?length_append, ?length_slice0 in *;
      change (String.length "...") with 3;
      change (String.length ". Discover comprehensive information and insights.")
        with 50 in *; lia.
  - rewrite !length_append, !length_slice0. change (String.length "...") with 3.
    split; [lia|]. split; [intros; lia|]. intros _. split; [done|lia].
  - split; [lia|]. split; [done|]. intros; lia.
Qed.

(** X2.  The title [generateRecommendations] proposes is never empty and
    never longer than 63 characters: at most an H1 of 50 characters with the
    13 characters of the brand suffix. *)
Theorem optimizedTitle_length (p : PageData) :
  1 <= String.length (rec_title (generateRecommendations p)) <= 63.
Proof.
  unfold generateRecommendations, optimizeTitle. cbn [rec_title].
  set (t := title p). rewrite truthy_length.
  destruct (String.length t <? 30) eqn:E1, (60 <? String.length t) eqn:E2,
           (0 <? String.length t) eqn:E3; cbn [orb negb]; nat_bools; try lia.
  - destruct (firstH1 p) as [h|];
      [|change (String.length "Untitled Page | Your Brand") with 26; lia].
    destruct (truthy h && _) eqn:Ht;
      [|change (String.length "Untitled Page | Your Brand") with 26; lia].
    apply andb_true_iff in Ht as [Ht%truthy_pos _].
    destruct (50 <? String.length h) eqn:E4; nat_bools;
      rewrite length_append, ?length_slice0;
      change (String.length "...") with 3;
      change (String.length " | Your Brand") with 13; lia.
  - destruct (firstH1 p) as [h|];
      [|change (String.length "Untitled Page | Your Brand") with 26; lia].
    destruct (truthy h && _) eqn:Ht;
      [|change (String.length "Untitled Page | Your Brand") with 26; lia].
    apply andb_true_iff in Ht as [Ht%truthy_pos _].
    destruct (50 <? String.length h) eqn:E4; nat_bools;
      rewrite length_append, ?length_slice0;
      change (String.length "...") with 3;
      change (String.length " | Your Brand") with 13; lia.
  - rewrite length_append, length_slice0. change (String.length "...") with 3. lia.
Qed.

(** X3.  The alt text generated for an image has at least 6 and at most
    100 characters, whatever the source and the page: a file name or
    [image], [ on ], and a title or [page], cut to 100. *)
Theorem generateAltText_length (src : string) (p : PageData) :
  6 <= String.length (generateAltText src p) <= 100.
Proof.
  unfold generateAltText. rewrite length_slice0, !length_append.
  unfold toLowerCase, dashesToSpaces. rewrite !length_mapString.
  assert (Hpage : 1 <= String.length (orElse (title p) "page"))
    by (apply length_orElse; simpl; lia).
  match goal with |- context [orElse ?a "image"] =>
    assert (Himage : 1 <= String.length (orElse a "image"))
      by (apply length_orElse; simpl; lia) end.
  change (String.length " on ") with 4. lia.
Qed.

Lemma split_nonempty (sep : ascii) (s : string) : Js.split sep s <> [].
Proof.
  induction s as [|c s IH]; simpl; [done|].
  destruct (Ascii.eqb c sep); [done|]. by destruct (Js.split sep s).
Qed.

Lemma split_append (sep : ascii) (a b : string) :
  Js.split sep (a ++ String sep b) = (Js.split sep a ++ Js.split sep b)%list.
Proof.
  induction a as [|c a IH]; simpl.
  - by rewrite Ascii.eqb_refl.
  - destruct (Ascii.eqb c sep); [by rewrite IH|].
    rewrite IH. pose proof (split_nonempty sep a).
    by destruct (Js.split sep a).
Qed.

Lemma last_app_nonempty {A} (l1 l2 : list A) (d : A) :
  l2 <> [] -> List.last (l1 ++ l2) d = List.last l2 d.
Proof.
  intros Hne. induction l1 as [|x l1 IH]; [done|].
  simpl. rewrite IH. destruct (l1 ++ l2)%list eqn:E; [|done].
  by apply app_eq_nil in E as [_ ?].
Qed.

(** X4.  The generated alt text depends on the last path segment of the
    image source only: what stands before the last [/] does not matter. *)
Theorem generateAltText_last_segment (dir file : string) (p : PageData) :
  generateAltText (dir ++ "/" ++ file) p = generateAltText file p.
Proof.
  unfold generateAltText. change (dir ++ "/" ++ file) with (dir ++ String "/" file).
  rewrite split_append, last_app_nonempty; [done|apply split_nonempty].
Qed.

(** X5.  Images alone never make a page [high]: a page whose title and
    description are in their windows, which has content and an H1, is
    [medium] when two or more of its images have no alt text, and [low]
    otherwise. *)
Theorem priority_of_images_alone (p : PageData) :
  textInOrder p = true ->
  calculatePriority p
  = if 2 <=? length (List.filter Spec.missingAlt (images p)) then medium else low.
Proof.
  unfold textInOrder. intros H.
  repeat (apply andb_true_iff in H as [H ?]). nat_bools.
  unfold calculatePriority. rewrite !truthy_length, filter_missingAlt.
  replace (0 <? String.length (title p)) with true by (symmetry; apply Nat.ltb_lt; lia).
  replace (String.length (title p) <? 30) with false by (symmetry; apply Nat.ltb_ge; lia).
  replace (60 <? String.length (title p)) with false by (symmetry; apply Nat.ltb_ge; lia).
  replace (0 <? String.length (metaDescription p)) with true
    by (symmetry; apply Nat.ltb_lt; lia).
  replace (String.length (metaDescription p) <? 120) with false
    by (symmetry; apply Nat.ltb_ge; lia).
  replace (160 <? String.length (metaDescription p)) with false
    by (symmetry; apply Nat.ltb_ge; lia).
  replace (hasContent p) with true by done.
  replace (length (h1 (headings p)) =? 0) with false by (symmetry; apply Nat.eqb_neq; lia).
  cbn [negb orb].
  generalize (length (List.filter Spec.missingAlt (images p))). intros n.
  destruct (0 <? n) eqn:E0, (2 <=? n) eqn:E1; nat_bools; try lia.
  - replace (Nat.min n 2) with 2 by lia. done.
  - replace (Nat.min n 2) with 1 by lia. done.
  - done.
Qed.

(** X6.  One more image never lowers the priority of a page. *)
Theorem priority_monotone_in_images (img : Image) (p : PageData) :
  rank (calculatePriority p) <= rank (calculatePriority (withImage img p)).
Proof.
  unfold calculatePriority, withImage.
  cbn [title metaDescription headings images hasContent].
  cbn [List.filter].
  set (n := length (List.filter _ (images p))).
  set (s1 := if negb (truthy (title p)) || _ || _ then 0 + 2 else 0).
  set (s2 := if negb (truthy (metaDescription p)) || _ || _ then s1 + 2 else s1).
  set (s3 := if negb (hasContent p) then s2 + 3 else s2).
  set (s4 := if length (h1 (headings p)) =? 0 then s3 + 1 else s3).
  destruct (negb (truthy (currentAlt img))); [|done].
  change (length (img :: List.filter _ (images p))) with (S n).
  clearbody n s4. clear s1 s2 s3.
  replace (0 <? S n) with true by done.
  destruct (0 <? n) eqn:En; nat_bools.
  - destruct (5 <=? s4 + Nat.min n 2) eqn:E1, (5 <=? s4 + Nat.min (S n) 2) eqn:E2,
             (2 <=? s4 + Nat.min n 2) eqn:E3, (2 <=? s4 + Nat.min (S n) 2) eqn:E4;
      cbn [rank]; nat_bools; lia.
  - destruct (5 <=? s4) eqn:E1, (5 <=? s4 + Nat.min (S n) 2) eqn:E2,
             (2 <=? s4) eqn:E3, (2 <=? s4 + Nat.min (S n) 2) eqn:E4;
      cbn [rank]; nat_bools; lia.
Qed.

(** A page in order but for two images without alt text. *)
Lemma priority_of_images_alone_witness :
  textInOrder tidyPage = true /\ calculatePriority tidyPage = medium.
Proof.
  split; [reflexivity|]. exact (priority_of_images_alone tidyPage eq_refl).
Defined.

End TextProps.

(** * Further properties of the crawler *)

Module TraversalProps.
Import Js LightweightScraper CrawlSpec TraversalSpec Examples MoreExamples CrawlProps.
Local Open Scope list_scope.

(** *** Relations every step of the traversal keeps *)

Section Closure.
Context (R : Crawl -> Crawl -> Prop).
Context (R_refl : forall st, R st st).
Context (R_trans : forall st st1 st2, R st st1 -> R st1 st2 -> R st st2).
Context (R_addVisited : forall url st, R st (addVisited url st)).
Context (R_recordPage : forall url pageData st, R st (recordPage url pageData st)).
Context (R_recordError : forall url e st, R st (recordError url e st)).
Context (R_expanded : forall parent depth link d st,
            R st (logEvent (Expanded parent depth link d) st)).

Lemma scanLinks_closure (visit : string -> Crawl -> option (Completion * Crawl))
    (parent : string) (depth : nat) :
  (forall link st out st', visit link st = Some (out, st') -> R st st') ->
  forall links st out st',
    scanLinks visit parent depth links st = Some (out, st') -> R st st'.
Proof.
  intros Hvisit. induction links as [|link rest IH]; intros st out st'; cbn [scanLinks].
  - intros [= <- <-]. apply R_refl.
  - destruct (this_pagesProcessed st <? maxPages); [|apply IH].
    destruct (visit link _) as [[[|e] st1]|] eqn:Hv; [| |done]; intros H.
    + eapply R_trans; [apply R_expanded|]. eapply R_trans; [eapply Hvisit, Hv|].
      eapply IH, H.
    + injection H as <- <-. eapply R_trans; [apply R_expanded|]. eapply Hvisit, Hv.
Qed.

Lemma scanPage_closure (browser : Browser) (fuel : nat) :
  forall url depth st out st',
    scanPage fuel browser url depth st = Some (out, st') -> R st st'.
Proof.
  induction fuel as [|fuel IH]; intros url depth st out st' H; [done|].
  apply scanPage_Frame in H.
  destruct H as [Hskip|e Hskip Hb|e closing Hskip Hb|pageData closing Hskip Hb Hexp
                 |pageData closing st3 Hskip Hb Hexp Hloop
                 |pageData closing e st3 Hskip Hb Hexp Hloop].
  - apply R_refl.
  - apply R_addVisited.
  - eapply R_trans; [apply R_addVisited|apply R_recordError].
  - eapply R_trans; [apply R_addVisited|apply R_recordPage].
  - eapply R_trans; [apply R_addVisited|]. eapply R_trans; [apply R_recordPage|].
    eapply scanLinks_closure; [|exact Hloop]. intros link st0 out0 st0'. apply IH.
  - eapply R_trans; [apply R_addVisited|]. eapply R_trans; [apply R_recordPage|].
    eapply R_trans; [|apply R_recordError].
    eapply scanLinks_closure; [|exact Hloop]. intros link st0 out0 st0'. apply IH.
Qed.

End Closure.

(** *** The aggregate is append-only *)

Lemma Appends_same (st st' : Crawl) : scanData st' = scanData st -> Appends st st'.
Proof. intros H. unfold Appends. rewrite H. split; exists []; by rewrite app_nil_r. Qed.

Lemma Appends_refl (st : Crawl) : Appends st st.
Proof. by apply Appends_same. Qed.

Lemma Appends_trans (st st1 st2 : Crawl) : Appends st st1 -> Appends st1 st2 -> Appends st st2.
Proof.
  intros [[ps1 Hp1] [es1 He1]] [[ps2 Hp2] [es2 He2]]. split.
  - exists (ps1 ++ ps2). by rewrite Hp2, Hp1, app_assoc.
  - exists (es1 ++ es2). by rewrite He2, He1, app_assoc.
Qed.

Lemma Appends_recordPage (url : string) (pageData : PageData) (st : Crawl) :
  Appends st (recordPage url pageData st).
Proof.
  destruct (scanData_recordPage url pageData st) as [Hp He]. split.
  - by exists [pageRecord url pageData].
  - exists []. by rewrite He, app_nil_r.
Qed.

Lemma Appends_recordError (url : string) (e : Thrown) (st : Crawl) :
  Appends st (recordError url e st).
Proof. split; [exists []; by rewrite app_nil_r|by eexists]. Qed.

Lemma scanPage_Appends (browser : Browser) (fuel : nat) (url : string) (depth : nat)
    (st : Crawl) (out : Completion) (st' : Crawl) :
  scanPage fuel browser url depth st = Some (out, st') -> Appends st st'.
Proof.
  apply (scanPage_closure Appends Appends_refl Appends_trans);
    [intros; by apply Appends_same|apply Appends_recordPage
    |apply Appends_recordError|intros; by apply Appends_same].
Qed.


(** *** The seed *)

Lemma crawl_SeedOutcome (browser : Browser) (url : string) (out : Completion) (st : Crawl) :
  crawl browser url = Some (out, st) -> SeedOutcome browser url out st.
Proof.
  unfold crawl, crawlFuel, SeedOutcome. intros H. apply scanPage_Frame in H.
  destruct H as [Hskip|e Hskip Hb|e closing Hskip Hb|pageData closing Hskip Hb Hexp
                 |pageData closing st3 Hskip Hb Hexp Hloop
                 |pageData closing e st3 Hskip Hb Hexp Hloop];
    [done|change (length (visitedUrls freshCrawl)) with 0 in Hb; rewrite Hb..].
  - done.
  - done.
  - split; [done|]. exists [].
    by destruct (scanData_recordPage url pageData (addVisited url freshCrawl)) as [-> _].
  - split; [done|].
    destruct (scanLinks_closure Appends Appends_refl Appends_trans
                (fun _ _ _ _ st0 => Appends_same st0 _ eq_refl) _ url 0
                (fun link st0 out0 st0' => scanPage_Appends browser 2 link 1 st0 out0 st0')
                _ _ _ _ Hloop) as [[ps Hp] _].
    exists ps. rewrite Hp.
    by destruct (scanData_recordPage url pageData (addVisited url freshCrawl)) as [-> _].
  - split; [done|].
    destruct (scanLinks_closure Appends Appends_refl Appends_trans
                (fun _ _ _ _ st0 => Appends_same st0 _ eq_refl) _ url 0
                (fun link st0 out0 st0' => scanPage_Appends browser 2 link 1 st0 out0 st0')
                _ _ _ _ Hloop) as [[ps Hp] _].
    exists ps. simpl. rewrite Hp.
    by destruct (scanData_recordPage url pageData (addVisited url freshCrawl)) as [-> _].
Qed.

(** X7.  When the seed renders, its record is the first of [pages],
    whatever is crawled afterwards; when it does not, [pages] stays
    empty. *)
Theorem seed_is_first_page (browser : Browser) (url : string) :
  exists out st,
    crawl browser url = Some (out, st)
    /\ match browser 0 url with
       | VisitOk pageData _ =>
           exists rest, pages (scanData st) = pageRecord url pageData :: rest
       | _ => pages (scanData st) = []
       end.
Proof.
  destruct (crawl_returns browser url) as (out & st & Hcrawl).
  exists out, st. split; [done|].
  pose proof (crawl_SeedOutcome _ _ _ _ Hcrawl) as H. unfold SeedOutcome in H.
  destruct (browser 0 url); tauto.
Qed.

(** *** How [scanWebsite] ends *)

Lemma finallyClose_cases (env : Puppeteer) (held : bool) :
  (forall e, (finallyClose env held).1 = Threw e ->
             browserClose env = Threw e /\ (finallyClose env held).2 = true)
  /\ (browserClose env = Returned -> finallyClose env held = (Returned, false)).
Proof.
  unfold finallyClose.
  destruct held, (browserClose env) as [|e']; simpl; split; intros; simplify_eq; done.
Qed.

Lemma scanWebsite_ending (env : Puppeteer) (held : bool) (url : string)
    (record : SessionRecord) (ending : Completion * bool) :
  scanWebsite env held url = Some (record, ending) ->
  exists held', ending = finallyClose env held'.
Proof.
  unfold scanWebsite. destruct (launch env); [|intros [= _ <-]; by eexists].
  destruct (crawl (browser env) url) as [[[|e] st]|]; [| |done]; intros [= _ <-];
    exists true; reflexivity.
Qed.

(** X8.  [scanWebsite] always ends, and it rejects only with what
    [browser.close()] threw in its [finally] block, [this.browser] then still
    holding the browser; when [browser.close()] succeeds the call resolves
    and [this.browser] is [null], whatever happened to the crawl. *)
Theorem scanWebsite_rejects_only_on_close (env : Puppeteer) (held : bool) (url : string) :
  exists record ending,
    scanWebsite env held url = Some (record, ending)
    /\ (forall e, ending.1 = Threw e -> browserClose env = Threw e /\ ending.2 = true)
    /\ (browserClose env = Returned -> ending = (Returned, false)).
Proof.
  destruct (crawl_returns (browser env) url) as (out & st & Hcrawl).
  unfold scanWebsite. rewrite Hcrawl.
  destruct (launch env); [destruct out|]; eexists _, _;
    (split; [done|apply finallyClose_cases]).
Qed.

(** X9.  The aggregate of a completed session is consistent:
    [pagesProcessed] is the number of [pages], [pagesSkipped] the number of
    [errors], [totalPages] their sum and at least 1, and [completedAt] is
    set. *)
Theorem completed_session_counts (env : Puppeteer) (held : bool) (url : string)
    (sd : ScanData) (ending : Completion * bool) :
  scanWebsite env held url = Some (SessionCompleted sd, ending) ->
  pagesProcessed sd = length (pages sd)
  /\ pagesSkipped sd = length (errors sd)
  /\ totalPages sd = length (pages sd) + length (errors sd)
  /\ 1 <= totalPages sd
  /\ completedAt sd = Some (isoNow env).
Proof.
  unfold scanWebsite.
  destruct (launch env); [|done].
  destruct (crawl (browser env) url) as [[[|e] st]|] eqn:Hcrawl; [|done|done].
  intros [= <- <-].
  destruct (crawl_Grew _ _ _ _ Hcrawl) as ((_ & Hp & Hk) & _).
  pose proof (crawl_SeedOutcome _ _ _ _ Hcrawl) as Hseed. unfold SeedOutcome in Hseed.
  simpl. rewrite Hk. split; [done|]. split; [done|]. split; [done|]. split; [|done].
  destruct (browser env 0 url) as [e|e closing|pageData closing].
  - by destruct Hseed.
  - destruct Hseed as (_ & _ & ->). simpl. lia.
  - destruct Hseed as (_ & rest & ->). simpl. lia.
Qed.


(** *** Tabs *)

Lemma has_elem_of (u : string) (l : list string) : has u l = true <-> u ∈ l.
Proof.
  unfold has. rewrite existsb_exists. split.
  - intros (x & Hx & ->%String.eqb_eq). by apply list_elem_of_In.
  - intros Hu. exists u. split; [by apply list_elem_of_In|apply String.eqb_refl].
Qed.

Lemma KeepsSet_addVisited (url : string) (st : Crawl) : KeepsSet st (addVisited url st).
Proof.
  unfold KeepsSet. simpl. intros Hnd. destruct (has url (visitedUrls st)) eqn:Hhas; [done|].
  apply NoDup_snoc; [done|]. intros Hin%list_elem_of_In%has_elem_of. congruence.
Qed.

Lemma scanPage_KeepsSet (browser : Browser) (fuel : nat) (url : string) (depth : nat)
    (st : Crawl) (out : Completion) (st' : Crawl) :
  scanPage fuel browser url depth st = Some (out, st') -> KeepsSet st st'.
Proof.
  apply (scanPage_closure KeepsSet); unfold KeepsSet.
  - done.
  - auto.
  - apply KeepsSet_addVisited.
  - intros u pageData st0. by rewrite recordPage_visitedUrls.
  - done.
  - done.
Qed.

Lemma Opened_addVisited (url : string) (st : Crawl) : Opened 1 st (addVisited url st).
Proof.
  unfold Opened. simpl. destruct (has url (visitedUrls st)); [lia|].
  rewrite length_app. simpl. lia.
Qed.

Lemma scanLinks_Opened (visit : string -> Crawl -> option (Completion * Crawl))
    (parent : string) (depth b : nat) :
  (forall link st out st', visit link st = Some (out, st') -> Opened b st st') ->
  forall links st out st',
    scanLinks visit parent depth links st = Some (out, st') ->
    Opened (length links * b) st st'.
Proof.
  intros Hvisit. unfold Opened in *.
  induction links as [|link rest IH]; intros st out st'; cbn [scanLinks].
  - intros [= <- <-]. lia.
  - destruct (this_pagesProcessed st <? maxPages).
    + destruct (visit link _) as [[[|e] st1]|] eqn:Hv; [| |done]; intros H;
        apply Hvisit in Hv; simpl in Hv.
      * apply IH in H. simpl. lia.
      * injection H as <- <-. simpl. lia.
    + intros H. apply IH in H. simpl. lia.
Qed.

Lemma scanPage_Opened (browser : Browser) (fuel : nat) :
  forall url depth st out st',
    scanPage fuel browser url depth st = Some (out, st') -> Opened (tabs depth) st st'.
Proof.
  induction fuel as [|fuel IH]; intros url depth st out st' H; [done|].
  assert (Hpos : 1 <= tabs depth) by (destruct depth as [|[|depth]]; simpl; lia).
  pose proof (Opened_addVisited url st) as Hadd.
  apply scanPage_Frame in H. unfold Opened in *.
  destruct H as [Hskip|e Hskip Hb|e closing Hskip Hb|pageData closing Hskip Hb Hexp
                 |pageData closing st3 Hskip Hb Hexp Hloop
                 |pageData closing e st3 Hskip Hb Hexp Hloop];
    rewrite ?recordPage_visitedUrls; try (simpl in *; lia).
  all: apply (scanLinks_Opened _ url depth _
                (fun link st0 out0 st0' => IH link (depth + 1) st0 out0 st0')) in Hloop.
  all: unfold Opened in Hloop; rewrite recordPage_visitedUrls in Hloop.
  all: apply andb_true_iff in Hexp as [Hd _]; nat_bools.
  all: pose proof (firstn_le_length 5 (internalLinks pageData)).
  all: assert (1 + 5 * tabs (depth + 1) <= tabs depth)
         by (destruct depth as [|[|depth]]; simpl; lia).
  all: simpl in *; nia.
Qed.

(** X10.  A crawl opens at most 31 tabs: it adds at most 31 URLs to the
    visited set, none twice, records no more pages than URLs it visited,
    and [this.pagesProcessed] ends at 31 or less. *)
Theorem crawl_opens_at_most_31_tabs (browser : Browser) (url : string) :
  exists out st,
    crawl browser url = Some (out, st)
    /\ NoDup (visitedUrls st)
    /\ length (visitedUrls st) <= 31
    /\ length (pages (scanData st)) <= length (visitedUrls st)
    /\ this_pagesProcessed st <= 31.
Proof.
  destruct (crawl_returns browser url) as (out & st & Hcrawl).
  exists out, st. split; [done|].
  pose proof (scanPage_KeepsSet _ _ _ _ _ _ _ Hcrawl) as Hset.
  pose proof (scanPage_Opened _ _ _ _ _ _ _ Hcrawl) as Hopen.
  destruct (scanPage_StaysDedup _ _ _ _ _ _ _ Hcrawl Dedup_fresh)
    as ((Hp & _ & Hpv & _) & _).
  destruct (crawl_Grew _ _ _ _ Hcrawl) as ((Hthis & _) & _).
  unfold Opened in Hopen. simpl in Hopen.
  assert (Hle : length (pages (scanData st)) <= length (visitedUrls st)).
  { rewrite <- (length_map pr_url). apply submseteq_length, NoDup_submseteq; [done|].
    intros u Hu. by apply has_elem_of, Hpv, list_elem_of_In. }
  split; [apply Hset, NoDup_nil_2|]. split; [done|]. split; [done|]. lia.
Qed.

(** *** Progress updates *)

Lemma Progress_quiet (st st' : Crawl) :
  scanData st' = scanData st -> this_pagesProcessed st' = this_pagesProcessed st ->
  (exists new, trace st' = trace st ++ new /\ forallb (fun ev => negb (isFlushed ev)) new = true) ->
  Progress st st'.
Proof.
  intros Hsd Hpp (new & Ht & Hq) (Hs & Htot & Hc). unfold Underway, Sync.
  rewrite Hsd, Hpp. split; [done|]. exists new. split; [done|].
  assert (Hnew : Forall FlushOk new /\ List.filter isFlushed new = []).
  { clear Ht. induction new as [|ev new IH]; [done|]. simpl in Hq.
    apply andb_true_iff in Hq as [Hev Hq]. destruct (IH Hq) as [IH1 IH2].
    destruct ev; try done; simpl; (split; [by constructor|done]). }
  destruct Hnew as [Hok ->]. split; [done|]. simpl. lia.
Qed.

Lemma Progress_refl (st : Crawl) : Progress st st.
Proof. apply Progress_quiet; [done|done|]. exists []. by rewrite app_nil_r. Qed.

Lemma Progress_trans (st st1 st2 : Crawl) :
  Progress st st1 -> Progress st1 st2 -> Progress st st2.
Proof.
  intros H1 H2 Hu. destruct (H1 Hu) as (Hu1 & new1 & Ht1 & Hok1 & Hn1).
  destruct (H2 Hu1) as (Hu2 & new2 & Ht2 & Hok2 & Hn2).
  split; [done|]. exists (new1 ++ new2). split; [by rewrite Ht2, Ht1, app_assoc|].
  split; [by apply Forall_app|]. rewrite List.filter_app, length_app. lia.
Qed.

Lemma Progress_recordError (url : string) (e : Thrown) (st : Crawl) :
  Progress st (recordError url e st).
Proof.
  intros ((Hthis & Hp & Hk) & Htot & Hc). split.
  - unfold Underway, Sync. simpl. rewrite length_app, Hk. simpl. repeat split; try done; lia.
  - eexists. split; [simpl; by rewrite <- app_assoc|]. split; [by repeat constructor|].
    simpl. lia.
Qed.

Lemma third_page (n : nat) :
  (n + 1) / 3 = n / 3 + (if (n + 1) mod 3 =? 0 then 1 else 0).
Proof.
  destruct ((n + 1) mod 3 =? 0) eqn:E; nat_bools;
    pose proof (Nat.div_mod_eq n 3); pose proof (Nat.div_mod_eq (n + 1) 3);
    pose proof (Nat.mod_upper_bound n 3); pose proof (Nat.mod_upper_bound (n + 1) 3); nia.
Qed.

Lemma Progress_recordPage (url : string) (pageData : PageData) (st : Crawl) :
  Progress st (recordPage url pageData st).
Proof.
  intros ((Hthis & Hp & Hk) & Htot & Hc).
  pose proof (third_page (this_pagesProcessed st)) as Hthird.
  unfold recordPage, flushProgress. cbn [this_pagesProcessed mutate incrCounter].
  destruct ((this_pagesProcessed st + 1) mod 3 =? 0) eqn:E; nat_bools.
  - split.
    + unfold Underway, Sync. cbn -[Nat.div Nat.modulo]. rewrite length_app.
      cbn -[Nat.div Nat.modulo]. repeat split; try done; lia.
    + eexists. split; [cbn -[Nat.div Nat.modulo]; by rewrite <- !app_assoc|]. split.
      * repeat constructor; cbn -[Nat.div Nat.modulo]; rewrite ?length_app;
          cbn -[Nat.div Nat.modulo]; try done; lia.
      * cbn -[Nat.div Nat.modulo]. lia.
  - split.
    + unfold Underway, Sync. cbn -[Nat.div Nat.modulo]. rewrite length_app.
      cbn -[Nat.div Nat.modulo]. repeat split; try done; lia.
    + eexists. split; [cbn -[Nat.div Nat.modulo]; by rewrite <- !app_assoc|]. split.
      * by repeat constructor.
      * cbn -[Nat.div Nat.modulo]. lia.
Qed.

Lemma scanPage_Progress (browser : Browser) (fuel : nat) (url : string) (depth : nat)
    (st : Crawl) (out : Completion) (st' : Crawl) :
  scanPage fuel browser url depth st = Some (out, st') -> Progress st st'.
Proof.
  apply (scanPage_closure Progress).
  - apply Progress_refl.
  - apply Progress_trans.
  - intros u st0. apply Progress_quiet; [done|done|]. exists []. by rewrite app_nil_r.
  - apply Progress_recordPage.
  - apply Progress_recordError.
  - intros parent d link d' st0. apply Progress_quiet; [done|done|]. by eexists.
Qed.

(** X11.  Every progress update of a crawl hands over an aggregate whose
    [pagesProcessed] is the number of its [pages], a positive multiple of
    three, with [totalPages] still 0 and no [completedAt]; and there are as
    many updates as the final [pagesProcessed] divided by three, rounded
    down. *)
Theorem progress_update_every_third_page (browser : Browser) (url : string) :
  exists out st,
    crawl browser url = Some (out, st)
    /\ Forall FlushOk (trace st)
    /\ length (List.filter isFlushed (trace st)) = pagesProcessed (scanData st) / 3.
Proof.
  destruct (crawl_returns browser url) as (out & st & Hcrawl).
  exists out, st. split; [done|].
  assert (Hu : Underway freshCrawl) by by repeat split.
  destruct (scanPage_Progress _ _ _ _ _ _ _ Hcrawl Hu)
    as (((Hthis & Hp & _) & _) & new & Ht & Hok & Hn).
  cbn -[Nat.div] in Ht, Hn. change (0 / 3) with 0 in Hn.
  rewrite Ht. split; [done|]. by rewrite Hp, <- Hthis, <- Hn.
Qed.

(** A seed whose navigation times out. *)
Lemma completed_session_counts_witness :
  exists sd,
    scanWebsite timeoutEnv false seedUrl = Some (SessionCompleted sd, (Returned, false))
    /\ pagesProcessed sd = length (pages sd)
    /\ pagesSkipped sd = length (errors sd)
    /\ totalPages sd = length (pages sd) + length (errors sd)
    /\ 1 <= totalPages sd
    /\ completedAt sd = Some (isoNow timeoutEnv).
Proof.
  eexists. split; [reflexivity|].
  apply (completed_session_counts timeoutEnv false seedUrl _ (Returned, false)).
  reflexivity.
Defined.

End TraversalProps.

(** * Further properties of the queue *)

Module BookkeepingProps.
Import Js InMemoryQueue QueueSpec BookkeepingSpec Examples QueueProps.
Local Open Scope list_scope.

(** *** The fields [add] sets *)

Lemma fields_alter (f : QueueJob -> QueueJob) (r : nat) (h : list QueueJob) :
  (forall j, fields (f j) = fields j) -> map fields (alter f r h) = map fields h.
Proof.
  intros Hf. revert r. induction h as [|j h IH]; intros [|r]; simpl; try done.
  - by rewrite Hf.
  - f_equal. apply IH.
Qed.

Lemma fields_whileLoop (q : State) : map fields (heap (whileLoop q).1) = map fields (heap q).
Proof.
  destruct (whileLoop_cases q) as [(job & -> & _)|[-> _]]; simpl; [|done].
  by apply fields_alter.
Qed.

Lemma fields_afterExecute (job : nat) (outcome : Completion) (q : State) :
  map fields (heap (afterExecute job outcome q).1) = map fields (heap q).
Proof.
  destruct outcome as [|e]; simpl.
  - rewrite fields_whileLoop. simpl. by apply fields_alter.
  - match goal with |- context [if ?b then _ else _] => destruct b end; simpl;
      rewrite ?fields_whileLoop; simpl; by rewrite !fields_alter.
Qed.

Lemma fields_step (q : State) (ev : Event) :
  map fields (heap (step q ev)) = map fields (heap q) ++ added [ev].
Proof.
  destruct ev as [jobData jobId now|k outcome|k|n|now]; simpl; rewrite ?app_nil_r.
  - destruct (negb _); simpl; [|by rewrite map_app].
    unfold processQueue.
    match goal with |- context [whileLoop ?q0] =>
      pose proof (fields_whileLoop q0) as H; destruct (whileLoop q0) as [q1 [c|]] end;
      simpl in *; by rewrite H, map_app.
  - destruct (coroutines q !! k) as [[job|job]|]; try done.
    rewrite heap_park. apply fields_afterExecute.
  - destruct (coroutines q !! k) as [[job|job]|]; try done.
    rewrite heap_park. apply fields_whileLoop.
  - destruct (timers q !! n) as [ref|]; [|done]. simpl. by destruct (heap q !! ref).
  - by rewrite heap_cleanup.
Qed.

Lemma added_app (events more : list Event) : added (events ++ more) = added events ++ added more.
Proof. unfold added. apply omap_app. Qed.

Lemma fields_run (events : list Event) : map fields (heap (run events)) = added events.
Proof.
  induction events as [|ev events IH] using rev_ind; [done|].
  by rewrite run_snoc, fields_step, added_app, IH.
Qed.


(** *** The entries of the map *)

Lemma sublist_mapDelete (key : string) (m : list (string * nat)) : sublist (mapDelete key m) m.
Proof.
  unfold mapDelete. induction m as [|entry m IH]; simpl; [constructor|].
  destruct (negb _); by constructor.
Qed.

Lemma queue_whileLoop (q : State) : queue (whileLoop q).1 = queue q.
Proof. by destruct (whileLoop_cases q) as [(job & -> & _)|[-> _]]. Qed.

Lemma queue_afterExecute (job : nat) (outcome : Completion) (q : State) :
  queue (afterExecute job outcome q).1 = queue q.
Proof.
  destruct outcome as [|e]; simpl.
  - by rewrite queue_whileLoop.
  - match goal with |- context [if ?b then _ else _] => destruct b end; simpl; [done|].
    by rewrite queue_whileLoop.
Qed.

Lemma queue_park (k : nat) (r : State * option Coroutine) : queue (park k r) = queue r.1.
Proof. by destruct r as [q [c|]]. Qed.

Lemma queue_processQueue (q : State) : queue (processQueue q) = queue q.
Proof.
  unfold processQueue. pose proof (queue_whileLoop (withProcessing true q)) as H.
  by destruct (whileLoop _) as [q1 [c|]].
Qed.

Lemma sublist_cleanup (now : Z) (q : State) : sublist (queue (cleanup now q)) (queue q).
Proof.
  unfold cleanup. generalize (queue q) at 1. intros entries. revert q.
  induction entries as [|entry entries IH]; intros q; simpl; [done|].
  etrans; [apply IH|]. destruct (heap q !! entry.2) as [job|]; [|done].
  destruct (_ && _); [|done]. apply sublist_mapDelete.
Qed.

Lemma queue_step (q : State) (ev : Event) :
  (exists jobData jobId now,
     ev = Add jobData jobId now
     /\ queue (step q ev) = mapSet jobId (length (heap q)) (queue q))
  \/ ((forall jobData jobId now, ev <> Add jobData jobId now)
      /\ sublist (queue (step q ev)) (queue q)).
Proof.
  destruct ev as [jobData jobId now|k outcome|k|n|now]; simpl.
  - left. exists jobData, jobId, now. split; [done|].
    destruct (negb _); [|done]. by rewrite queue_processQueue.
  - right. split; [done|]. destruct (coroutines q !! k) as [[job|job]|]; try done.
    by rewrite queue_park, queue_afterExecute.
  - right. split; [done|]. destruct (coroutines q !! k) as [[job|job]|]; try done.
    by rewrite queue_park, queue_whileLoop.
  - right. split; [done|]. destruct (timers q !! n) as [ref|]; [|done]. simpl.
    destruct (heap q !! ref); [|done]. apply sublist_mapDelete.
  - right. split; [done|]. apply sublist_cleanup.
Qed.

Lemma keys_mapSet (key : string) (ref : nat) (m : list (string * nat)) :
  map fst (mapSet key ref m) = map fst m
  \/ ((key ∉ map fst m) /\ map fst (mapSet key ref m) = map fst m ++ [key]).
Proof.
  induction m as [|[k r] m IH]; simpl.
  - right. split; [apply not_elem_of_nil|done].
  - destruct (String.eqb k key) eqn:E; [by left|].
    apply String.eqb_neq in E. destruct IH as [IH|[Hn IH]]; simpl.
    + left. by rewrite IH.
    + right. split; [|by rewrite IH]. by intros [?|?]%elem_of_cons.
Qed.

Lemma elem_of_mapSet (key : string) (ref : nat) (m : list (string * nat))
    (entry : string * nat) :
  entry ∈ mapSet key ref m -> entry = (key, ref) \/ entry ∈ m.
Proof.
  induction m as [|[k r] m IH]; simpl.
  - intros ->%list_elem_of_singleton. by left.
  - destruct (String.eqb k key) eqn:E.
    + apply String.eqb_eq in E as ->.
      intros [->|H]%elem_of_cons; [by left|right; by constructor].
    + intros [->|H]%elem_of_cons; [right; constructor|].
      destruct (IH H) as [->|?]; [by left|right; by constructor].
Qed.

Lemma mapGet_mapSet (key : string) (ref : nat) (m : list (string * nat)) :
  mapGet key (mapSet key ref m) = Some ref.
Proof.
  unfold mapGet. induction m as [|[k r] m IH]; simpl.
  - by rewrite String.eqb_refl.
  - destruct (String.eqb k key) eqn:E; simpl; by rewrite E.
Qed.

Lemma mapGet_Some (key : string) (ref : nat) (m : list (string * nat)) :
  mapGet key m = Some ref -> (key, ref) ∈ m.
Proof.
  unfold mapGet. induction m as [|[k r] m IH]; simpl; [done|].
  destruct (String.eqb k key) eqn:E; simpl.
  - apply String.eqb_eq in E as ->. intros [= ->]. constructor.
  - intros H. constructor. by apply IH.
Qed.

Lemma KeysOk_step (q : State) (ev : Event) : KeysOk q -> KeysOk (step q ev).
Proof.
  intros [Hnd Hid].
  assert (Hids : forall r k, id <$> heap q !! r = Some k ->
                             id <$> heap (step q ev) !! r = Some k).
  { intros r k Hk. pose proof (fields_step q ev) as Hf.
    apply (f_equal (fun l => (fun x => x.1.1) <$> l !! r)) in Hf.
    rewrite !list_lookup_fmap in Hf.
    destruct (heap q !! r) as [j|] eqn:Hj; [|done].
    rewrite lookup_app_l in Hf by (rewrite length_map; by eapply lookup_lt_Some).
    rewrite list_lookup_fmap, Hj in Hf. simpl in *.
    destruct (heap (step q ev) !! r) as [j'|]; simpl in *; congruence. }
  destruct (queue_step q ev) as [(jobData & jobId & now & -> & Hq)|[_ Hsub]].
  - split.
    + rewrite Hq. destruct (keys_mapSet jobId (length (heap q)) (queue q)) as [->|[Hn ->]];
        [done|]. apply NoDup_app. split; [done|]. split; [|apply NoDup_singleton].
      by intros x Hx ->%list_elem_of_singleton.
    + intros key ref. rewrite Hq. intros [[= -> ->]|Hin]%elem_of_mapSet; [|by apply Hids, Hid].
      pose proof (fields_step q (Add jobData jobId now)) as Hf.
      apply (f_equal (fun l => (fun x => x.1.1) <$> l !! length (heap q))) in Hf.
      rewrite list_lookup_fmap in Hf.
      rewrite lookup_app_r in Hf by (by rewrite length_map).
      rewrite length_map, Nat.sub_diag in Hf. simpl in Hf.
      destruct (heap _ !! length (heap q)) as [j'|]; simpl in *; congruence.
  - split.
    + eapply sublist_NoDup; [exact Hnd|]. by apply (fmap_sublist fst).
    + intros key ref Hin. apply Hids, Hid. by eapply elem_of_sublist.
Qed.

Lemma KeysOk_run (events : list Event) : KeysOk (run events).
Proof.
  induction events as [|ev events IH] using rev_ind.
  - split; [constructor|]. by intros key ref ?%elem_of_nil.
  - rewrite run_snoc. by apply KeysOk_step.
Qed.


(** *** No pending job is left waiting *)

Lemma NoneWaiting_whileLoop (q : State) :
  this_processing q = true -> NoneWaiting (whileLoop q).1.
Proof.
  intros Hp. destruct (whileLoop_cases q) as [(job & -> & _)|[-> Hnone]]; simpl.
  - intros Hf. simpl in Hf. congruence.
  - by intros _.
Qed.

Lemma processing_whileLoop (q : State) (q' : State) (c : Coroutine) :
  whileLoop q = (q', Some c) -> this_processing q' = this_processing q.
Proof.
  destruct (whileLoop_cases q) as [(job & -> & _)|[-> _]]; [|done]. by intros [= <- _].
Qed.

Lemma NoneWaiting_afterExecute (job : nat) (outcome : Completion) (q : State) :
  this_processing q = true -> NoneWaiting (afterExecute job outcome q).1.
Proof.
  intros Hp. destruct outcome as [|e]; simpl.
  - by apply NoneWaiting_whileLoop.
  - match goal with |- context [if ?b then _ else _] => destruct b end; simpl.
    + intros Hf. simpl in Hf. congruence.
    + by apply NoneWaiting_whileLoop.
Qed.

Lemma NoneWaiting_park (k : nat) (r : State * option Coroutine) :
  NoneWaiting r.1 -> NoneWaiting (park k r).
Proof. by destruct r as [q [c|]]. Qed.

Lemma NoneWaiting_fewer_entries (q q' : State) :
  heap q' = heap q -> this_processing q' = this_processing q ->
  sublist (queue q') (queue q) -> NoneWaiting q -> NoneWaiting q'.
Proof.
  unfold NoneWaiting, refs. intros -> -> Hsub Hq Hp. specialize (Hq Hp).
  rewrite Forall_forall in *. intros r Hr. apply Hq.
  eapply elem_of_sublist; [exact Hr|]. by apply (fmap_sublist snd).
Qed.

Lemma processing_cleanup (now : Z) (q : State) :
  this_processing (cleanup now q) = this_processing q.
Proof.
  unfold cleanup. generalize (queue q) at 1. intros entries. revert q.
  induction entries as [|entry entries IH]; intros q; simpl; [done|].
  rewrite IH. destruct (heap q !! entry.2) as [job|]; [|done].
  by destruct (_ && _).
Qed.

Lemma busy (q : State) (k : nat) (c : Coroutine) :
  Inv q -> coroutines q !! k = Some c -> this_processing q = true.
Proof.
  intros HI Hk. destruct (inv_flag q HI) as [[Hc _]|(c' & _ & Hp)]; [|done].
  by rewrite Hc in Hk.
Qed.

Lemma NoneWaiting_step (q : State) (ev : Event) :
  Inv q -> NoneWaiting q -> NoneWaiting (step q ev).
Proof.
  intros HI Hq. destruct ev as [jobData jobId now|k outcome|k|n|now]; simpl.
  - destruct (this_processing q) eqn:Hp; simpl.
    + intros Hf. simpl in Hf. congruence.
    + unfold processQueue.
      match goal with |- context [whileLoop ?q0] =>
        pose proof (NoneWaiting_whileLoop q0 eq_refl) as H;
        destruct (whileLoop q0) as [q1 [c|]] end; done.
  - destruct (coroutines q !! k) as [[job|job]|] eqn:Hk; try done.
    apply NoneWaiting_park, NoneWaiting_afterExecute. by eapply busy.
  - destruct (coroutines q !! k) as [[job|job]|] eqn:Hk; try done.
    apply NoneWaiting_park, NoneWaiting_whileLoop. by eapply busy.
  - destruct (timers q !! n) as [ref|]; [|done]. simpl.
    destruct (heap q !! ref); [|done].
    eapply NoneWaiting_fewer_entries; [..|exact Hq]; try done. apply sublist_mapDelete.
  - eapply NoneWaiting_fewer_entries; [..|exact Hq].
    + apply heap_cleanup.
    + apply processing_cleanup.
    + apply sublist_cleanup.
Qed.

Lemma NoneWaiting_run (events : list Event) : NoneWaiting (run events).
Proof.
  induction events as [|ev events IH] using rev_ind.
  - by intros _.
  - rewrite run_snoc. apply NoneWaiting_step; [apply Inv_run|done].
Qed.

Lemma countStatus_zero (s : Status) (jobs : list QueueJob) :
  Forall (fun job => status job <> s) jobs -> countStatus s jobs = 0.
Proof.
  unfold countStatus. induction 1 as [|job jobs Hj _ IH]; simpl; [done|].
  destruct (Status_eqb (status job) s) eqn:E; [|done].
  by apply Status_eqb_eq in E.
Qed.

(** X12.  No job is left waiting: whenever [this.processing] is false no
    call of [processQueue] is suspended, every job in the map is completed or
    failed, and [getQueueStats] counts no pending and no processing job. *)
Theorem idle_queue_has_no_unfinished_job (events : list Event) :
  this_processing (run events) = false ->
  coroutines (run events) = []
  /\ Forall (fun job => status job = completed \/ status job = failed) (values (run events))
  /\ stat_pending (getQueueStats (run events)) = 0
  /\ stat_processing (getQueueStats (run events)) = 0.
Proof.
  intros Hidle. pose proof (Inv_run events) as HI.
  pose proof (NoneWaiting_run events Hidle) as Hnone.
  assert (Hc : coroutines (run events) = []).
  { destruct (inv_flag _ HI) as [[Hc _]|(c & _ & Hp)]; [done|congruence]. }
  pose proof (Quiet_idle _ HI Hc) as Hquiet.
  assert (Hdone : Forall (fun job => status job = completed \/ status job = failed)
                         (values (run events))).
  { unfold values. rewrite Forall_forall in Hnone. apply Forall_forall.
    intros job (r & Hr & Hj)%list_elem_of_omap.
    specialize (Hnone r Hr). specialize (Hquiet r job Hj).
    unfold isPending in Hnone. rewrite Hj in Hnone.
    destruct (status job); simpl in *; auto; done. }
  split; [done|]. split; [done|]. simpl.
  split; apply countStatus_zero; eapply Forall_impl; [exact Hdone| |exact Hdone|];
    intros job [-> | ->]; done.
Qed.

(** X13.  [getJobStatus] right after [add] returns the job just added,
    with the data and time of the call and no attempt made: already
    [processing] when the queue was idle, [pending] when it was busy. *)
Theorem add_then_getJobStatus (events : list Event) (jobData : ScanJob) (jobId : string)
    (now : Z) :
  getJobStatus jobId (run (events ++ [Add jobData jobId now]))
  = Some {| id := jobId; data := jobData;
            status := if this_processing (run events) then pending else processing;
            createdAt := now; attempts := 0 |}.
Proof.
  rewrite run_snoc. pose proof (Inv_run events) as HI.
  pose proof (NoneWaiting_run events) as Hnone.
  destruct (run events) as [h m b cs ts]. unfold NoneWaiting, refs in Hnone.
  destruct HI as [_ [_ Hval] _ _ _]. simpl in *.
  set (job := {| id := jobId; data := jobData; status := pending;
                 createdAt := now; attempts := 0 |}).
  destruct b; simpl.
  - unfold getJobStatus. simpl. rewrite mapGet_mapSet. simpl.
    rewrite lookup_app_r by done. by rewrite Nat.sub_diag.
  - specialize (Hnone eq_refl). unfold processQueue.
    match goal with |- context [whileLoop ?q0] =>
      destruct (whileLoop_cases q0)
        as [(picked & -> & Hpend & _ & before & after & _ & _ & Hrefs & _)|[-> Hno]] end;
        simpl in *.
    + assert (picked = length h) as ->.
      { assert (Hin : picked ∈ map snd (mapSet jobId (length h) m)).
        { unfold refs in Hrefs. simpl in Hrefs. rewrite Hrefs.
          apply elem_of_app. right. constructor. }
        apply elem_of_refs_mapSet in Hin as [->|Hin]; [done|]. exfalso.
        rewrite Forall_forall in Hnone. specialize (Hnone _ Hin).
        specialize (Hval _ Hin). unfold isPending in *.
        rewrite lookup_app_l in Hpend by done. congruence. }
      unfold getJobStatus. simpl. rewrite mapGet_mapSet. simpl.
      rewrite list_lookup_alter_eq, lookup_app_r by done. by rewrite Nat.sub_diag.
    + exfalso. rewrite Forall_forall in Hno. specialize (Hno (length h)).
      unfold refs, isPending in Hno. simpl in Hno.
      rewrite lookup_app_r, Nat.sub_diag in Hno by done. simpl in Hno.
      assert (Hin : length h ∈ map snd (mapSet jobId (length h) m)).
      { destruct (refs_mapSet jobId (length h) m) as (bf & af & _ & ->).
        apply elem_of_app. right. constructor. }
      by specialize (Hno Hin).
Qed.

(** X14.  A job [getJobStatus] returns has the id asked for, was made by
    a call of [add] with that id, its data and its creation time, and is one
    of the jobs [getQueueStats] counts. *)
Theorem getJobStatus_returns_added_job (events : list Event) (jobId : string)
    (job : QueueJob) :
  getJobStatus jobId (run events) = Some job ->
  id job = jobId
  /\ In (Add (data job) jobId (createdAt job)) events
  /\ job ∈ values (run events).
Proof.
  unfold getJobStatus. destruct (mapGet jobId (queue (run events))) as [ref|] eqn:Hget; [|done].
  simpl. intros Hjob. apply mapGet_Some in Hget.
  destruct (KeysOk_run events) as [_ Hid]. specialize (Hid _ _ Hget).
  rewrite Hjob in Hid. injection Hid as Hid. split; [done|]. split.
  - pose proof (fields_run events) as Hf.
    assert (Hin : fields job ∈ added events).
    { rewrite <- Hf. apply list_elem_of_fmap. exists job. split; [done|].
      by eapply list_elem_of_lookup_2. }
    apply list_elem_of_omap in Hin as (ev & Hev & Hadd).
    destruct ev as [d i n| | | |]; try done. injection Hadd as -> -> ->.
    subst jobId. by apply list_elem_of_In.
  - unfold values. apply list_elem_of_omap. exists ref. split; [|done].
    unfold refs. apply list_elem_of_fmap. by exists (jobId, ref).
Qed.


(** *** [cleanup] *)

Lemma expired_test (now : Z) (h : list QueueJob) (entry : string * nat) (job : QueueJob) :
  h !! snd entry = Some job ->
  expired now h entry
  = isTerminal (status job) && (createdAt job <? now - 60 * 60 * 1000)%Z.
Proof. intros Hj. unfold expired. rewrite Hj. by destruct (status job). Qed.

Lemma cleanup_fold (now : Z) (h : list QueueJob) (b : bool) (cs : list Coroutine)
    (ts : list nat) (entries m : list (string * nat)) :
  fold_left
    (fun q entry =>
       match heap q !! snd entry with
       | Some job =>
           if isTerminal (status job) && (createdAt job <? now - 60 * 60 * 1000)%Z
           then withQueue (mapDelete (fst entry) (queue q)) q
           else q
       | None => q
       end)
    entries
    {| heap := h; queue := m; this_processing := b; coroutines := cs; timers := ts |}
  = {| heap := h;
       queue := List.filter
                  (fun e => negb (existsb (fun e' => expired now h e'
                                                     && String.eqb (fst e) (fst e')) entries))
                  m;
       this_processing := b; coroutines := cs; timers := ts |}.
Proof.
  revert m. induction entries as [|entry entries IH]; intros m; simpl.
  - f_equal. induction m as [|e m IHm]; simpl; [done|]. by rewrite <- IHm.
  - destruct (h !! entry.2) as [job|] eqn:Hj; simpl;
      [rewrite (expired_test now h entry job Hj);
       destruct (isTerminal (status job) && (createdAt job <? now - 60 * 60 * 1000)%Z) eqn:E
      |replace (expired now h entry) with false by (unfold expired; by rewrite Hj)];
      unfold withQueue; simpl; rewrite IH; f_equal.
    unfold mapDelete. induction m as [|e m IHm]; simpl; [done|].
    rewrite (String.eqb_sym e.1 entry.1).
    destruct (String.eqb entry.1 e.1); simpl; [done|].
    destruct (existsb _ entries); simpl; by rewrite IHm.
Qed.

Lemma unique_key (m : list (string * nat)) (key : string) (r r' : nat) :
  NoDup (map fst m) -> (key, r) ∈ m -> (key, r') ∈ m -> r = r'.
Proof.
  assert (Hkey : forall (l : list (string * nat)) x, (key, x) ∈ l -> key ∈ map fst l).
  { intros l x Hx. apply list_elem_of_fmap. by exists (key, x). }
  induction m as [|[k x] m IH]; simpl; [by intros _ ?%elem_of_nil|].
  intros [Hk Hnd]%NoDup_cons H1%elem_of_cons H2%elem_of_cons.
  destruct H1 as [H1|H1], H2 as [H2|H2]; simplify_eq.
  - done.
  - exfalso. eauto.
  - exfalso. eauto.
  - by apply IH.
Qed.

Lemma cleanup_filter (now : Z) (q : State) :
  NoDup (map fst (queue q)) ->
  cleanup now q
  = withQueue (List.filter (fun entry => negb (expired now (heap q) entry)) (queue q)) q.
Proof.
  intros Hnd. unfold cleanup. destruct q as [h m b cs ts]. simpl in *.
  rewrite cleanup_fold. unfold withQueue. simpl. f_equal.
  apply filter_ext_in. intros [k r] Hin%list_elem_of_In. f_equal.
  apply eq_true_iff_eq. rewrite existsb_exists. split.
  - intros ([k' r'] & Hin'%list_elem_of_In & [He Hk%String.eqb_eq]%andb_true_iff).
    simpl in Hk. subst k'. by rewrite (unique_key m k r r' Hnd Hin Hin').
  - intros He. exists (k, r). split; [by apply list_elem_of_In|].
    simpl. by rewrite He, String.eqb_refl.
Qed.

(** X15.  [cleanup] removes from the map exactly the entries whose job has
    status completed or failed and was created more than an hour before,
    keeps the others, pending and processing jobs among them, in their
    order, and changes nothing else; a second [cleanup] at the same instant
    changes nothing. *)
Theorem cleanup_removes_exactly_the_expired (events : list Event) (now : Z) :
  run (events ++ [Cleanup now])
  = withQueue (List.filter (fun entry => negb (expired now (heap (run events)) entry))
                           (queue (run events)))
              (run events)
  /\ run (events ++ [Cleanup now; Cleanup now]) = run (events ++ [Cleanup now]).
Proof.
  assert (H1 : forall evs, run (evs ++ [Cleanup now])
               = withQueue (List.filter (fun entry => negb (expired now (heap (run evs)) entry))
                                        (queue (run evs))) (run evs)).
  { intros evs. rewrite run_snoc. simpl. apply cleanup_filter, KeysOk_run. }
  split; [apply H1|].
  change [Cleanup now; Cleanup now] with ([Cleanup now] ++ [Cleanup now]).
  rewrite app_assoc, H1. rewrite (H1 events) at 3. rewrite H1. simpl.
  unfold withQueue. simpl. f_equal.
  induction (queue (run events)) as [|e m IH]; simpl; [done|].
  destruct (expired now (heap (run events)) e) eqn:E; simpl; [done|].
  by rewrite E, IH.
Qed.

(** *** Finished jobs *)

Lemma Settled_refl (h : list QueueJob) : Settled h h.
Proof. by intros r j. Qed.

Lemma Settled_trans (h1 h2 h3 : list QueueJob) :
  Settled h1 h2 -> Settled h2 h3 -> Settled h1 h3.
Proof. intros H1 H2 r j Hj Ht. apply H2; [|done]. by apply H1. Qed.

Lemma Settled_alter (f : QueueJob -> QueueJob) (r : nat) (h : list QueueJob) :
  (forall j, h !! r = Some j -> isTerminal (status j) = false) ->
  Settled h (alter f r h).
Proof.
  intros Hr r' j Hj Ht. destruct (decide (r' = r)) as [->|Hne].
  - specialize (Hr _ Hj). congruence.
  - by rewrite list_lookup_alter_ne.
Qed.

Lemma Settled_app (h extra : list QueueJob) : Settled h (h ++ extra).
Proof. intros r j Hj _. by apply lookup_app_l_Some. Qed.

Lemma Settled_whileLoop (q : State) : Settled (heap q) (heap (whileLoop q).1).
Proof.
  destruct (whileLoop_cases q) as [(job & -> & Hpend & _)|[-> _]]; simpl;
    [|apply Settled_refl].
  apply Settled_alter. intros j Hj. unfold isPending in Hpend. rewrite Hj in Hpend.
  by destruct (status j).
Qed.

Lemma Settled_afterExecute (job : nat) (outcome : Completion) (q : State) :
  statusOf (heap q) job = Some processing ->
  Settled (heap q) (heap (afterExecute job outcome q).1).
Proof.
  intros Hs. unfold statusOf in Hs.
  destruct (heap q !! job) as [j|] eqn:Hj; [|done]. injection Hs as Hs.
  assert (Hfirst : forall f, Settled (heap q) (alter f job (heap q))).
  { intros f. apply Settled_alter. intros j0 Hj0.
    assert (j0 = j) as -> by congruence. by rewrite Hs. }
  destruct outcome as [|e]; simpl.
  - eapply Settled_trans; [|apply Settled_whileLoop]. simpl. apply Hfirst.
  - match goal with |- context [if ?b then _ else _] => destruct b end; simpl.
    + rewrite list_alter_alter_eq. apply Hfirst.
    + eapply Settled_trans; [|apply Settled_whileLoop]. simpl.
      rewrite list_alter_alter_eq. apply Hfirst.
Qed.

Lemma Settled_step (q : State) (ev : Event) :
  Inv q -> Settled (heap q) (heap (step q ev)).
Proof.
  intros HI. destruct ev as [jobData jobId now|k outcome|k|n|now]; simpl.
  - destruct (negb _); simpl; [|apply Settled_app].
    unfold processQueue.
    match goal with |- context [whileLoop ?q0] =>
      pose proof (Settled_whileLoop q0) as H; destruct (whileLoop q0) as [q1 [c|]] end;
      simpl in *; (eapply Settled_trans; [apply Settled_app|exact H]).
  - destruct (coroutines q !! k) as [[job|job]|] eqn:Hk; try apply Settled_refl.
    rewrite heap_park. apply Settled_afterExecute. apply (inv_executing q HI).
    destruct (inv_flag q HI) as [[Hc _]|(c & Hc & _)]; rewrite Hc in Hk; [done|].
    destruct k; simpl in Hk; [|done]. by injection Hk as ->.
  - destruct (coroutines q !! k) as [[job|job]|]; try apply Settled_refl.
    rewrite heap_park. apply Settled_whileLoop.
  - destruct (timers q !! n) as [ref|]; [|apply Settled_refl]. simpl.
    destruct (heap q !! ref); apply Settled_refl.
  - rewrite heap_cleanup. apply Settled_refl.
Qed.

(** X16.  A job object that is completed or failed never changes again,
    whatever happens to the queue afterwards. *)
Theorem finished_job_never_changes (events more : list Event) (ref : nat) (job : QueueJob) :
  heap (run events) !! ref = Some job ->
  status job = completed \/ status job = failed ->
  heap (run (events ++ more)) !! ref = Some job.
Proof.
  intros Hj Hs. assert (Ht : isTerminal (status job) = true) by (by destruct Hs as [-> | ->]).
  clear Hs. revert ref job Hj Ht. change (Settled (heap (run events)) (heap (run (events ++ more)))).
  induction more as [|ev more IH] using rev_ind.
  - rewrite app_nil_r. apply Settled_refl.
  - rewrite app_assoc, run_snoc. eapply Settled_trans; [exact IH|].
    apply Settled_step, Inv_run.
Qed.

(** After a job failed for the third time the queue is idle. *)
Lemma idle_queue_has_no_unfinished_job_witness :
  this_processing (run retryHistory) = false
  /\ coroutines (run retryHistory) = []
  /\ Forall (fun job => status job = completed \/ status job = failed)
            (values (run retryHistory))
  /\ stat_pending (getQueueStats (run retryHistory)) = 0
  /\ stat_processing (getQueueStats (run retryHistory)) = 0.
Proof.
  split; [reflexivity|]. apply (idle_queue_has_no_unfinished_job retryHistory). reflexivity.
Defined.

(** The failed job, asked for by its id. *)
Lemma getJobStatus_returns_added_job_witness :
  getJobStatus "job-1" (run retryHistory) = Some failedJob
  /\ id failedJob = "job-1"%string
  /\ In (Add (data failedJob) "job-1" (createdAt failedJob)) retryHistory
  /\ failedJob ∈ values (run retryHistory).
Proof.
  split; [reflexivity|].
  apply (getJobStatus_returns_added_job retryHistory "job-1" failedJob). reflexivity.
Defined.

(** The failed job, after a second job and a [cleanup]. *)
Lemma finished_job_never_changes_witness :
  heap (run retryHistory) !! 0 = Some failedJob
  /\ heap (run (retryHistory ++ laterHistory)) !! 0 = Some failedJob.
Proof.
  split; [reflexivity|].
  apply (finished_job_never_changes retryHistory laterHistory 0 failedJob);
    [reflexivity|right; reflexivity].
Defined.

End BookkeepingProps.

(** * The queue and the scraper together *)

Module WorkerProps.
Import Js LightweightScraper InMemoryQueue QueueSpec BookkeepingSpec Worker.
Import Examples MoreExamples CrawlProps TraversalProps QueueProps BookkeepingProps.
Local Open Scope list_scope.

(** X17.  A job is retried only when [browser.close()] fails.  When the
    promise of [executeJob] settles, the job is [completed] with its
    [attempts] unchanged if [scanWebsite] resolved, which it does whenever
    [browser.close()] succeeds, even if the session was recorded as failed;
    it counts one more attempt, and is [pending] again or [failed] at the
    third, only if [browser.close()] threw. *)
Theorem job_retried_only_when_close_fails (events : list Event) (k ref : nat)
    (job : QueueJob) (env : Puppeteer) (held : bool) (record : SessionRecord)
    (ending : Completion * bool) :
  coroutines (run events) !! k = Some (AwaitingExecute ref) ->
  heap (run events) !! ref = Some job ->
  executeJob env held job = Some (record, ending) ->
  exists job',
    heap (run (events ++ [ExecuteSettled k ending.1])) !! ref = Some job'
    /\ (browserClose env = Returned -> ending.1 = Returned)
    /\ (ending.1 = Returned -> status job' = completed /\ attempts job' = attempts job)
    /\ (forall e, ending.1 = Threw e ->
          browserClose env = Threw e
          /\ attempts job' = attempts job + 1
          /\ status job' = if attempts job + 1 <? 3 then pending else failed).
Proof.
  intros Hk Hj Hexec. rewrite run_snoc. simpl. rewrite Hk, heap_park.
  apply scanWebsite_ending in Hexec as [held' ->].
  destruct (finallyClose_cases env held') as [Hthrew Hret].
  destruct (finallyClose env held').1 as [|e] eqn:Hend; simpl.
  - exists (setStatus completed job). split.
    + apply Settled_whileLoop; [|done]. simpl. by rewrite list_lookup_alter_eq, Hj.
    + split; [done|]. split; [done|]. intros e [=].
  - destruct (Hthrew e eq_refl) as [Hclose _].
    rewrite list_lookup_alter_eq, Hj. simpl.
    exists (setStatus (if attempts job + 1 <? 3 then pending else failed)
                      (incrAttempts job)).
    split.
    + destruct (attempts job + 1 <? 3) eqn:Hretry; simpl.
      * by rewrite list_alter_alter_eq, list_lookup_alter_eq, Hj.
      * apply Settled_whileLoop; [|done]. simpl.
        by rewrite list_alter_alter_eq, list_lookup_alter_eq, Hj.
    + split; [congruence|]. split; [done|]. intros e' [= <-]. done.
Qed.

(** A scan that loses its browser at the seed: the session fails, the job
    completes. *)
Lemma job_retried_only_when_close_fails_witness :
  coroutines (run firstAdd) !! 0 = Some (AwaitingExecute 0)
  /\ heap (run firstAdd) !! 0 = Some startedJob
  /\ executeJob disconnectingEnv false startedJob = Some (lostSession, (Returned, false))
  /\ exists job',
       heap (run (firstAdd ++ [ExecuteSettled 0 Returned])) !! 0 = Some job'
       /\ (browserClose disconnectingEnv = Returned -> Returned = Returned)
       /\ (Returned = Returned -> status job' = completed /\ attempts job' = attempts startedJob)
       /\ (forall e, Returned = Threw e ->
             browserClose disconnectingEnv = Threw e
             /\ attempts job' = attempts startedJob + 1
             /\ status job' = if attempts startedJob + 1 <? 3 then pending else failed).
Proof.
  split; [reflexivity|]. split; [reflexivity|]. split; [reflexivity|].
  apply (job_retried_only_when_close_fails firstAdd 0 0 startedJob disconnectingEnv false
           lostSession (Returned, false)); reflexivity.
Defined.

End WorkerProps.

(** * Properties of the server *)

Module ServerProps.
Import Js LightweightScraper Server ServerSpec CrawlSpec TraversalSpec MoreExamples.
Import CrawlProps TraversalProps.
Local Open Scope list_scope.

(** X18.  What the status endpoint reports of a scan.  For every progress
    update of the crawl the response has [totalPages] equal to
    [pagesProcessed], the number of pages stored; for the aggregate
    [scanWebsite] leaves at the end, [pagesProcessed] is the number of pages,
    [errors] the number of errors and [totalPages] their sum. *)
Theorem status_response_totals (env : Puppeteer) (held : bool) (url : string) :
  exists out st record ending,
    crawl (browser env) url = Some (out, st)
    /\ scanWebsite env held url = Some (record, ending)
    /\ (forall sd, In (Flushed sd) (trace st) ->
          resp_pagesProcessed (statusResponse (Some sd)) = length (pages sd)
          /\ resp_totalPages (statusResponse (Some sd)) = length (pages sd))
    /\ resp_pagesProcessed (statusResponse (Some (scanDataOf record)))
       = length (pages (scanDataOf record))
    /\ resp_errors (statusResponse (Some (scanDataOf record)))
       = length (errors (scanDataOf record))
    /\ resp_totalPages (statusResponse (Some (scanDataOf record)))
       = length (pages (scanDataOf record)) + length (errors (scanDataOf record)).
Proof.
  destruct (crawl_returns (browser env) url) as (out & st & Hcrawl).
  assert (Hor : forall n, orNum n 0 = n) by (intros [|n]; done).
  assert (Hu : Underway freshCrawl) by by repeat split.
  destruct (scanPage_Progress _ _ _ _ _ _ _ Hcrawl Hu)
    as (((Hthis & Hp & Hk) & _) & new & Ht & Hok & _).
  assert (Hflush : forall sd, In (Flushed sd) (trace st) ->
            resp_pagesProcessed (statusResponse (Some sd)) = length (pages sd)
            /\ resp_totalPages (statusResponse (Some sd)) = length (pages sd)).
  { intros sd Hin. rewrite Ht in Hin. simpl in Hin.
    rewrite Forall_forall in Hok. apply list_elem_of_In, Hok in Hin.
    destruct Hin as (Hpp & _ & _ & Htot & _). simpl. by rewrite Htot, Hor, Hpp. }
  assert (Hempty : forall n, orNum 0 n = n) by done.
  unfold scanWebsite. rewrite Hcrawl.
  destruct (launch env); [destruct out|]; eexists _, _, _, _;
    (split; [done|]); (split; [done|]); (split; [exact Hflush|]); simpl;
    rewrite ?Hor; try done.
  rewrite Hp, Hk. split; [done|]. split; [done|].
  unfold orNum. destruct (_ =? 0) eqn:E; nat_bools; lia.
Qed.


(** *** The rate limiter *)

Lemma getRequests_setRequests (ip ip' : string) (requests : list Z)
    (requestCounts : RequestCounts) :
  getRequests ip' (setRequests ip requests requestCounts)
  = if String.eqb ip ip' then requests else getRequests ip' requestCounts.
Proof.
  induction requestCounts as [|[k old] rest IH]; simpl.
  - done.
  - destruct (String.eqb k ip) eqn:E; simpl.
    + apply String.eqb_eq in E as ->. by destruct (String.eqb ip ip').
    + destruct (String.eqb k ip') eqn:E'; [|done].
      apply String.eqb_eq in E' as ->. by rewrite String.eqb_sym, E.
Qed.

Lemma filter_filter_window (window now0 now : Z) (requests : list Z) :
  (now0 <= now)%Z ->
  List.filter (fun time => (now - time <? window)%Z)
              (List.filter (fun time => (now0 - time <? window)%Z) requests)
  = List.filter (fun time => (now - time <? window)%Z) requests.
Proof.
  intros Hle. induction requests as [|time requests IH]; simpl; [done|].
  destruct (now0 - time <? window)%Z eqn:E0; simpl; rewrite IH; [done|].
  destruct (now - time <? window)%Z eqn:E; [|done].
  apply Z.ltb_lt in E. apply Z.ltb_ge in E0. lia.
Qed.

Lemma Agree_later (window : Z) (requestCounts : RequestCounts)
    (admitted : list (string * Z)) (last now : Z) :
  (last <= now)%Z -> Agree window requestCounts admitted last ->
  Agree window requestCounts admitted now.
Proof. intros Hle H ip t Ht. apply H. lia. Qed.

Lemma Agree_rateLimiter (limits : Limits) (window : Z) (ip : string) (now last : Z)
    (requestCounts : RequestCounts) (admitted : list (string * Z)) :
  windowMs limits = Some window ->
  Agree window requestCounts admitted last -> (last <= now)%Z ->
  Agree window (rateLimiter limits ip now requestCounts).2
        (admitted ++ (if (rateLimiter limits ip now requestCounts).1
                      then [(ip, now)] else []))
        now.
Proof.
  intros Hw Hagree Hle. unfold rateLimiter. rewrite Hw. simpl.
  destruct (geNum _ _); simpl.
  - rewrite app_nil_r. by eapply Agree_later.
  - intros ip' t Ht. rewrite getRequests_setRequests. unfold inWindow.
    rewrite List.filter_app, map_app. simpl.
    destruct (String.eqb ip ip') eqn:E; simpl.
    + apply String.eqb_eq in E as <-.
      rewrite List.filter_app, filter_filter_window by done.
      rewrite (Hagree ip t) by lia. unfold inWindow. simpl.
      by destruct (t - now <? window)%Z.
    + rewrite app_nil_r. apply Hagree. lia.
Qed.

Lemma rateLimiter_decides (limits : Limits) (window limit : Z) (ip : string) (now last : Z)
    (requestCounts : RequestCounts) (admitted : list (string * Z)) :
  windowMs limits = Some window -> maxRequests limits = Some limit ->
  Agree window requestCounts admitted last -> (last <= now)%Z ->
  (rateLimiter limits ip now requestCounts).1
  = (Z.of_nat (length (inWindow window ip now admitted)) <? limit)%Z.
Proof.
  intros Hw Hm Hagree Hle. unfold rateLimiter. rewrite Hw, Hm. simpl.
  rewrite (Hagree ip now Hle), length_map.
  destruct (limit <=? _)%Z eqn:E; simpl; symmetry.
  - apply Z.ltb_ge. by apply Z.leb_le.
  - apply Z.ltb_lt. by apply Z.leb_gt.
Qed.

Lemma serve_decides (limits : Limits) (window limit : Z) (ip : string) (now : Z) :
  windowMs limits = Some window -> maxRequests limits = Some limit ->
  forall reqs requestCounts admitted last,
    Agree window requestCounts admitted last ->
    chronological last (reqs ++ [(ip, now)]) = true ->
    (rateLimiter limits ip now (serve limits reqs requestCounts).2).1
    = (Z.of_nat (length (inWindow window ip now
                           (admitted ++ (serve limits reqs requestCounts).1))) <? limit)%Z.
Proof.
  intros Hw Hm. induction reqs as [|[ip0 t0] reqs IH]; intros c admitted last Hagree Hchron.
  - simpl in *. rewrite app_nil_r. apply andb_true_iff in Hchron as [Hle%Z.leb_le _].
    by eapply rateLimiter_decides.
  - simpl in Hchron. apply andb_true_iff in Hchron as [Hle%Z.leb_le Hchron].
    pose proof (Agree_rateLimiter limits window ip0 t0 last c admitted Hw Hagree Hle) as Hnext.
    simpl. destruct (rateLimiter limits ip0 t0 c) as [passed c'] eqn:Hr. simpl in Hnext.
    specialize (IH _ _ _ Hnext Hchron).
    destruct (serve limits reqs c') as [adm c''] eqn:Hs. simpl in *.
    by rewrite IH, <- app_assoc.
Qed.

(** X19.  While the clock does not run backwards and both settings are
    numbers, the rate limiter is a sliding window: a request is let through
    exactly when fewer than [maxRequests] requests of the same address were
    let through less than [windowMs] milliseconds before it. *)
Theorem rateLimiter_is_a_sliding_window (limits : Limits) (window limit : Z)
    (reqs : list (string * Z)) (ip : string) (now first : Z) :
  windowMs limits = Some window -> maxRequests limits = Some limit ->
  chronological first (reqs ++ [(ip, now)]) = true ->
  (rateLimiter limits ip now (serve limits reqs []).2).1
  = (Z.of_nat (length (inWindow window ip now (serve limits reqs []).1)) <? limit)%Z.
Proof.
  intros Hw Hm Hchron.
  apply (serve_decides limits window limit ip now Hw Hm reqs [] [] first); [|done].
  by intros ip' t _.
Qed.

(** X20.  A limit that is not a number switches the limiter off: when
    [maxRequests] is [NaN], or [windowMs] is [NaN] and [maxRequests] is
    positive, every request is let through. *)
Theorem rateLimiter_off_when_not_a_number (limits : Limits) (reqs : list (string * Z))
    (requestCounts : RequestCounts) :
  maxRequests limits = None
  \/ (windowMs limits = None /\ exists limit, maxRequests limits = Some limit /\ (0 < limit)%Z) ->
  (serve limits reqs requestCounts).1 = reqs.
Proof.
  intros Hoff. revert requestCounts.
  induction reqs as [|[ip now] reqs IH]; intros c; simpl; [done|].
  assert (Hpass : (rateLimiter limits ip now c).1 = true).
  { unfold rateLimiter. destruct Hoff as [-> |(-> & limit & -> & Hpos)]; simpl; [done|].
    assert (Hnone : List.filter (fun _ : Z => false) (getRequests ip c) = [])
      by (induction (getRequests ip c); done).
    rewrite Hnone. simpl. change (Z.of_nat 0) with 0%Z.
    destruct (limit <=? 0)%Z eqn:E; [|done].
    apply Z.leb_le in E. lia. }
  destruct (rateLimiter limits ip now c) as [passed c']. simpl in Hpass. subst passed.
  specialize (IH c'). destruct (serve limits reqs c') as [adm c'']. simpl in *.
  by rewrite IH.
Qed.

(** A third request of one address within the minute is turned away. *)
Lemma rateLimiter_is_a_sliding_window_witness :
  chronological 1714564800000 (burst ++ [("203.0.113.7"%string, 1714564803000%Z)]) = true
  /\ (rateLimiter twoAMinute "203.0.113.7" 1714564803000 (serve twoAMinute burst []).2).1
     = (Z.of_nat (length (inWindow 60000 "203.0.113.7" 1714564803000
                            (serve twoAMinute burst []).1)) <? 2)%Z.
Proof.
  split; [reflexivity|].
  apply (rateLimiter_is_a_sliding_window twoAMinute 60000 2 burst "203.0.113.7"
           1714564803000 1714564800000); reflexivity.
Defined.

(** The third request passes when the limit did not parse. *)
Lemma rateLimiter_off_when_not_a_number_witness :
  (serve unparsedLimit (burst ++ [("203.0.113.7"%string, 1714564803000%Z)]) []).1
  = burst ++ [("203.0.113.7"%string, 1714564803000%Z)].
Proof.
  apply (rateLimiter_off_when_not_a_number unparsedLimit). left. reflexivity.
Defined.

End ServerProps.
